(** * Speech-to-text streaming pipeline (backend/speect_to_text.py)

    A shallow embedding of the transcription pipeline: the microphone
    chunk generator, the worker loop [listen_and_transcribe] with its
    exit-command scan, and the start/stop handlers of [main] that keep
    the session state.  Threads are modelled by interleaving atomic
    steps of the worker with steps of its environment. *)

From Stdlib Require Import ZArith NArith Ascii String List Bool Lia.
From stdpp Require Import base option list gmap strings.

Local Open Scope string_scope.
Local Open Scope list_scope.

(** ** Python [str]

    A [str] is a sequence of Unicode code points (0 to 1114111). *)
Module Str.

Definition str := list N.

(** A literal, character by character. *)
Definition lit (s : string) : str := map N_of_ascii (list_ascii_of_string s).

End Str.

#[global] Arguments Str.lit : simpl never.

(** ** The exit-command scan

    [re.search(r"\b(exit|quit)\b", transcript, re.I)] on a [str].  The
    tables are those of Python's Unicode database (version 14.0), which
    the [re] module reads through [str.isalnum] and the simple case
    mapping. *)
Module ExitCommand.
Import Str.

Definition in_range (lo hi n : N) : bool := ((lo <=? n) && (n <=? hi))%N.

(** The alphanumeric code points (alphabetic, decimal, digit or
    numeric) and ['_'], as ranges in increasing order. *)
Definition word_ranges : list (N * N) :=
  ([
   (48, 57); (65, 90); (95, 95); (97, 122); (170, 170); (178, 179);
   (181, 181); (185, 186); (188, 190); (192, 214); (216, 246); (248, 705);
   (710, 721); (736, 740); (748, 748); (750, 750); (880, 884); (886, 887);
   (890, 893); (895, 895); (902, 902); (904, 906); (908, 908); (910, 929);
   (931, 1013); (1015, 1153); (1162, 1327); (1329, 1366); (1369, 1369);
   (1376, 1416); (1488, 1514); (1519, 1522); (1568, 1610); (1632, 1641);
   (1646, 1647); (1649, 1747); (1749, 1749); (1765, 1766); (1774, 1788);
   (1791, 1791); (1808, 1808); (1810, 1839); (1869, 1957); (1969, 1969);
   (1984, 2026); (2036, 2037); (2042, 2042); (2048, 2069); (2074, 2074);
   (2084, 2084); (2088, 2088); (2112, 2136); (2144, 2154); (2160, 2183);
   (2185, 2190); (2208, 2249); (2308, 2361); (2365, 2365); (2384, 2384);
   (2392, 2401); (2406, 2415); (2417, 2432); (2437, 2444); (2447, 2448);
   (2451, 2472); (2474, 2480); (2482, 2482); (2486, 2489); (2493, 2493);
   (2510, 2510); (2524, 2525); (2527, 2529); (2534, 2545); (2548, 2553);
   (2556, 2556); (2565, 2570); (2575, 2576); (2579, 2600); (2602, 2608);
   (2610, 2611); (2613, 2614); (2616, 2617); (2649, 2652); (2654, 2654);
   (2662, 2671); (2674, 2676); (2693, 2701); (2703, 2705); (2707, 2728);
   (2730, 2736); (2738, 2739); (2741, 2745); (2749, 2749); (2768, 2768);
   (2784, 2785); (2790, 2799); (2809, 2809); (2821, 2828); (2831, 2832);
   (2835, 2856); (2858, 2864); (2866, 2867); (2869, 2873); (2877, 2877);
   (2908, 2909); (2911, 2913); (2918, 2927); (2929, 2935); (2947, 2947);
   (2949, 2954); (2958, 2960); (2962, 2965); (2969, 2970); (2972, 2972);
   (2974, 2975); (2979, 2980); (2984, 2986); (2990, 3001); (3024, 3024);
   (3046, 3058); (3077, 3084); (3086, 3088); (3090, 3112); (3114, 3129);
   (3133, 3133); (3160, 3162); (3165, 3165); (3168, 3169); (3174, 3183);
   (3192, 3198); (3200, 3200); (3205, 3212); (3214, 3216); (3218, 3240);
   (3242, 3251); (3253, 3257); (3261, 3261); (3293, 3294); (3296, 3297);
   (3302, 3311); (3313, 3314); (3332, 3340); (3342, 3344); (3346, 3386);
   (3389, 3389); (3406, 3406); (3412, 3414); (3416, 3425); (3430, 3448);
   (3450, 3455); (3461, 3478); (3482, 3505); (3507, 3515); (3517, 3517);
   (3520, 3526); (3558, 3567); (3585, 3632); (3634, 3635); (3648, 3654);
   (3664, 3673); (3713, 3714); (3716, 3716); (3718, 3722); (3724, 3747);
   (3749, 3749); (3751, 3760); (3762, 3763); (3773, 3773); (3776, 3780);
   (3782, 3782); (3792, 3801); (3804, 3807); (3840, 3840); (3872, 3891);
   (3904, 3911); (3913, 3948); (3976, 3980); (4096, 4138); (4159, 4169);
   (4176, 4181); (4186, 4189); (4193, 4193); (4197, 4198); (4206, 4208);
   (4213, 4225); (4238, 4238); (4240, 4249); (4256, 4293); (4295, 4295);
   (4301, 4301); (4304, 4346); (4348, 4680); (4682, 4685); (4688, 4694);
   (4696, 4696); (4698, 4701); (4704, 4744); (4746, 4749); (4752, 4784);
   (4786, 4789); (4792, 4798); (4800, 4800); (4802, 4805); (4808, 4822);
   (4824, 4880); (4882, 4885); (4888, 4954); (4969, 4988); (4992, 5007);
   (5024, 5109); (5112, 5117); (5121, 5740); (5743, 5759); (5761, 5786);
   (5792, 5866); (5870, 5880); (5888, 5905); (5919, 5937); (5952, 5969);
   (5984, 5996); (5998, 6000); (6016, 6067); (6103, 6103); (6108, 6108);
   (6112, 6121); (6128, 6137); (6160, 6169); (6176, 6264); (6272, 6276);
   (6279, 6312); (6314, 6314); (6320, 6389); (6400, 6430); (6470, 6509);
   (6512, 6516); (6528, 6571); (6576, 6601); (6608, 6618); (6656, 6678);
   (6688, 6740); (6784, 6793); (6800, 6809); (6823, 6823); (6917, 6963);
   (6981, 6988); (6992, 7001); (7043, 7072); (7086, 7141); (7168, 7203);
   (7232, 7241); (7245, 7293); (7296, 7304); (7312, 7354); (7357, 7359);
   (7401, 7404); (7406, 7411); (7413, 7414); (7418, 7418); (7424, 7615);
   (7680, 7957); (7960, 7965); (7968, 8005); (8008, 8013); (8016, 8023);
   (8025, 8025); (8027, 8027); (8029, 8029); (8031, 8061); (8064, 8116);
   (8118, 8124); (8126, 8126); (8130, 8132); (8134, 8140); (8144, 8147);
   (8150, 8155); (8160, 8172); (8178, 8180); (8182, 8188); (8304, 8305);
   (8308, 8313); (8319, 8329); (8336, 8348); (8450, 8450); (8455, 8455);
   (8458, 8467); (8469, 8469); (8473, 8477); (8484, 8484); (8486, 8486);
   (8488, 8488); (8490, 8493); (8495, 8505); (8508, 8511); (8517, 8521);
   (8526, 8526); (8528, 8585); (9312, 9371); (9450, 9471); (10102, 10131);
   (11264, 11492); (11499, 11502); (11506, 11507); (11517, 11517);
   (11520, 11557); (11559, 11559); (11565, 11565); (11568, 11623);
   (11631, 11631); (11648, 11670); (11680, 11686); (11688, 11694);
   (11696, 11702); (11704, 11710); (11712, 11718); (11720, 11726);
   (11728, 11734); (11736, 11742); (11823, 11823); (12293, 12295);
   (12321, 12329); (12337, 12341); (12344, 12348); (12353, 12438);
   (12445, 12447); (12449, 12538); (12540, 12543); (12549, 12591);
   (12593, 12686); (12690, 12693); (12704, 12735); (12784, 12799);
   (12832, 12841); (12872, 12879); (12881, 12895); (12928, 12937);
   (12977, 12991); (13312, 19903); (19968, 42124); (42192, 42237);
   (42240, 42508); (42512, 42539); (42560, 42606); (42623, 42653);
   (42656, 42735); (42775, 42783); (42786, 42888); (42891, 42954);
   (42960, 42961); (42963, 42963); (42965, 42969); (42994, 43009);
   (43011, 43013); (43015, 43018); (43020, 43042); (43056, 43061);
   (43072, 43123); (43138, 43187); (43216, 43225); (43250, 43255);
   (43259, 43259); (43261, 43262); (43264, 43301); (43312, 43334);
   (43360, 43388); (43396, 43442); (43471, 43481); (43488, 43492);
   (43494, 43518); (43520, 43560); (43584, 43586); (43588, 43595);
   (43600, 43609); (43616, 43638); (43642, 43642); (43646, 43695);
   (43697, 43697); (43701, 43702); (43705, 43709); (43712, 43712);
   (43714, 43714); (43739, 43741); (43744, 43754); (43762, 43764);
   (43777, 43782); (43785, 43790); (43793, 43798); (43808, 43814);
   (43816, 43822); (43824, 43866); (43868, 43881); (43888, 44002);
   (44016, 44025); (44032, 55203); (55216, 55238); (55243, 55291);
   (63744, 64109); (64112, 64217); (64256, 64262); (64275, 64279);
   (64285, 64285); (64287, 64296); (64298, 64310); (64312, 64316);
   (64318, 64318); (64320, 64321); (64323, 64324); (64326, 64433);
   (64467, 64829); (64848, 64911); (64914, 64967); (65008, 65019);
   (65136, 65140); (65142, 65276); (65296, 65305); (65313, 65338);
   (65345, 65370); (65382, 65470); (65474, 65479); (65482, 65487);
   (65490, 65495); (65498, 65500); (65536, 65547); (65549, 65574);
   (65576, 65594); (65596, 65597); (65599, 65613); (65616, 65629);
   (65664, 65786); (65799, 65843); (65856, 65912); (65930, 65931);
   (66176, 66204); (66208, 66256); (66273, 66299); (66304, 66339);
   (66349, 66378); (66384, 66421); (66432, 66461); (66464, 66499);
   (66504, 66511); (66513, 66517); (66560, 66717); (66720, 66729);
   (66736, 66771); (66776, 66811); (66816, 66855); (66864, 66915);
   (66928, 66938); (66940, 66954); (66956, 66962); (66964, 66965);
   (66967, 66977); (66979, 66993); (66995, 67001); (67003, 67004);
   (67072, 67382); (67392, 67413); (67424, 67431); (67456, 67461);
   (67463, 67504); (67506, 67514); (67584, 67589); (67592, 67592);
   (67594, 67637); (67639, 67640); (67644, 67644); (67647, 67669);
   (67672, 67702); (67705, 67742); (67751, 67759); (67808, 67826);
   (67828, 67829); (67835, 67867); (67872, 67897); (67968, 68023);
   (68028, 68047); (68050, 68096); (68112, 68115); (68117, 68119);
   (68121, 68149); (68160, 68168); (68192, 68222); (68224, 68255);
   (68288, 68295); (68297, 68324); (68331, 68335); (68352, 68405);
   (68416, 68437); (68440, 68466); (68472, 68497); (68521, 68527);
   (68608, 68680); (68736, 68786); (68800, 68850); (68858, 68899);
   (68912, 68921); (69216, 69246); (69248, 69289); (69296, 69297);
   (69376, 69415); (69424, 69445); (69457, 69460); (69488, 69505);
   (69552, 69579); (69600, 69622); (69635, 69687); (69714, 69743);
   (69745, 69746); (69749, 69749); (69763, 69807); (69840, 69864);
   (69872, 69881); (69891, 69926); (69942, 69951); (69956, 69956);
   (69959, 69959); (69968, 70002); (70006, 70006); (70019, 70066);
   (70081, 70084); (70096, 70106); (70108, 70108); (70113, 70132);
   (70144, 70161); (70163, 70187); (70272, 70278); (70280, 70280);
   (70282, 70285); (70287, 70301); (70303, 70312); (70320, 70366);
   (70384, 70393); (70405, 70412); (70415, 70416); (70419, 70440);
   (70442, 70448); (70450, 70451); (70453, 70457); (70461, 70461);
   (70480, 70480); (70493, 70497); (70656, 70708); (70727, 70730);
   (70736, 70745); (70751, 70753); (70784, 70831); (70852, 70853);
   (70855, 70855); (70864, 70873); (71040, 71086); (71128, 71131);
   (71168, 71215); (71236, 71236); (71248, 71257); (71296, 71338);
   (71352, 71352); (71360, 71369); (71424, 71450); (71472, 71483);
   (71488, 71494); (71680, 71723); (71840, 71922); (71935, 71942);
   (71945, 71945); (71948, 71955); (71957, 71958); (71960, 71983);
   (71999, 71999); (72001, 72001); (72016, 72025); (72096, 72103);
   (72106, 72144); (72161, 72161); (72163, 72163); (72192, 72192);
   (72203, 72242); (72250, 72250); (72272, 72272); (72284, 72329);
   (72349, 72349); (72368, 72440); (72704, 72712); (72714, 72750);
   (72768, 72768); (72784, 72812); (72818, 72847); (72960, 72966);
   (72968, 72969); (72971, 73008); (73030, 73030); (73040, 73049);
   (73056, 73061); (73063, 73064); (73066, 73097); (73112, 73112);
   (73120, 73129); (73440, 73458); (73648, 73648); (73664, 73684);
   (73728, 74649); (74752, 74862); (74880, 75075); (77712, 77808);
   (77824, 78894); (82944, 83526); (92160, 92728); (92736, 92766);
   (92768, 92777); (92784, 92862); (92864, 92873); (92880, 92909);
   (92928, 92975); (92992, 92995); (93008, 93017); (93019, 93025);
   (93027, 93047); (93053, 93071); (93760, 93846); (93952, 94026);
   (94032, 94032); (94099, 94111); (94176, 94177); (94179, 94179);
   (94208, 100343); (100352, 101589); (101632, 101640); (110576, 110579);
   (110581, 110587); (110589, 110590); (110592, 110882); (110928, 110930);
   (110948, 110951); (110960, 111355); (113664, 113770); (113776, 113788);
   (113792, 113800); (113808, 113817); (119520, 119539); (119648, 119672);
   (119808, 119892); (119894, 119964); (119966, 119967); (119970, 119970);
   (119973, 119974); (119977, 119980); (119982, 119993); (119995, 119995);
   (119997, 120003); (120005, 120069); (120071, 120074); (120077, 120084);
   (120086, 120092); (120094, 120121); (120123, 120126); (120128, 120132);
   (120134, 120134); (120138, 120144); (120146, 120485); (120488, 120512);
   (120514, 120538); (120540, 120570); (120572, 120596); (120598, 120628);
   (120630, 120654); (120656, 120686); (120688, 120712); (120714, 120744);
   (120746, 120770); (120772, 120779); (120782, 120831); (122624, 122654);
   (123136, 123180); (123191, 123197); (123200, 123209); (123214, 123214);
   (123536, 123565); (123584, 123627); (123632, 123641); (124896, 124902);
   (124904, 124907); (124909, 124910); (124912, 124926); (124928, 125124);
   (125127, 125135); (125184, 125251); (125259, 125259); (125264, 125273);
   (126065, 126123); (126125, 126127); (126129, 126132); (126209, 126253);
   (126255, 126269); (126464, 126467); (126469, 126495); (126497, 126498);
   (126500, 126500); (126503, 126503); (126505, 126514); (126516, 126519);
   (126521, 126521); (126523, 126523); (126530, 126530); (126535, 126535);
   (126537, 126537); (126539, 126539); (126541, 126543); (126545, 126546);
   (126548, 126548); (126551, 126551); (126553, 126553); (126555, 126555);
   (126557, 126557); (126559, 126559); (126561, 126562); (126564, 126564);
   (126567, 126570); (126572, 126578); (126580, 126583); (126585, 126588);
   (126590, 126590); (126592, 126601); (126603, 126619); (126625, 126627);
   (126629, 126633); (126635, 126651); (127232, 127244); (130032, 130041);
   (131072, 173791); (173824, 177976); (177984, 178205); (178208, 183969);
   (183984, 191456); (194560, 195101); (196608, 201546)
  ])%N.

(** [\w] *)
Definition is_word (c : N) : bool :=
  existsb (fun r : N * N => in_range r.1 r.2 c) word_ranges.

(** The code points that have a lower-case mapping other than
    themselves, as runs: first and last code point of the run, distance
    between two of its code points, and image of the first; the image of
    a later one lies as far from it as the code point from the first. *)
Definition lower_runs : list (N * N * N * N) :=
  ([
   (65, 90, 1, 97); (192, 214, 1, 224); (216, 222, 1, 248);
   (256, 302, 2, 257); (304, 304, 1, 105); (306, 310, 2, 307);
   (313, 327, 2, 314); (330, 374, 2, 331); (376, 376, 1, 255);
   (377, 381, 2, 378); (385, 385, 1, 595); (386, 388, 2, 387);
   (390, 390, 1, 596); (391, 391, 1, 392); (393, 394, 1, 598);
   (395, 395, 1, 396); (398, 398, 1, 477); (399, 399, 1, 601);
   (400, 400, 1, 603); (401, 401, 1, 402); (403, 403, 1, 608);
   (404, 404, 1, 611); (406, 406, 1, 617); (407, 407, 1, 616);
   (408, 408, 1, 409); (412, 412, 1, 623); (413, 413, 1, 626);
   (415, 415, 1, 629); (416, 420, 2, 417); (422, 422, 1, 640);
   (423, 423, 1, 424); (425, 425, 1, 643); (428, 428, 1, 429);
   (430, 430, 1, 648); (431, 431, 1, 432); (433, 434, 1, 650);
   (435, 437, 2, 436); (439, 439, 1, 658); (440, 440, 1, 441);
   (444, 444, 1, 445); (452, 452, 1, 454); (453, 453, 1, 454);
   (455, 455, 1, 457); (456, 456, 1, 457); (458, 458, 1, 460);
   (459, 475, 2, 460); (478, 494, 2, 479); (497, 497, 1, 499);
   (498, 500, 2, 499); (502, 502, 1, 405); (503, 503, 1, 447);
   (504, 542, 2, 505); (544, 544, 1, 414); (546, 562, 2, 547);
   (570, 570, 1, 11365); (571, 571, 1, 572); (573, 573, 1, 410);
   (574, 574, 1, 11366); (577, 577, 1, 578); (579, 579, 1, 384);
   (580, 580, 1, 649); (581, 581, 1, 652); (582, 590, 2, 583);
   (880, 882, 2, 881); (886, 886, 1, 887); (895, 895, 1, 1011);
   (902, 902, 1, 940); (904, 906, 1, 941); (908, 908, 1, 972);
   (910, 911, 1, 973); (913, 929, 1, 945); (931, 939, 1, 963);
   (975, 975, 1, 983); (984, 1006, 2, 985); (1012, 1012, 1, 952);
   (1015, 1015, 1, 1016); (1017, 1017, 1, 1010); (1018, 1018, 1, 1019);
   (1021, 1023, 1, 891); (1024, 1039, 1, 1104); (1040, 1071, 1, 1072);
   (1120, 1152, 2, 1121); (1162, 1214, 2, 1163); (1216, 1216, 1, 1231);
   (1217, 1229, 2, 1218); (1232, 1326, 2, 1233); (1329, 1366, 1, 1377);
   (4256, 4293, 1, 11520); (4295, 4295, 1, 11559); (4301, 4301, 1, 11565);
   (5024, 5103, 1, 43888); (5104, 5109, 1, 5112); (7312, 7354, 1, 4304);
   (7357, 7359, 1, 4349); (7680, 7828, 2, 7681); (7838, 7838, 1, 223);
   (7840, 7934, 2, 7841); (7944, 7951, 1, 7936); (7960, 7965, 1, 7952);
   (7976, 7983, 1, 7968); (7992, 7999, 1, 7984); (8008, 8013, 1, 8000);
   (8025, 8031, 2, 8017); (8040, 8047, 1, 8032); (8072, 8079, 1, 8064);
   (8088, 8095, 1, 8080); (8104, 8111, 1, 8096); (8120, 8121, 1, 8112);
   (8122, 8123, 1, 8048); (8124, 8124, 1, 8115); (8136, 8139, 1, 8050);
   (8140, 8140, 1, 8131); (8152, 8153, 1, 8144); (8154, 8155, 1, 8054);
   (8168, 8169, 1, 8160); (8170, 8171, 1, 8058); (8172, 8172, 1, 8165);
   (8184, 8185, 1, 8056); (8186, 8187, 1, 8060); (8188, 8188, 1, 8179);
   (8486, 8486, 1, 969); (8490, 8490, 1, 107); (8491, 8491, 1, 229);
   (8498, 8498, 1, 8526); (8544, 8559, 1, 8560); (8579, 8579, 1, 8580);
   (9398, 9423, 1, 9424); (11264, 11311, 1, 11312);
   (11360, 11360, 1, 11361); (11362, 11362, 1, 619);
   (11363, 11363, 1, 7549); (11364, 11364, 1, 637);
   (11367, 11371, 2, 11368); (11373, 11373, 1, 593);
   (11374, 11374, 1, 625); (11375, 11375, 1, 592); (11376, 11376, 1, 594);
   (11378, 11378, 1, 11379); (11381, 11381, 1, 11382);
   (11390, 11391, 1, 575); (11392, 11490, 2, 11393);
   (11499, 11501, 2, 11500); (11506, 11506, 1, 11507);
   (42560, 42604, 2, 42561); (42624, 42650, 2, 42625);
   (42786, 42798, 2, 42787); (42802, 42862, 2, 42803);
   (42873, 42875, 2, 42874); (42877, 42877, 1, 7545);
   (42878, 42886, 2, 42879); (42891, 42891, 1, 42892);
   (42893, 42893, 1, 613); (42896, 42898, 2, 42897);
   (42902, 42920, 2, 42903); (42922, 42922, 1, 614);
   (42923, 42923, 1, 604); (42924, 42924, 1, 609); (42925, 42925, 1, 620);
   (42926, 42926, 1, 618); (42928, 42928, 1, 670); (42929, 42929, 1, 647);
   (42930, 42930, 1, 669); (42931, 42931, 1, 43859);
   (42932, 42946, 2, 42933); (42948, 42948, 1, 42900);
   (42949, 42949, 1, 642); (42950, 42950, 1, 7566);
   (42951, 42953, 2, 42952); (42960, 42960, 1, 42961);
   (42966, 42968, 2, 42967); (42997, 42997, 1, 42998);
   (65313, 65338, 1, 65345); (66560, 66599, 1, 66600);
   (66736, 66771, 1, 66776); (66928, 66938, 1, 66967);
   (66940, 66954, 1, 66979); (66956, 66962, 1, 66995);
   (66964, 66965, 1, 67003); (68736, 68786, 1, 68800);
   (71840, 71871, 1, 71872); (93760, 93791, 1, 93792);
   (125184, 125217, 1, 125218)
  ])%N.

Definition in_run (c : N) (r : N * N * N * N) : bool :=
  let '(first, last, step, _) := r in
  in_range first last c && ((c - first) mod step =? 0)%N.

(** Lower-case mapping, as used for matching under [re.I]. *)
Definition unicode_tolower (c : N) : N :=
  match find (in_run c) lower_runs with
  | Some (first, _, _, image) => (image + (c - first))%N
  | None => c
  end.

(** Lower-case code points that share their upper case with others
    ([_EXTRA_CASES] of the [re] module). *)
Definition extra_cases : list (N * list N) :=
  ([
   (105, [305]); (115, [383]); (181, [956]); (305, [105]); (383, [115]);
   (837, [953; 8126]); (912, [8147]); (944, [8163]); (946, [976]);
   (949, [1013]); (952, [977]); (953, [837; 8126]); (954, [1008]);
   (956, [181]); (960, [982]); (961, [1009]); (962, [963]); (963, [962]);
   (966, [981]); (976, [946]); (977, [952]); (981, [966]); (982, [960]);
   (1008, [954]); (1009, [961]); (1013, [949]); (1074, [7296]);
   (1076, [7297]); (1086, [7298]); (1089, [7299]); (1090, [7300; 7301]);
   (1098, [7302]); (1123, [7303]); (7296, [1074]); (7297, [1076]);
   (7298, [1086]); (7299, [1089]); (7300, [1090; 7301]);
   (7301, [1090; 7300]); (7302, [1098]); (7303, [1123]); (7304, [42571]);
   (7777, [7835]); (7835, [7777]); (8126, [837; 953]); (8147, [912]);
   (8163, [944]); (42571, [7304]); (64261, [64262]); (64262, [64261])
  ])%N.

Definition fixes (lo : N) : list N :=
  match find (fun e : N * list N => (e.1 =? lo)%N) extra_cases with
  | Some e => e.2
  | None => []
  end.

(** A cased letter [p] of the pattern against the subject character [c]
    under [re.I]: the lower case of [c] is the lower case of [p] or one
    of its extra cases. *)
Definition match_letter (p c : N) : bool :=
  let lo := unicode_tolower p in
  let k := unicode_tolower c in
  (k =? lo)%N || existsb (N.eqb k) (fixes lo).

Definition is_word_opt (o : option N) : bool :=
  match o with Some c => is_word c | None => false end.

(** [\b] between a preceding character [prev] and a following character
    [next]; outside the subject counts as a non-word character. *)
Definition at_boundary (prev next : option N) : bool :=
  xorb (is_word_opt prev) (is_word_opt next).

Definition first_char (s : str) : option N :=
  match s with c :: _ => Some c | [] => None end.

(** A literal under [re.I].  Returns the last character consumed and the
    rest of the subject. *)
Fixpoint match_literal (word s : str) (prev : option N) : option (option N * str) :=
  match word with
  | [] => Some (prev, s)
  | p :: word' =>
      match s with
      | c :: s' => if match_letter p c then match_literal word' s' (Some c) else None
      | [] => None
      end
  end.

(** One alternative of the group followed by the closing [\b]. *)
Definition match_alternative (word : str) (prev : option N) (s : str) : bool :=
  match match_literal word s prev with
  | Some (last, rest) => at_boundary last (first_char rest)
  | None => false
  end.

(** The whole pattern anchored at the current position. *)
Definition match_here (prev : option N) (s : str) : bool :=
  at_boundary prev (first_char s)
  && (match_alternative (lit "exit") prev s || match_alternative (lit "quit") prev s).

(** [re.search]: try every start position from left to right. *)
Fixpoint search_from (prev : option N) (s : str) : bool :=
  match_here prev s
  || match s with
     | [] => false
     | c :: s' => search_from (Some c) s'
     end.

Definition exit_command (transcript : str) : bool := search_from None transcript.

(** Following the specification's words: a case-insensitive whole-word
    match of a literal (lower-case) word.  [same_letter c p]: [c] is the
    letter [p] up to case, that is [p], its capital or, for the letter
    i, one of the two further letters that Unicode pairs with it by
    case: the capital with a dot (U+0130) and the small one without
    (U+0131).  [spelled w s]: [s] is [w] up to the case of each letter;
    [whole_word w t]: [t] contains such an [s] with no word character
    next to it on either side. *)
Definition upper_case (p : N) : N := (p - 32)%N.

Definition same_letter (c p : N) : Prop :=
  c = p \/ c = upper_case p \/ (p = 105 /\ (c = 304 \/ c = 305))%N.

Fixpoint spelled (w s : str) : Prop :=
  match w, s with
  | [], [] => True
  | p :: w', c :: s' => same_letter c p /\ spelled w' s'
  | _, _ => False
  end.

(** The last character of [s], or [prev] when [s] is empty. *)
Fixpoint last_or (prev : option N) (s : str) : option N :=
  match s with
  | [] => prev
  | c :: s' => last_or (Some c) s'
  end.

Definition last_char (s : str) : option N := last_or None s.

Definition whole_word (w t : str) : Prop :=
  exists pre mid post,
    t = pre ++ mid ++ post /\ spelled w mid
    /\ is_word_opt (last_char pre) = false
    /\ is_word_opt (first_char post) = false.

Definition says_exit_or_quit (t : str) : Prop :=
  whole_word (lit "exit") t \/ whole_word (lit "quit") t.

(** The letters of the two words. *)
Definition letter (p : N) : Prop := In p (lit "exitqu").

Definition letters (w : str) : Prop := Forall letter w.

(** The code points that the lower-case mapping can send to [y], [y]
    itself apart: one candidate for each run. *)
Definition preimages (y : N) : list N :=
  flat_map (fun r : N * N * N * N =>
              let '(first, _, _, image) := r in
              if (image <=? y)%N then [(first + (y - image))%N] else [])
           lower_runs.

(** The code points whose lower case is [y]. *)
Definition lowered_to (y : N) : list N :=
  List.filter (fun c => (unicode_tolower c =? y)%N) (y :: preimages y).

(** [str.lower] on the code points 0 to 255, where every lower-case
    mapping is a single character. *)
Definition lower (s : str) : str := map unicode_tolower s.

Definition latin1 (s : str) : Prop := Forall (fun c => (c < 256)%N) s.

End ExitCommand.

#[global] Arguments ExitCommand.is_word : simpl never.
#[global] Arguments ExitCommand.unicode_tolower : simpl never.

(** ** The microphone stream and its chunk generator

    [MicrophoneStream]: a FIFO buffer of audio chunks, filled by the
    capture callback and drained by [generator].  [None] in the buffer is
    the end-of-stream marker pushed by [__exit__]. *)
Module Mic.

Definition chunk := list Byte.byte.

Definition RATE : Z := 16000.
Definition CHUNK : Z := RATE / 10.

Record MicrophoneStream := mkMic {
  rate : Z;
  chunk_size : Z;
  buff : list (option chunk);     (* queue.Queue: head is the next item out *)
  closed : bool;
  audio_stream_open : bool        (* the PyAudio input stream is capturing *)
}.

Definition __init__ (r c : Z) : MicrophoneStream :=
  {| rate := r; chunk_size := c; buff := []; closed := true;
     audio_stream_open := false |}.

Definition put (item : option chunk) (m : MicrophoneStream) : MicrophoneStream :=
  {| rate := rate m; chunk_size := chunk_size m; buff := buff m ++ [item];
     closed := closed m; audio_stream_open := audio_stream_open m |}.

Definition set_closed (b : bool) (m : MicrophoneStream) : MicrophoneStream :=
  {| rate := rate m; chunk_size := chunk_size m; buff := buff m;
     closed := b; audio_stream_open := audio_stream_open m |}.

Definition set_buff (q : list (option chunk)) (m : MicrophoneStream) : MicrophoneStream :=
  {| rate := rate m; chunk_size := chunk_size m; buff := q;
     closed := closed m; audio_stream_open := audio_stream_open m |}.

Definition set_audio_stream (b : bool) (m : MicrophoneStream) : MicrophoneStream :=
  {| rate := rate m; chunk_size := chunk_size m; buff := buff m;
     closed := closed m; audio_stream_open := b |}.

(** [__enter__]: opening the input device either raises (nothing of the
    stream object is changed) or starts capturing and clears [closed].
    With the import of [pyaudio] commented out, as it is at line 9, the
    name is unbound and the call always raises: [device_available] is
    then [false]. *)
Definition __enter__ (device_available : bool) (m : MicrophoneStream)
  : option MicrophoneStream :=
  if device_available then Some (set_closed false (set_audio_stream true m))
  else None.

(** [__exit__]: stop and close the device stream, set [closed], then push
    the end-of-stream marker. *)
Definition __exit__ (m : MicrophoneStream) : MicrophoneStream :=
  put None (set_closed true (set_audio_stream false m)).

(** [_fill_buffer]: the capture callback. *)
Definition _fill_buffer (in_data : chunk) (m : MicrophoneStream) : MicrophoneStream :=
  put (Some in_data) m.

(** Control points of [generator].  Each step performs at most one
    operation on the shared stream object, so that the capture callback
    and [__exit__] can be interleaved between any two of them. *)
Inductive gen_pc :=
| LoopHead                        (* about to test [while not self.closed] *)
| BlockingGet                     (* in [self._buff.get()] *)
| Drain (data : list chunk)       (* in the inner loop, [data] collected *)
| Returned.                       (* the generator is exhausted *)

(** One step: the new stream, the new control point and the batch
    yielded by this step, if any. *)
Definition generator_step (m : MicrophoneStream) (pc : gen_pc)
  : MicrophoneStream * gen_pc * option chunk :=
  match pc with
  | LoopHead => if closed m then (m, Returned, None) else (m, BlockingGet, None)
  | BlockingGet =>
      match buff m with
      | [] => (m, BlockingGet, None)                       (* blocked *)
      | None :: q => (set_buff q m, Returned, None)
      | Some c :: q => (set_buff q m, Drain [c], None)
      end
  | Drain data =>
      match buff m with
      | [] => (m, LoopHead, Some (concat data))            (* queue.Empty: yield *)
      | None :: q => (set_buff q m, Returned, None)
      | Some c :: q => (set_buff q m, Drain (data ++ [c]), None)
      end
  | Returned => (m, Returned, None)
  end.

(** What can happen to a stream object while its generator is consumed. *)
Inductive event :=
| Push (item : option chunk)      (* [_fill_buffer], or the marker *)
| SetClosed                       (* [self.closed = True] *)
| Next.                           (* the consumer advances the generator *)

Record gen_state := mkGen {
  mic : MicrophoneStream;
  pc : gen_pc;
  yielded : list chunk            (* batches yielded so far, oldest first *)
}.

Definition step (ev : event) (g : gen_state) : gen_state :=
  match ev with
  | Push item => mkGen (put item (mic g)) (pc g) (yielded g)
  | SetClosed => mkGen (set_closed true (mic g)) (pc g) (yielded g)
  | Next =>
      let '(m, p, out) := generator_step (mic g) (pc g) in
      mkGen m p (yielded g ++ match out with Some b => [b] | None => [] end)
  end.

Definition run (evs : list event) (g : gen_state) : gen_state :=
  fold_left (fun g ev => step ev g) evs g.

(** A stream that is open and whose buffer holds [q]. *)
Definition capturing (q : list (option chunk)) : MicrophoneStream :=
  set_buff q (set_closed false (set_audio_stream true (__init__ RATE CHUNK))).

Definition start_of (m : MicrophoneStream) : gen_state := mkGen m LoopHead [].

(** The items pushed by a sequence of events, and the audio they carry. *)
Definition pushed (evs : list event) : list (option chunk) :=
  flat_map (fun ev => match ev with Push i => [i] | _ => [] end) evs.

Definition audio (q : list (option chunk)) : list Byte.byte :=
  concat (flat_map (fun i => match i with Some c => [c] | None => [] end) q).

(** What the generator holds of the items [taken] from the buffer: up to
    its return, the yielded batches and the batch being collected are
    exactly their audio; a return can only lose the batch in hand. *)
Definition accounts (taken : list (option chunk)) (g : gen_state) : Prop :=
  match pc g with
  | LoopHead | BlockingGet => concat (yielded g) = audio taken
  | Drain data => concat (yielded g) ++ concat data = audio taken
  | Returned => concat (yielded g) `prefix_of` audio taken
  end.

(** The chunks among the items of a buffer, the batch the generator has
    in hand, and the count that bounds the batches yielded: a batch is
    opened by a chunk taken from the buffer. *)
Definition chunks (q : list (option chunk)) : list chunk :=
  flat_map (fun i => match i with Some c => [c] | None => [] end) q.

Definition in_hand (g : gen_state) : list chunk :=
  match pc g with Drain data => data | _ => [] end.

Definition tally (taken : list (option chunk)) (g : gen_state) : Prop :=
  match pc g with
  | Drain _ => S (length (yielded g)) <= length (chunks taken)
  | _ => length (yielded g) <= length (chunks taken)
  end.

End Mic.

(** ** Responses of the recognition service and the routing of one response *)
Module Asr.

Record Alternative := mkAlt { transcript : Str.str }.

Record Result := mkResult {
  alternatives : list Alternative;
  is_final : bool
}.

Record Response := mkResponse { results : list Result }.

(** What the service's response iterator has to offer next. *)
Inductive stream_status :=
| StreamOpen                      (* more may come: the reader blocks *)
| StreamClosed                    (* the service ended the stream *)
| StreamFailed.                   (* the stream broke: the reader raises *)

(** A response carrying one result with one alternative. *)
Definition interim (t : Str.str) : Response :=
  mkResponse [mkResult [mkAlt t] false].

Definition final (t : Str.str) : Response :=
  mkResponse [mkResult [mkAlt t] true].

End Asr.

Module Router.
Import Asr.

(** The body of the receive loop after the cancellation test (lines
    114-129): the pair put on the result queue, if any, and whether the
    loop is left by [break]. *)
Definition route (response : Response) : option (Str.str * bool) * bool :=
  match results response with
  | [] => (None, false)                                   (* continue *)
  | result :: _ =>
      match alternatives result with
      | [] => (None, false)                               (* continue *)
      | alt :: _ =>
          let transcript := transcript alt in
          let is_final := is_final result in
          (Some (transcript, is_final),
           is_final && ExitCommand.exit_command transcript)
      end
  end.

Definition forwarded (response : Response) : option (Str.str * bool) := fst (route response).
Definition breaks (response : Response) : bool := snd (route response).

(** The responses the loop gets to route when nothing cancels it: all of
    them up to and including the first that makes it [break]. *)
Fixpoint handled (responses : list Response) : list Response :=
  match responses with
  | [] => []
  | r :: rest => r :: (if breaks r then [] else handled rest)
  end.

(** The first result of a response has at least one alternative. *)
Definition has_alternative (response : Response) : bool :=
  match results response with
  | result :: _ => match alternatives result with _ :: _ => true | [] => false end
  | [] => false
  end.

End Router.

(** ** Shared objects

    The [threading.Event] and the result [queue.Queue] are objects held
    by reference: the session state and every worker started with them
    point to the same cell of the heap. *)
Module Heap.

Record Heap := mkHeap {
  events : gmap nat bool;                       (* threading.Event: its flag *)
  queues : gmap nat (list (Str.str * bool));    (* queue.Queue: head is next out *)
  next_loc : nat                                (* next unused reference *)
}.

Definition empty : Heap := mkHeap ∅ ∅ 0.

(** [threading.Event()] *)
Definition new_event (h : Heap) : nat * Heap :=
  (next_loc h, mkHeap (<[next_loc h := false]> (events h)) (queues h) (S (next_loc h))).

(** [queue.Queue()] *)
Definition new_queue (h : Heap) : nat * Heap :=
  (next_loc h, mkHeap (events h) (<[next_loc h := []]> (queues h)) (S (next_loc h))).

Definition is_set (e : nat) (h : Heap) : bool := default false (events h !! e).

Definition write_event (e : nat) (b : bool) (h : Heap) : Heap :=
  mkHeap (<[e := b]> (events h)) (queues h) (next_loc h).

Definition set (e : nat) (h : Heap) : Heap := write_event e true h.
Definition clear (e : nat) (h : Heap) : Heap := write_event e false h.

Definition contents (q : nat) (h : Heap) : list (Str.str * bool) :=
  default [] (queues h !! q).

Definition write_queue (q : nat) (l : list (Str.str * bool)) (h : Heap) : Heap :=
  mkHeap (events h) (<[q := l]> (queues h)) (next_loc h).

Definition put (q : nat) (x : Str.str * bool) (h : Heap) : Heap :=
  write_queue q (contents q h ++ [x]) h.

End Heap.

(** ** The worker thread: [listen_and_transcribe] *)
Module Worker.
Import Asr.

Inductive exn :=
| DeviceUnavailable               (* opening the input device raised *)
| TranscriptionServiceError.      (* the client or its stream raised *)

Inductive exit_reason :=
| StreamEnded                     (* the response iterator was exhausted *)
| Cancelled                       (* [stop_event.is_set()] at line 111 *)
| ExitCommandHeard.               (* [break] at line 129 *)

Inductive worker_pc :=
| Init                            (* thread started, before line 88 *)
| AwaitResponse                   (* line 110, in [next(responses)] *)
| CheckStop (r : Response)        (* line 111 *)
| Route (r : Response)            (* lines 114-129 *)
| Finished (why : exit_reason)    (* the function returned *)
| Raised (e : exn).               (* the thread died of an exception *)

(** What the thread finds when it starts. *)
Record Env := mkEnv {
  device_available : bool;
  service_available : bool
}.

Record Worker := mkWorker {
  stop_event : nat;               (* argument: reference to the Event *)
  result_queue : nat;             (* argument: reference to the result queue *)
  language_code : string;         (* argument *)
  pc : worker_pc;
  stream : option Mic.MicrophoneStream;   (* the object of the [with] block *)
  requests : Mic.gen_pc;          (* [audio_generator], consumed by the client *)
  sent : list Mic.chunk;          (* batches handed to the service *)
  inbound : list Response;        (* responses received, not yet iterated *)
  service : stream_status
}.

Definition spawn (ev q : nat) (lang : string) : Worker :=
  mkWorker ev q lang Init None Mic.LoopHead [] [] StreamOpen.

Definition set_pc (p : worker_pc) (w : Worker) : Worker :=
  mkWorker (stop_event w) (result_queue w) (language_code w) p (stream w)
           (requests w) (sent w) (inbound w) (service w).

Definition set_stream (m : option Mic.MicrophoneStream) (w : Worker) : Worker :=
  mkWorker (stop_event w) (result_queue w) (language_code w) (pc w) m
           (requests w) (sent w) (inbound w) (service w).

Definition set_requests (g : Mic.gen_pc) (out : list Mic.chunk) (w : Worker) : Worker :=
  mkWorker (stop_event w) (result_queue w) (language_code w) (pc w) (stream w)
           g out (inbound w) (service w).

Definition set_inbound (l : list Response) (w : Worker) : Worker :=
  mkWorker (stop_event w) (result_queue w) (language_code w) (pc w) (stream w)
           (requests w) (sent w) l (service w).

Definition set_service (s : stream_status) (w : Worker) : Worker :=
  mkWorker (stop_event w) (result_queue w) (language_code w) (pc w) (stream w)
           (requests w) (sent w) (inbound w) s.

(** Leaving the [with] block, by [break], exhaustion or an exception:
    [__exit__] runs and the thread ends in [p]. *)
Definition leave_with (p : worker_pc) (w : Worker) : Worker :=
  set_pc p (set_stream (Mic.__exit__ <$> stream w) w).

(** One atomic step of the thread. *)
Definition step (env : Env) (h : Heap.Heap) (w : Worker) : Heap.Heap * Worker :=
  match pc w with
  | Init =>
      if service_available env then
        match Mic.__enter__ (device_available env) (Mic.__init__ Mic.RATE Mic.CHUNK) with
        | Some m => (h, set_pc AwaitResponse (set_stream (Some m) w))
        | None => (h, set_pc (Raised DeviceUnavailable) w)
        end
      else (h, set_pc (Raised TranscriptionServiceError) w)
  | AwaitResponse =>
      match inbound w with
      | r :: rest => (h, set_pc (CheckStop r) (set_inbound rest w))
      | [] =>
          match service w with
          | StreamOpen => (h, w)                                   (* blocked *)
          | StreamClosed => (h, leave_with (Finished StreamEnded) w)
          | StreamFailed => (h, leave_with (Raised TranscriptionServiceError) w)
          end
      end
  | CheckStop r =>
      if Heap.is_set (stop_event w) h
      then (h, leave_with (Finished Cancelled) w)
      else (h, set_pc (Route r) w)
  | Route r =>
      let h' := match Router.forwarded r with
                | Some x => Heap.put (result_queue w) x h
                | None => h
                end in
      (h', if Router.breaks r then leave_with (Finished ExitCommandHeard) w
           else set_pc AwaitResponse w)
  | Finished _ | Raised _ => (h, w)
  end.

Definition running (w : Worker) : bool :=
  match pc w with Finished _ | Raised _ => false | _ => true end.

(** The number of results the thread is about to put on the queue
    without testing the cancellation flag again. *)
Definition pending (w : Worker) : nat :=
  match pc w with
  | Route r => match Router.forwarded r with Some _ => 1 | None => 0 end
  | _ => 0
  end.

(** An operation on a thread that leaves its control point alone. *)
Definition keeps_pc (f : Worker -> Worker) : Prop :=
  forall wk, pc (f wk) = pc wk.

(** An operation on a thread that leaves its arguments alone. *)
Definition same_args (f : Worker -> Worker) : Prop :=
  forall w, stop_event (f w) = stop_event w /\ result_queue (f w) = result_queue w.

(** [n] steps of the thread with nothing else happening in between. *)
Fixpoint steps (n : nat) (env : Env) (h : Heap.Heap) (w : Worker) : Heap.Heap * Worker :=
  match n with
  | O => (h, w)
  | S n => let '(h', w') := step env h w in steps n env h' w'
  end.

(** The response stream exists once line 107 has run. *)
Definition receiving (w : Worker) : bool :=
  match pc w, service w with
  | (AwaitResponse | CheckStop _ | Route _), StreamOpen => true
  | _, _ => false
  end.

(** The service delivers a response, ends the stream, or breaks it. *)
Definition deliver (r : Response) (w : Worker) : Worker :=
  if receiving w then set_inbound (inbound w ++ [r]) w else w.

Definition end_stream (w : Worker) : Worker :=
  if receiving w then set_service StreamClosed w else w.

Definition fail_stream (w : Worker) : Worker :=
  if receiving w then set_service StreamFailed w else w.

(** The device calls [_fill_buffer] while its stream is open. *)
Definition device_frame (data : Mic.chunk) (w : Worker) : Worker :=
  match stream w with
  | Some m =>
      if Mic.audio_stream_open m then set_stream (Some (Mic._fill_buffer data m)) w
      else w
  | None => w
  end.

(** The client advances [audio_generator] by one step to build a request. *)
Definition client_pull (w : Worker) : Worker :=
  match stream w with
  | Some m =>
      let '(m', g, out) := Mic.generator_step m (requests w) in
      set_requests g (sent w ++ match out with Some b => [b] | None => [] end)
                   (set_stream (Some m') w)
  | None => w
  end.

(** Blocked in [next(responses)] at line 110: nothing received that is
    not yet taken, the stream still open. *)
Definition waiting (w : Worker) : Prop :=
  pc w = AwaitResponse /\ inbound w = [] /\ service w = StreamOpen.

(** The capture stream as the control point of the thread requires it:
    none before the [with] block is entered or when entering it failed,
    open inside the block, closed once the block has been left. *)
Definition released (m : Mic.MicrophoneStream) : Prop :=
  Mic.closed m = true /\ Mic.audio_stream_open m = false.

Definition capturing (m : Mic.MicrophoneStream) : Prop :=
  Mic.closed m = false /\ Mic.audio_stream_open m = true.

Definition stream_ok (w : Worker) : Prop :=
  match pc w with
  | Init | Raised DeviceUnavailable => stream w = None
  | AwaitResponse | CheckStop _ | Route _ => exists m, stream w = Some m /\ capturing m
  | Finished _ => exists m, stream w = Some m /\ released m
  | Raised TranscriptionServiceError =>
      stream w = None \/ exists m, stream w = Some m /\ released m
  end.

End Worker.

(** ** The controlling script: [main]

    Streamlit re-runs [main] from the top on every interaction;
    [st.session_state] survives between the runs. *)
Module Controller.
Import Str.

(** [st.session_state]: a key is absent until it is first assigned. *)
Record SessionState := mkSessionState {
  ss_listening : option bool;
  ss_stop_event : option nat;
  ss_result_queue : option nat;
  ss_thread : option (option nat);
  ss_final_transcript : option str
}.

Definition fresh_session_state : SessionState :=
  mkSessionState None None None None None.

(** The session state once lines 162-169 have run: the four keys exist. *)
Record Session := mkSession {
  listening : bool;
  stop_event : nat;                 (* reference to the Event *)
  result_queue : nat;               (* reference to the result queue *)
  thread : option nat;              (* the Thread object, by thread id *)
  final_transcript : option str
}.

Definition store (s : Session) : SessionState :=
  mkSessionState (Some (listening s)) (Some (stop_event s)) (Some (result_queue s))
                 (Some (thread s)) (final_transcript s).

Definition set_listening (b : bool) (s : Session) : Session :=
  mkSession b (stop_event s) (result_queue s) (thread s) (final_transcript s).

Definition set_thread (t : option nat) (s : Session) : Session :=
  mkSession (listening s) (stop_event s) (result_queue s) t (final_transcript s).

Definition set_final_transcript (t : str) (s : Session) : Session :=
  mkSession (listening s) (stop_event s) (result_queue s) (thread s) (Some t).

(** Lines 162-169: each key is created only if it is not there yet. *)
Definition state_management (h : Heap.Heap) (ss : SessionState) : Heap.Heap * Session :=
  let listening := default false (ss_listening ss) in
  let '(ev, h) := match ss_stop_event ss with
                  | Some e => (e, h)
                  | None => Heap.new_event h
                  end in
  let '(q, h) := match ss_result_queue ss with
                 | Some q => (q, h)
                 | None => Heap.new_queue h
                 end in
  let thread := default None (ss_thread ss) in
  (h, mkSession listening ev q thread (ss_final_transcript ss)).

(** The language table of lines 137-145, in the order of the select box. *)
Definition languages : list (string * string) :=
  [("English (US)", "en-US"); ("English (UK)", "en-GB"); ("Spanish", "es-ES");
   ("French", "fr-FR"); ("German", "de-DE"); ("Japanese", "ja-JP");
   ("Mandarin Chinese", "zh")].

(** An exception raised inside the [try] block of lines 194-213.  The
    block calls, in this order: the indicator (lines 196-197); for each
    item on the queue its [get] (lines 200-201) and then its handling
    (lines 203-209); at last [time.sleep] and [st.rerun] (lines
    212-213).  [returned] is the number of these calls that return
    before one raises, [message] the text [str(e)] of the exception. *)
Record Fault := mkFault {
  returned : nat;
  message : str
}.

(** What one run of the script reads from the page, and what befalls it. *)
Record Inputs := mkInputs {
  selected_language : nat;          (* index of the option chosen in the select box *)
  text_area : str;                  (* content of the history text area *)
  start_button : bool;
  stop_button : bool;
  poll_fault : option Fault         (* a call inside the [try] of line 194 raises *)
}.

Definition faultless (inp : Inputs) : bool :=
  match poll_fault inp with None => true | Some _ => false end.

Definition language_of (inp : Inputs) : string :=
  snd (nth (selected_language inp) languages ("English (US)", "en-US")).

(** What a run does besides changing the session state and the heap. *)
Inductive effect :=
| ThreadStart (t : nat)
| ThreadJoin (t : nat) (timeout : Z)
| QueueGet (item : str * bool)
| UiSuccess (msg : string)
| UiInfo (msg : string)
| UiError (msg : str)
| UiListening
| UiInterim (transcript : str)
| UiClearInterim
| UiRerun.

(** Where the script stands between two events. *)
Inductive script_pc :=
| Ready                                         (* no run in progress *)
| InJoin (t : nat) (inp : Inputs).              (* blocked in [thread.join(timeout=1)] *)

Record World := mkWorld {
  env : Worker.Env;
  heap : Heap.Heap;
  session_state : SessionState;
  workers : gmap nat Worker.Worker;             (* every thread ever started *)
  next_tid : nat;
  script : script_pc;
  log : list effect                             (* oldest first *)
}.

Definition initial (e : Worker.Env) : World :=
  mkWorld e Heap.empty fresh_session_state ∅ 0 Ready [].

Definition set_heap (h : Heap.Heap) (w : World) : World :=
  mkWorld (env w) h (session_state w) (workers w) (next_tid w) (script w) (log w).

Definition set_session_state (ss : SessionState) (w : World) : World :=
  mkWorld (env w) (heap w) ss (workers w) (next_tid w) (script w) (log w).

Definition set_script (p : script_pc) (w : World) : World :=
  mkWorld (env w) (heap w) (session_state w) (workers w) (next_tid w) p (log w).

Definition set_env (e : Worker.Env) (w : World) : World :=
  mkWorld e (heap w) (session_state w) (workers w) (next_tid w) (script w) (log w).

Definition set_worker (t : nat) (wk : Worker.Worker) (w : World) : World :=
  mkWorld (env w) (heap w) (session_state w) (<[t := wk]> (workers w)) (next_tid w)
          (script w) (log w).

Definition emit (l : list effect) (w : World) : World :=
  mkWorld (env w) (heap w) (session_state w) (workers w) (next_tid w) (script w)
          (log w ++ l).

(** [threading.Thread(target=listen_and_transcribe, args=...)] and [start()]. *)
Definition thread_start (ev q : nat) (lang : string) (w : World) : nat * World :=
  let t := next_tid w in
  (t, mkWorld (env w) (heap w) (session_state w)
              (<[t := Worker.spawn ev q lang]> (workers w)) (S t) (script w)
              (log w ++ [ThreadStart t])).

(** Lines 172-181. *)
Definition handle_start (inp : Inputs) (w : World) (s : Session) : World * Session :=
  if start_button inp && negb (listening s) then
    let w := set_heap (Heap.clear (stop_event s) (heap w)) w in
    let s := set_listening true s in
    let '(t, w) := thread_start (stop_event s) (result_queue s) (language_of inp) w in
    let s := set_thread (Some t) s in
    (emit [UiSuccess "Listening started! Speak into your microphone."] w, s)
  else (w, s).

Definition JOIN_TIMEOUT : Z := 1.

(** Lines 184-188, up to and including the call of [join]: the thread
    waited for, if the script now blocks. *)
Definition handle_stop (inp : Inputs) (w : World) (s : Session)
  : World * Session * option nat :=
  if stop_button inp && listening s then
    let w := set_heap (Heap.set (stop_event s) (heap w)) w in
    let s := set_listening false s in
    match thread s with
    | Some t => (emit [ThreadJoin t JOIN_TIMEOUT] w, s, Some t)
    | None => (emit [UiInfo "Listening stopped."] w, s, None)
    end
  else (w, s, None).

(** Lines 189-190, when [join] has returned. *)
Definition after_join (w : World) (s : Session) : World * Session :=
  (emit [UiInfo "Listening stopped."] w, set_thread None s).

Definition newline : str := [10%N].

(** The loop of lines 200-209 over the items taken from the queue;
    [ft] is the local [final_transcript]. *)
Fixpoint consume (items : list (str * bool)) (ft : str) (s : Session)
  : Session * list effect :=
  match items with
  | [] => (s, [])
  | (transcript, is_final) :: rest =>
      if is_final then
        let ft := ft ++ transcript ++ newline in
        let '(s', l) := consume rest ft (set_final_transcript ft s) in
        (s', QueueGet (transcript, is_final) :: l)
      else
        let '(s', l) := consume rest ft s in
        (s', QueueGet (transcript, is_final) :: UiInterim transcript :: l)
  end.

(** The same loop cut short by an exception: [n] of its calls return,
    the [get] of an item and its handling counting one each, and the
    next one raises.  The session, the effects and the items left on the
    queue. *)
Fixpoint consume_until (n : nat) (items : list (str * bool)) (ft : str) (s : Session)
  {struct items} : Session * list effect * list (str * bool) :=
  match items with
  | [] => (s, [], [])
  | (transcript, is_final) :: rest =>
      match n with
      | 0 => (s, [], items)
      | 1 => (s, [QueueGet (transcript, is_final)], rest)
      | S (S n) =>
          if is_final then
            let ft := ft ++ transcript ++ newline in
            let '(s', l, kept) := consume_until n rest ft (set_final_transcript ft s) in
            (s', QueueGet (transcript, is_final) :: l, kept)
          else
            let '(s', l, kept) := consume_until n rest ft s in
            (s', QueueGet (transcript, is_final) :: UiInterim transcript :: l, kept)
      end
  end.

(** The [try] block of lines 194-213 when one of its calls raises. *)
Definition interrupted (f : Fault) (items : list (str * bool)) (ft : str) (s : Session)
  : Session * list effect * list (str * bool) :=
  match returned f with
  | 0 => (s, [], items)
  | S n =>
      let '(s', l, kept) := consume_until n items ft s in
      (s', UiListening :: l, kept)
  end.

(** Lines 193-217; the flag tells whether the run ended in [st.rerun()]. *)
Definition process_results (inp : Inputs) (w : World) (s : Session)
  : World * Session * bool :=
  if listening s then
    match poll_fault inp with
    | Some f =>
        let items := Heap.contents (result_queue s) (heap w) in
        let '(s, l, kept) := interrupted f items (text_area inp) s in
        let w := set_heap (Heap.write_queue (result_queue s) kept (heap w)) w in
        (emit (l ++ [UiError (lit "Error processing audio: " ++ message f)]) w,
         set_listening false s, false)
    | None =>
        let items := Heap.contents (result_queue s) (heap w) in
        let w := set_heap (Heap.write_queue (result_queue s) [] (heap w)) w in
        let '(s, l) := consume items (text_area inp) s in
        (emit (UiListening :: l ++ [UiRerun]) w, s, true)
    end
  else (w, s, false).

(** Lines 193-221.  What follows in the script only renders the saved
    transcript, the download button and the side bar. *)
Definition finish (inp : Inputs) (w : World) (s : Session) : World * Session :=
  let '(w, s, rerun) := process_results inp w s in
  if rerun then (w, s)
  else if listening s then (w, s)
  else (emit [UiClearInterim] w, s).

(** One run of the script, until it ends or blocks in [join]. *)
Definition main (inp : Inputs) (w : World) : World :=
  let '(h, s) := state_management (heap w) (session_state w) in
  let w := set_heap h w in
  let '(w, s) := handle_start inp w s in
  let '(w, s, waiting) := handle_stop inp w s in
  match waiting with
  | Some t => set_script (InJoin t inp) (set_session_state (store s) w)
  | None =>
      let '(w, s) := finish inp w s in
      set_session_state (store s) w
  end.

(** [join] returns, the thread having ended or the time-out having
    elapsed, and the run goes on to its end. *)
Definition join_returns (w : World) : World :=
  match script w with
  | InJoin _ inp =>
      let '(h, s) := state_management (heap w) (session_state w) in
      let '(w, s) := after_join (set_heap h w) s in
      let '(w, s) := finish inp w s in
      set_script Ready (set_session_state (store s) w)
  | Ready => w
  end.

Inductive event :=
| Rerun (inp : Inputs)                          (* the page is re-run *)
| JoinReturns
| WorkerStep (t : nat)
| Deliver (t : nat) (r : Asr.Response)
| StreamEnd (t : nat)
| StreamFail (t : nat)
| DeviceFrame (t : nat) (data : Mic.chunk)
| ClientPull (t : nat)
| Environment (e : Worker.Env).

Definition on_worker (t : nat) (f : Worker.Worker -> Worker.Worker) (w : World) : World :=
  match workers w !! t with
  | Some wk => set_worker t (f wk) w
  | None => w
  end.

Definition step (ev : event) (w : World) : World :=
  match ev with
  | Rerun inp => match script w with Ready => main inp w | InJoin _ _ => w end
  | JoinReturns => join_returns w
  | WorkerStep t =>
      match workers w !! t with
      | Some wk =>
          let '(h, wk') := Worker.step (env w) (heap w) wk in
          set_worker t wk' (set_heap h w)
      | None => w
      end
  | Deliver t r => on_worker t (Worker.deliver r) w
  | StreamEnd t => on_worker t Worker.end_stream w
  | StreamFail t => on_worker t Worker.fail_stream w
  | DeviceFrame t data => on_worker t (Worker.device_frame data) w
  | ClientPull t => on_worker t Worker.client_pull w
  | Environment e => set_env e w
  end.

Definition run (evs : list event) (w : World) : World :=
  fold_left (fun w ev => step ev w) evs w.

(** The session as the script will find it at its next run. *)
Definition session (w : World) : Session :=
  snd (state_management (heap w) (session_state w)).

(** The states of a session: listening; not listening while the script
    waits in [join] for the thread it has signalled; not listening
    otherwise. *)
Inductive phase := Idle | Listening | Stopping.

Definition phase_of (w : World) : phase :=
  if listening (session w) then Listening
  else match script w with InJoin _ _ => Stopping | Ready => Idle end.

(** Worlds that the program can be in. *)
Definition reachable (w : World) : Prop :=
  exists e evs, w = run evs (initial e).

(** Events of the threads and of their environment, as opposed to the
    steps of the script. *)
Definition background (ev : event) : bool :=
  match ev with Rerun _ | JoinReturns => false | _ => true end.

(** Events of thread [t] and of its environment only. *)
Definition concerns (t : nat) (ev : event) : bool :=
  match ev with
  | WorkerStep t' | Deliver t' _ | StreamEnd t' | StreamFail t'
  | DeviceFrame t' _ | ClientPull t' => Nat.eqb t t'
  | Environment _ => true
  | Rerun _ | JoinReturns => false
  end.

(** A run of the script in which the user asks for nothing and the
    polling does not fail. *)
Definition quiet (ev : event) : bool :=
  match ev with
  | Rerun inp => negb (start_button inp) && negb (stop_button inp) && faultless inp
  | JoinReturns => false
  | _ => true
  end.

(** Sessions opened by starting a thread and not yet closed by a stop
    request or by the failure handler of the polling, counted along the
    effects of the script. *)
Definition sessions_after (n : nat) (e : effect) : nat :=
  match e with
  | ThreadStart _ => S n
  | ThreadJoin _ _ | UiError _ => Nat.pred n
  | _ => n
  end.

Definition open_sessions (l : list effect) : nat := fold_left sessions_after l 0.

(** The items the polling loop has taken from the result queue. *)
Definition gets (l : list effect) : list (str * bool) :=
  flat_map (fun e => match e with QueueGet x => [x] | _ => [] end) l.

(** The error messages the page has shown. *)
Definition errors (l : list effect) : list str :=
  flat_map (fun e => match e with UiError msg => [msg] | _ => [] end) l.

(** What holds of every reachable world. *)
Record consistent (w : World) : Prop := mkConsistent {
  stored :
    session_state w = fresh_session_state \/ session_state w = store (session w);
  holds_thread :
    listening (session w) = true -> is_Some (thread (session w)) /\ script w = Ready;
  counted :
    open_sessions (log w) = if listening (session w) then 1 else 0;
  same_objects :
    forall t wk, workers w !! t = Some wk ->
      ss_stop_event (session_state w) = Some (Worker.stop_event wk)
      /\ ss_result_queue (session_state w) = Some (Worker.result_queue wk)
}.

(** The same, of a run of the script in progress, whose session state
    [s] is not yet stored. *)
Definition in_progress (w : World) (s : Session) : Prop :=
  (listening s = true -> is_Some (thread s))
  /\ open_sessions (log w) = (if listening s then 1 else 0)
  /\ forall t wk, workers w !! t = Some wk ->
       Worker.stop_event wk = stop_event s /\ Worker.result_queue wk = result_queue s.

(** The flag of a listening session is clear.  [s] is the session state
    of a run in progress, or the stored one. *)
Definition flag_clear (w : World) (s : Session) : Prop :=
  listening s = true -> Heap.is_set (stop_event s) (heap w) = false.

(** What an event concerning thread [t] can do once the flag of [t] is
    set. *)
Definition cancelled_progress (t : nat) (wk : Worker.Worker) (w w' : World) : Prop :=
  exists wk' l,
    workers w' !! t = Some wk'
    /\ Worker.stop_event wk' = Worker.stop_event wk
    /\ Worker.result_queue wk' = Worker.result_queue wk
    /\ Heap.is_set (Worker.stop_event wk) (heap w') = true
    /\ Heap.contents (Worker.result_queue wk) (heap w')
       = Heap.contents (Worker.result_queue wk) (heap w) ++ l
    /\ length l + Worker.pending wk' <= Worker.pending wk.

(** Scenarios: an environment in which the device and the service are
    there, one in which the device cannot be opened, and what the user
    may press. *)
Definition ready_env : Worker.Env := Worker.mkEnv true true.
Definition no_device_env : Worker.Env := Worker.mkEnv false true.

Definition press_start : Inputs := mkInputs 0 [] true false None.
Definition press_stop : Inputs := mkInputs 0 [] false true None.
Definition press_nothing : Inputs := mkInputs 0 [] false false None.

(** A session is started, its worker opens the device and the service
    delivers [responses]. *)
Definition started_with (responses : list Asr.Response) : list event :=
  [Rerun press_start; WorkerStep 0] ++ map (Deliver 0) responses.

(** A listening session whose worker waits for its first response. *)
Definition listening_session : World :=
  run (started_with []) (initial ready_env).

(** A listening session with one result on the queue, not yet polled. *)
Definition undrained_session : World :=
  run (started_with [Asr.interim (lit "hel")] ++ repeat (WorkerStep 0) 3) (initial ready_env).

(** A listening session whose worker is about to route a first
    response, a second one being received, when stop is pressed. *)
Definition stop_pressed_late : World :=
  run (started_with [Asr.interim (lit "one"); Asr.interim (lit "two")]
       ++ [WorkerStep 0; WorkerStep 0; Rerun press_stop])
      (initial ready_env).

Definition worker_of (t : nat) (w : World) : Worker.Worker :=
  default (Worker.spawn 0 0 "") (workers w !! t).

(** A thread that is about to route [r], with [rest] received. *)
Definition routing (r : Asr.Response) (rest : list Asr.Response) : Worker.Worker :=
  Worker.set_inbound rest (Worker.set_pc (Worker.Route r) (Worker.spawn 0 1 "en-US")).

(** A thread that waits for the next of the responses [rs]. *)
Definition awaiting (rs : list Asr.Response) : Worker.Worker :=
  Worker.set_inbound rs (Worker.set_pc Worker.AwaitResponse (Worker.spawn 0 1 "en-US")).

(** A session is started and, after a first response, the service
    breaks the stream; the worker runs until it has met the failure. *)
Definition broken_stream : list event :=
  started_with [Asr.interim (lit "hel")] ++ [StreamFail 0] ++ repeat (WorkerStep 0) 4.

(** A session that was started and then stopped, [join] having returned. *)
Definition stopped_session : World :=
  run (started_with [] ++ [Rerun press_stop; JoinReturns]) (initial ready_env).

(** A listening session whose worker is about to route the final result
    "please exit now". *)
Definition exit_heard : World :=
  run (started_with [Asr.final (lit "please exit now")] ++ [WorkerStep 0; WorkerStep 0])
      (initial ready_env).

(** Steps of thread [t], of its device and of its client, while the
    service sends it nothing. *)
Definition silent (t : nat) (ev : event) : bool :=
  match ev with
  | WorkerStep t' | DeviceFrame t' _ | ClientPull t' => Nat.eqb t t'
  | Environment _ => true
  | _ => false
  end.

(** Events that leave a flag that is set as it is: those of thread [t]
    and of its environment, and the steps of the script other than a
    run in which start is pressed. *)
Definition keeps_cancelled (t : nat) (ev : event) : bool :=
  match ev with
  | Rerun inp => negb (start_button inp)
  | JoinReturns => true
  | _ => concerns t ev
  end.

(** On a session that was stopped while its worker waited, start is
    pressed again; the service then delivers [responses] to that first
    worker, which takes all the steps they allow. *)
Definition restarted_with (responses : list Asr.Response) : list event :=
  [Rerun press_start] ++ map (Deliver 0) responses
  ++ repeat (WorkerStep 0) (3 * length responses + 1).

(** What the polling loop makes of the items it takes: the final
    transcripts, each ended by a newline, and the interim ones, shown
    one after the other. *)
Definition finals (items : list (str * bool)) : list str :=
  flat_map (fun x : str * bool => if snd x then [fst x] else []) items.

Definition interims (items : list (str * bool)) : list str :=
  flat_map (fun x : str * bool => if snd x then [] else [fst x]) items.

Fixpoint lines (l : list str) : str :=
  match l with
  | [] => []
  | t :: l' => t ++ newline ++ lines l'
  end.

Definition shown (l : list effect) : list str :=
  flat_map (fun e => match e with UiInterim t => [t] | _ => [] end) l.

(** Lines 223-234, reached by the runs that do not end in [st.rerun()]:
    the transcript offered for download, if any.  [is_space] is the
    white space of [str.strip()]. *)
Definition is_space (c : N) : bool :=
  ((9 <=? c) && (c <=? 13) || (28 <=? c) && (c <=? 32) || (c =? 133) || (c =? 160)
   || (c =? 5760) || (8192 <=? c) && (c <=? 8202) || (c =? 8232) || (c =? 8233)
   || (c =? 8239) || (c =? 8287) || (c =? 12288))%N.

Fixpoint blank (s : str) : bool :=
  match s with
  | [] => true
  | c :: s' => is_space c && blank s'
  end.

Definition download_data (inp : Inputs) (s : Session) : option str :=
  let final_transcript :=
    match final_transcript s with
    | Some saved => saved
    | None => text_area inp
    end in
  if blank final_transcript then None else Some final_transcript.

End Controller.

(** * Properties *)

(** ** The exit-command scan *)
Section ExitCommandFacts.
Import Str ExitCommand.

Lemma tolower_preimage (c y : N) :
  unicode_tolower c = y -> c = y \/ In c (preimages y).
Proof.
  unfold unicode_tolower.
  destruct (find (in_run c) lower_runs) as [[[[first last] step] image]|] eqn:Hf; [|auto].
  apply find_some in Hf as [Hin Hrun]. intros <-. right.
  unfold preimages. apply in_flat_map. exists (first, last, step, image).
  split; [exact Hin|]. cbn [in_run] in Hrun. unfold in_range in Hrun.
  apply andb_true_iff in Hrun as [Hr _]. apply andb_true_iff in Hr as [Hlo _].
  apply N.leb_le in Hlo.
  replace (image <=? image + (c - first))%N with true by (symmetry; apply N.leb_le; lia).
  left. lia.
Qed.

Lemma lowered_to_spec (c y : N) : unicode_tolower c = y <-> In c (lowered_to y).
Proof.
  unfold lowered_to. rewrite filter_In, N.eqb_eq. split; [|tauto].
  intros H. split; [|exact H].
  destruct (tolower_preimage c y H) as [->|Hin]; [left; reflexivity|right; exact Hin].
Qed.

Lemma match_letter_spec (p c lo : N) (fx ls : list N) :
  unicode_tolower p = lo -> fixes lo = fx ->
  flat_map lowered_to (lo :: fx) = ls ->
  match_letter p c = true <-> In c ls.
Proof.
  intros Hlo Hfx <-. unfold match_letter. rewrite Hlo, Hfx.
  rewrite orb_true_iff, N.eqb_eq, existsb_exists, in_flat_map. split.
  - intros [H|(k & Hk & H)].
    + exists lo. split; [left; reflexivity|]. apply lowered_to_spec, H.
    + apply N.eqb_eq in H. exists k. split; [right; exact Hk|].
      apply lowered_to_spec. exact H.
  - intros (k & [<-|Hk] & H); apply lowered_to_spec in H; [left; exact H|].
    right. exists k. split; [exact Hk|]. apply N.eqb_eq. exact H.
Qed.

Ltac letter_by_table ls :=
  match goal with
  | |- match_letter ?p ?c = true <-> _ =>
      rewrite (match_letter_spec p c (unicode_tolower p) (fixes (unicode_tolower p)) ls
                 eq_refl eq_refl) by (vm_compute; reflexivity)
  end.

Lemma letter_plain (p c : N) : letter p -> match_letter p c = true <-> same_letter c p.
Proof.
  unfold letter, same_letter, upper_case. intros Hp. vm_compute in Hp.
  destruct Hp as [<-|[<-|[<-|[<-|[<-|[<-|[]]]]]]].
  - letter_by_table [101; 69]%N. cbn [In]. intuition lia.
  - letter_by_table [120; 88]%N. cbn [In]. intuition lia.
  - letter_by_table [105; 73; 304; 305]%N. cbn [In]. intuition lia.
  - letter_by_table [116; 84]%N. cbn [In]. intuition lia.
  - letter_by_table [113; 81]%N. cbn [In]. intuition lia.
  - letter_by_table [117; 85]%N. cbn [In]. intuition lia.
Qed.

Lemma letter_word (p c : N) : letter p -> same_letter c p -> is_word c = true.
Proof.
  unfold letter, same_letter, upper_case. intros Hp. vm_compute in Hp.
  destruct Hp as [<-|[<-|[<-|[<-|[<-|[<-|[]]]]]]];
    intros [->|[->|[Hi [->| ->]]]]; try (vm_compute; reflexivity); discriminate Hi.
Qed.

Lemma search_from_spec (s : str) (prev : option N) :
  search_from prev s = true <->
  exists pre s', s = pre ++ s' /\ match_here (last_or prev pre) s' = true.
Proof.
  revert prev. induction s as [|c s IH]; intros prev; cbn [search_from].
  - rewrite orb_false_r. split.
    + intros H. exists [], []. split; [reflexivity|exact H].
    + intros (pre & s' & Heq & H). symmetry in Heq. apply app_eq_nil in Heq as [-> ->].
      exact H.
  - rewrite orb_true_iff, IH. split.
    + intros [H|(pre & s' & Heq & H)].
      * exists [], (c :: s). split; [reflexivity|exact H].
      * exists (c :: pre), s'. rewrite Heq. split; [reflexivity|exact H].
    + intros (pre & s' & Heq & H). destruct pre as [|x pre].
      * left. cbn [last_or app] in *. rewrite Heq. exact H.
      * right. cbn [app] in Heq. injection Heq as -> ->. exists pre, s'.
        split; [reflexivity|exact H].
Qed.

Lemma match_literal_spec (word : str) :
  letters word ->
  forall (s : str) (prev last : option N) (rest : str),
    match_literal word s prev = Some (last, rest) <->
    exists mid, s = mid ++ rest /\ spelled word mid /\ last = last_or prev mid.
Proof.
  unfold letters. induction word as [|p word IH]; intros Hl s prev last rest;
    cbn [match_literal].
  - split.
    + intros [= <- <-]. exists []. repeat split.
    + intros (mid & -> & Hsp & ->). destruct mid; [reflexivity|destruct Hsp].
  - apply Forall_cons in Hl as [Hp Hl]. specialize (IH Hl).
    pose proof (letter_plain p) as Hplain.
    destruct s as [|c s].
    + split; [discriminate|]. intros (mid & Heq & Hsp & _).
      destruct mid; [destruct Hsp|]. discriminate.
    + destruct (match_letter p c) eqn:Hc.
      * rewrite IH. apply (Hplain c Hp) in Hc. split.
        -- intros (mid & -> & Hsp & ->). exists (c :: mid). repeat split; assumption.
        -- intros (mid & Heq & Hsp & ->). destruct mid as [|x mid]; [destruct Hsp|].
           cbn [app] in Heq. injection Heq as <- ->. destruct Hsp as [_ Hsp].
           exists mid. repeat split. exact Hsp.
      * split; [discriminate|]. intros (mid & Heq & Hsp & _).
        destruct mid as [|x mid]; [destruct Hsp|].
        cbn [app] in Heq. injection Heq as <- ->. destruct Hsp as [Hx _].
        apply (Hplain c Hp) in Hx. congruence.
Qed.

(** A spelled word begins and ends with a word character. *)
Lemma spelled_ends (word : str) :
  letters word -> word <> [] ->
  forall (mid : str) (prev : option N),
    spelled word mid -> is_word_opt (last_or prev mid) = true.
Proof.
  unfold letters. induction word as [|p word IH]; intros Hl Hne mid prev Hsp; [congruence|].
  apply Forall_cons in Hl as [Hp Hl].
  destruct mid as [|c mid]; [destruct Hsp|]. destruct Hsp as [Hc Hsp]. cbn [last_or].
  destruct word as [|p' word].
  - destruct mid; [|destruct Hsp]. cbn [last_or is_word_opt]. exact (letter_word p c Hp Hc).
  - apply IH; [exact Hl|discriminate|exact Hsp].
Qed.

Lemma spelled_begins (word : str) :
  letters word -> word <> [] ->
  forall (mid rest : str),
    spelled word mid -> is_word_opt (first_char (mid ++ rest)) = true.
Proof.
  unfold letters. intros Hl Hne mid rest Hsp. destruct word as [|p word]; [congruence|].
  apply Forall_cons in Hl as [Hp _].
  destruct mid as [|c mid]; [destruct Hsp|]. destruct Hsp as [Hc _].
  cbn [app first_char is_word_opt]. exact (letter_word p c Hp Hc).
Qed.

Lemma match_alternative_spec (word : str) (prev : option N) (s : str) :
  letters word -> word <> [] ->
  match_alternative word prev s = true <->
  exists mid rest, s = mid ++ rest /\ spelled word mid
                   /\ is_word_opt (first_char rest) = false.
Proof.
  intros Hl Hne. unfold match_alternative. split.
  - destruct (match_literal word s prev) as [[last rest]|] eqn:Hm; [|discriminate].
    apply (match_literal_spec word Hl) in Hm as (mid & -> & Hsp & ->).
    unfold at_boundary. rewrite (spelled_ends word Hl Hne mid prev Hsp). cbn [xorb].
    intros H. exists mid, rest. repeat split; [exact Hsp|].
    destruct (is_word_opt (first_char rest)); [discriminate|reflexivity].
  - intros (mid & rest & -> & Hsp & Hb).
    assert (match_literal word (mid ++ rest) prev = Some (last_or prev mid, rest)) as ->.
    { apply (match_literal_spec word Hl). exists mid. repeat split. exact Hsp. }
    unfold at_boundary. rewrite (spelled_ends word Hl Hne mid prev Hsp), Hb. reflexivity.
Qed.

Lemma letters_exit : letters (lit "exit").
Proof. repeat constructor; vm_compute; tauto. Qed.

Lemma letters_quit : letters (lit "quit").
Proof. repeat constructor; vm_compute; tauto. Qed.

Lemma match_here_spec (prev : option N) (s : str) :
  match_here prev s = true <->
  is_word_opt prev = false
  /\ exists mid rest, s = mid ++ rest
                     /\ (spelled (lit "exit") mid \/ spelled (lit "quit") mid)
                     /\ is_word_opt (first_char rest) = false.
Proof.
  unfold match_here. rewrite andb_true_iff, orb_true_iff.
  rewrite (match_alternative_spec (lit "exit") prev s letters_exit) by discriminate.
  rewrite (match_alternative_spec (lit "quit") prev s letters_quit) by discriminate.
  split.
  - intros [Hb [(mid & rest & -> & Hsp & Hr)|(mid & rest & -> & Hsp & Hr)]].
    + unfold at_boundary in Hb.
      rewrite (spelled_begins (lit "exit") letters_exit ltac:(discriminate) mid rest Hsp) in Hb.
      split; [destruct (is_word_opt prev); [discriminate|reflexivity]|].
      exists mid, rest. auto.
    + unfold at_boundary in Hb.
      rewrite (spelled_begins (lit "quit") letters_quit ltac:(discriminate) mid rest Hsp) in Hb.
      split; [destruct (is_word_opt prev); [discriminate|reflexivity]|].
      exists mid, rest. auto.
  - intros [Hp (mid & rest & -> & [Hsp|Hsp] & Hr)].
    + split; [|left; exists mid, rest; auto].
      unfold at_boundary.
      rewrite (spelled_begins (lit "exit") letters_exit ltac:(discriminate) mid rest Hsp), Hp.
      reflexivity.
    + split; [|right; exists mid, rest; auto].
      unfold at_boundary.
      rewrite (spelled_begins (lit "quit") letters_quit ltac:(discriminate) mid rest Hsp), Hp.
      reflexivity.
Qed.

(** The scan finds exactly the whole-word, case-insensitive occurrences
    of "exit" and "quit". *)
Lemma exit_command_spec (t : str) :
  exit_command t = true <-> says_exit_or_quit t.
Proof.
  unfold exit_command, says_exit_or_quit, whole_word. rewrite search_from_spec. split.
  - intros (pre & s' & -> & H). apply match_here_spec in H as [Hp (mid & rest & -> & Hsp & Hr)].
    destruct Hsp as [Hsp|Hsp]; [left|right]; exists pre, mid, rest; auto.
  - intros [(pre & mid & post & -> & Hsp & Hp & Hr)|(pre & mid & post & -> & Hsp & Hp & Hr)];
      exists pre, (mid ++ post); (split; [reflexivity|]);
      apply match_here_spec; (split; [exact Hp|]); exists mid, post; auto.
Qed.

End ExitCommandFacts.

(** ** Shared objects *)
Section HeapFacts.
Import Heap.

Lemma is_set_put (e q : nat) (x : Str.str * bool) (h : Heap) :
  is_set e (put q x h) = is_set e h.
Proof. reflexivity. Qed.

Lemma contents_put (q : nat) (x : Str.str * bool) (h : Heap) :
  contents q (put q x h) = contents q h ++ [x].
Proof. unfold contents at 1, put, write_queue. cbn. rewrite lookup_insert_eq. reflexivity. Qed.

Lemma contents_put_ne (q q' : nat) (x : Str.str * bool) (h : Heap) :
  q <> q' -> contents q' (put q x h) = contents q' h.
Proof.
  intros Hne. unfold contents, put, write_queue. cbn.
  rewrite lookup_insert_ne by exact Hne. reflexivity.
Qed.

Lemma is_set_set (e : nat) (h : Heap) : is_set e (set e h) = true.
Proof. unfold is_set, set, write_event. cbn. rewrite lookup_insert_eq. reflexivity. Qed.

Lemma is_set_clear (e : nat) (h : Heap) : is_set e (clear e h) = false.
Proof. unfold is_set, clear, write_event. cbn. rewrite lookup_insert_eq. reflexivity. Qed.

Lemma contents_write_event (q e : nat) (b : bool) (h : Heap) :
  contents q (write_event e b h) = contents q h.
Proof. reflexivity. Qed.

End HeapFacts.

(** ** The chunk generator *)
Section Generator.
Import Mic.

Lemma run_app (evs1 evs2 : list event) (g : gen_state) :
  run (evs1 ++ evs2) g = run evs2 (run evs1 g).
Proof. apply fold_left_app. Qed.

Lemma run_returned (n : nat) (m : MicrophoneStream) (out : list chunk) :
  run (repeat Next n) (mkGen m Returned out) = mkGen m Returned out.
Proof.
  induction n as [|n IH]; [reflexivity|].
  cbn [repeat run fold_left step mic pc yielded generator_step].
  rewrite app_nil_r. exact IH.
Qed.

(** Draining a buffer in which the marker follows [cs]: every chunk is
    collected, then the marker makes the generator return at once. *)
Lemma drain_to_marker (cs : list chunk) (data : list chunk)
      (rest : list (option chunk)) (m : MicrophoneStream) (out : list chunk) :
  run (repeat Next (S (length cs)))
      (mkGen (set_buff (map Some cs ++ None :: rest) m) (Drain data) out)
  = mkGen (set_buff rest m) Returned out.
Proof.
  revert data m. induction cs as [|c cs IH]; intros data m.
  - cbn. rewrite app_nil_r. reflexivity.
  - change (length (c :: cs)) with (S (length cs)).
    cbn [repeat]. cbn [run fold_left]. 
    cbn [step mic pc yielded generator_step set_buff buff map app].
    rewrite app_nil_r.
    specialize (IH (data ++ [c]) m). cbn [run] in IH.
    cbn [set_buff rate chunk_size closed audio_stream_open buff] in *.
    exact IH.
Qed.

(** Draining a buffer that holds [cs] and no marker: the batch is yielded
    when the buffer is found empty. *)
Lemma drain_to_empty (cs : list chunk) (data : list chunk)
      (m : MicrophoneStream) (out : list chunk) :
  run (repeat Next (S (length cs)))
      (mkGen (set_buff (map Some cs) m) (Drain data) out)
  = mkGen (set_buff [] m) LoopHead (out ++ [concat (data ++ cs)]).
Proof.
  revert data m. induction cs as [|c cs IH]; intros data m.
  - cbn. rewrite app_nil_r. reflexivity.
  - change (length (c :: cs)) with (S (length cs)).
    cbn [repeat]. cbn [run fold_left].
    cbn [step mic pc yielded generator_step set_buff buff map app].
    rewrite app_nil_r.
    specialize (IH (data ++ [c]) m). cbn [run] in IH.
    cbn [set_buff rate chunk_size closed audio_stream_open buff] in *.
    rewrite <- app_assoc in IH. exact IH.
Qed.

Lemma audio_app (q1 q2 : list (option chunk)) : audio (q1 ++ q2) = audio q1 ++ audio q2.
Proof. unfold audio. rewrite flat_map_app, concat_app. reflexivity. Qed.

Lemma step_accounts (ev : event) (g : gen_state) (all : list (option chunk)) :
  (exists taken, all = taken ++ buff (mic g) /\ accounts taken g) ->
  exists taken,
    all ++ pushed [ev] = taken ++ buff (mic (step ev g)) /\ accounts taken (step ev g).
Proof.
  intros (taken & Hall & Hacc). destruct g as [m p out].
  destruct ev as [item| |]; cbn [pushed flat_map app step mic pc yielded] in *.
  - exists taken. split; [|exact Hacc].
    cbn [put buff]. rewrite Hall, app_assoc. reflexivity.
  - exists taken. rewrite app_nil_r. split; [exact Hall|exact Hacc].
  - rewrite app_nil_r. unfold accounts in *. cbn [pc yielded] in *.
    destruct p as [| |data|]; cbn [generator_step].
    + destruct (closed m); cbn [mic pc yielded]; exists taken;
        rewrite app_nil_r; (split; [exact Hall|]); [|exact Hacc].
      rewrite Hacc. reflexivity.
    + destruct (buff m) as [|[c|] q] eqn:Hq; cbn [mic pc yielded set_buff buff];
        rewrite app_nil_r.
      * exists taken. split; [rewrite Hq; exact Hall|exact Hacc].
      * exists (taken ++ [Some c]). split; [rewrite Hall, <- app_assoc; reflexivity|].
        rewrite audio_app, Hacc. unfold audio. cbn. reflexivity.
      * exists (taken ++ [None]). split; [rewrite Hall, <- app_assoc; reflexivity|].
        rewrite audio_app, Hacc. unfold audio at 2. cbn. rewrite app_nil_r. reflexivity.
    + destruct (buff m) as [|[c|] q] eqn:Hq; cbn [mic pc yielded set_buff buff].
      * exists taken. split; [rewrite Hq; exact Hall|].
        rewrite concat_app. cbn. rewrite app_nil_r. exact Hacc.
      * rewrite app_nil_r. exists (taken ++ [Some c]).
        split; [rewrite Hall, <- app_assoc; reflexivity|].
        rewrite audio_app, <- Hacc, concat_app, app_assoc. unfold audio. cbn. reflexivity.
      * rewrite app_nil_r. exists (taken ++ [None]).
        split; [rewrite Hall, <- app_assoc; reflexivity|].
        rewrite audio_app, <- Hacc. unfold audio at 1. cbn. rewrite app_nil_r.
        exists (concat data). reflexivity.
    + cbn [mic pc yielded]. rewrite app_nil_r. exists taken. split; [exact Hall|exact Hacc].
Qed.

Lemma run_accounts (evs : list event) (g : gen_state) (all : list (option chunk)) :
  (exists taken, all = taken ++ buff (mic g) /\ accounts taken g) ->
  exists taken,
    all ++ pushed evs = taken ++ buff (mic (run evs g)) /\ accounts taken (run evs g).
Proof.
  revert g all. induction evs as [|ev evs IH]; intros g all H.
  - cbn. rewrite app_nil_r. exact H.
  - change (run (ev :: evs) g) with (run evs (step ev g)).
    apply (step_accounts ev) in H.
    apply IH in H. destruct H as (taken & Heq & Hacc).
    exists taken. split; [|exact Hacc].
    rewrite <- Heq, <- app_assoc. f_equal.
    unfold pushed. cbn [flat_map]. rewrite app_nil_r. reflexivity.
Qed.

(** X1.  Whatever the interleaving of pushes and generator steps, the batches
    yielded are, in order, a prefix of the audio pushed: nothing is
    invented, reordered or yielded twice. *)
Lemma yielded_prefix_of_pushed (evs : list event) (m : MicrophoneStream) :
  concat (yielded (run evs (start_of m))) `prefix_of` audio (buff m ++ pushed evs).
Proof.
  destruct (run_accounts evs (start_of m) (buff m)) as (taken & Heq & Hacc).
  - exists []. split; reflexivity.
  - rewrite Heq, audio_app. unfold accounts in Hacc.
    destruct (pc (run evs (start_of m))).
    + rewrite Hacc. apply prefix_app_r. reflexivity.
    + rewrite Hacc. apply prefix_app_r. reflexivity.
    + apply prefix_app_r. exists (concat data). symmetry. exact Hacc.
    + apply prefix_app_r. exact Hacc.
Qed.

(** Once it has returned the generator yields nothing more. *)
Lemma returned_is_final (evs : list event) (g : gen_state) :
  pc g = Returned ->
  pc (run evs g) = Returned /\ yielded (run evs g) = yielded g.
Proof.
  revert g. induction evs as [|ev evs IH]; intros g Hg; [split; [exact Hg|reflexivity]|].
  change (run (ev :: evs) g) with (run evs (step ev g)).
  assert (pc (step ev g) = Returned /\ yielded (step ev g) = yielded g) as [H1 H2].
  { destruct g as [m p out]. cbn in Hg. subst p.
    destruct ev; cbn; rewrite ?app_nil_r; split; reflexivity. }
  destruct (IH _ H1) as [H3 H4]. split; [exact H3|]. rewrite <- H2. exact H4.
Qed.

(** When the marker arrives only after the buffered chunks have been
    yielded, the blocking [get] meets it and nothing is lost. *)
Lemma first_two_steps (c : chunk) (q : list (option chunk)) :
  run [Next; Next] (start_of (capturing (Some c :: q)))
  = mkGen (capturing q) (Drain [c]) [].
Proof. reflexivity. Qed.

Lemma generator_yields_all_when_marker_comes_later (c : chunk) (cs : list chunk) :
  let g := run (repeat Next (length cs + 3) ++ [Push None; Next; Next])
               (start_of (capturing (Some c :: map Some cs))) in
  pc g = Returned /\ yielded g = [concat (c :: cs)] /\ buff (mic g) = [].
Proof.
  cbn zeta. rewrite run_app.
  replace (length cs + 3) with (2 + S (length cs)) by lia.
  rewrite repeat_app, run_app.
  change (repeat Next 2) with [Next; Next]. rewrite first_two_steps.
  unfold capturing. rewrite drain_to_empty.
  repeat split; reflexivity.
Qed.

(** C1 (divergence).  When the end-of-stream marker is met while the
    generator drains the chunks already buffered, it returns at once:
    the chunks collected in that iteration are never yielded.  With the
    chunks [c :: cs] and then the marker in the buffer before the first
    [get], the generator ends having yielded nothing. *)
Theorem generator_drops_batch_at_end_of_stream
        (c : chunk) (cs : list chunk) (rest : list (option chunk)) (n : nat) :
  let g := run (repeat Next (length cs + 3 + n))
               (start_of (capturing (Some c :: map Some cs ++ None :: rest))) in
  pc g = Returned /\ yielded g = [] /\ buff (mic g) = rest.
Proof.
  cbn zeta.
  replace (length cs + 3 + n) with (2 + (S (length cs) + n)) by lia.
  rewrite repeat_app, run_app.
  change (repeat Next 2) with [Next; Next]. rewrite first_two_steps.
  rewrite repeat_app, run_app.
  unfold capturing. rewrite drain_to_marker, run_returned.
  repeat split; reflexivity.
Qed.

End Generator.

(** ** The receive loop of the worker *)
Section ReceiveLoop.
Import Asr Router Worker.

Lemma steps_add (n m : nat) (env : Env) (h : Heap.Heap) (w : Worker) :
  steps (n + m) env h w = steps m env (steps n env h w).1 (steps n env h w).2.
Proof.
  revert h w. induction n as [|n IH]; intros h w; [reflexivity|].
  cbn [Nat.add steps]. destruct (step env h w) as [h' w']. apply IH.
Qed.

Lemma steps_stopped (n : nat) (env : Env) (h : Heap.Heap) (w : Worker) :
  running w = false -> steps n env h w = (h, w).
Proof.
  intros Hr. induction n as [|n IH]; [reflexivity|].
  cbn [steps]. unfold running in Hr. unfold step.
  destruct (pc w); try discriminate; exact IH.
Qed.

Lemma route_breaks_forwards (r : Response) :
  breaks r = true -> exists t, forwarded r = Some (t, true).
Proof.
  unfold breaks, forwarded, route.
  destruct (results r) as [|result ?]; [discriminate|].
  destruct (alternatives result) as [|alt ?]; [discriminate|].
  cbn. intros H. apply andb_true_iff in H as [Hf _]. rewrite Hf. eauto.
Qed.

(** One iteration of the loop while the cancellation flag is clear. *)
Lemma iteration (env : Env) (h : Heap.Heap) (w : Worker) (r : Response) (rest : list Response) :
  pc w = AwaitResponse -> inbound w = r :: rest ->
  Heap.is_set (stop_event w) h = false ->
  steps 3 env h w
  = (match forwarded r with Some x => Heap.put (result_queue w) x h | None => h end,
     if breaks r then leave_with (Finished ExitCommandHeard) (set_inbound rest w)
     else set_pc AwaitResponse (set_inbound rest w)).
Proof.
  intros Hpc Hin Hflag. cbn [steps]. unfold step at 1. rewrite Hpc, Hin.
  unfold step at 1. cbn [pc set_pc set_inbound stop_event]. rewrite Hflag.
  unfold step at 1. cbn [pc set_pc set_inbound stop_event result_queue].
  destruct (breaks r); reflexivity.
Qed.

Lemma receive_loop (env : Env) (rs : list Response) :
  forall (h : Heap.Heap) (w : Worker),
    pc w = AwaitResponse -> inbound w = rs ->
    Heap.is_set (stop_event w) h = false ->
    let end_ := steps (3 * length rs + 1) env h w in
    Heap.contents (result_queue w) end_.1
    = Heap.contents (result_queue w) h ++ omap forwarded (handled rs)
    /\ (pc end_.2 = Finished ExitCommandHeard
        \/ pc end_.2 = match service w with
                        | StreamOpen => AwaitResponse
                        | StreamClosed => Finished StreamEnded
                        | StreamFailed => Raised TranscriptionServiceError
                        end).
Proof.
  induction rs as [|r rest IH]; intros h w Hpc Hin Hflag end_; subst end_.
  - cbn [length Nat.mul Nat.add steps]. unfold step. rewrite Hpc, Hin.
    cbn [handled omap]. rewrite app_nil_r.
    destruct (service w); cbn; split; auto.
  - replace (3 * length (r :: rest) + 1) with (3 + (3 * length rest + 1))
      by (cbn [length]; lia).
    rewrite steps_add, (iteration env h w r rest Hpc Hin Hflag).
    cbn [fst snd handled omap list_omap].
    destruct (breaks r) eqn:Hb.
    + rewrite steps_stopped by reflexivity. cbn [fst snd list_omap].
      destruct (route_breaks_forwards r Hb) as [t Ht]. rewrite Ht.
      rewrite contents_put. split; [reflexivity|].
      left. reflexivity.
    + specialize (IH (match forwarded r with
                      | Some x => Heap.put (result_queue w) x h
                      | None => h end)
                     (set_pc AwaitResponse (set_inbound rest w))).
      cbn [pc set_pc set_inbound inbound stop_event result_queue service] in IH.
      destruct IH as [IHq IHpc]; [reflexivity|reflexivity| |].
      { destruct (forwarded r); [rewrite is_set_put|]; exact Hflag. }
      split; [|exact IHpc].
      rewrite IHq. destruct (forwarded r) as [x|].
      * rewrite contents_put, <- app_assoc. reflexivity.
      * reflexivity.
Qed.

End ReceiveLoop.

(** ** The script and the session state *)
Section Script.
Import Controller.

Lemma state_management_stored (h : Heap.Heap) (s : Session) :
  state_management h (store s) = (h, s).
Proof. destruct s; reflexivity. Qed.

Lemma session_stored (e : Worker.Env) (h : Heap.Heap) (s : Session)
      (ws : gmap nat Worker.Worker) (n : nat) (p : script_pc) (l : list effect) :
  session (mkWorld e h (store s) ws n p l) = s.
Proof. unfold session. cbn [heap session_state]. rewrite state_management_stored. reflexivity. Qed.

Lemma session_of_stored (w : World) (s : Session) :
  session_state w = store s -> session w = s.
Proof. intros H. unfold session. rewrite H, state_management_stored. reflexivity. Qed.

Lemma session_listening (w : World) :
  listening (session w) = default false (ss_listening (session_state w)).
Proof.
  unfold session, state_management.
  destruct (ss_stop_event (session_state w)), (ss_result_queue (session_state w)); reflexivity.
Qed.

Lemma session_thread (w : World) :
  thread (session w) = default None (ss_thread (session_state w)).
Proof.
  unfold session, state_management.
  destruct (ss_stop_event (session_state w)), (ss_result_queue (session_state w)); reflexivity.
Qed.

Lemma session_result_queue (w : World) (q : nat) :
  ss_result_queue (session_state w) = Some q -> result_queue (session w) = q.
Proof.
  intros H. unfold session, state_management. rewrite H.
  destruct (ss_stop_event (session_state w)); reflexivity.
Qed.

Lemma session_stop_event (w : World) (e : nat) :
  ss_stop_event (session_state w) = Some e -> stop_event (session w) = e.
Proof.
  intros H. unfold session, state_management. rewrite H.
  destruct (ss_result_queue (session_state w)); reflexivity.
Qed.

Lemma open_sessions_app (l l' : list effect) :
  open_sessions (l ++ l') = fold_left sessions_after l' (open_sessions l).
Proof. apply fold_left_app. Qed.

Lemma consume_session (items : list (Str.str * bool)) (ft : Str.str) (s : Session) :
  let s' := (consume items ft s).1 in
  listening s' = listening s /\ stop_event s' = stop_event s
  /\ result_queue s' = result_queue s /\ thread s' = thread s.
Proof.
  revert ft s. induction items as [|[t f] items IH]; intros ft s; [cbn; auto|].
  cbn [consume]. destruct f.
  - specialize (IH (ft ++ t ++ newline) (set_final_transcript (ft ++ t ++ newline) s)).
    destruct (consume items _ _) as [s' l]. exact IH.
  - specialize (IH ft s). destruct (consume items ft s) as [s' l]. exact IH.
Qed.

Lemma consume_sessions (items : list (Str.str * bool)) (ft : Str.str) (s : Session) (n : nat) :
  fold_left sessions_after (consume items ft s).2 n = n.
Proof.
  revert ft s. induction items as [|[t f] items IH]; intros ft s; [reflexivity|].
  cbn [consume]. destruct f.
  - specialize (IH (ft ++ t ++ newline) (set_final_transcript (ft ++ t ++ newline) s)).
    destruct (consume items _ _) as [s' l]. exact IH.
  - specialize (IH ft s). destruct (consume items ft s) as [s' l]. exact IH.
Qed.

Lemma consume_gets (items : list (Str.str * bool)) (ft : Str.str) (s : Session) :
  gets (consume items ft s).2 = items.
Proof.
  revert ft s. induction items as [|[t f] items IH]; intros ft s; [reflexivity|].
  cbn [consume]. destruct f.
  - specialize (IH (ft ++ t ++ newline) (set_final_transcript (ft ++ t ++ newline) s)).
    destruct (consume items _ _) as [s' l]. cbn in *. rewrite IH. reflexivity.
  - specialize (IH ft s). destruct (consume items ft s) as [s' l]. cbn in *.
    rewrite IH. reflexivity.
Qed.

Lemma consume_until_session (items : list (Str.str * bool)) :
  forall (n : nat) (ft : Str.str) (s : Session),
    let s' := (consume_until n items ft s).1.1 in
    listening s' = listening s /\ stop_event s' = stop_event s
    /\ result_queue s' = result_queue s /\ thread s' = thread s.
Proof.
  induction items as [|[t f] items IH]; intros n ft s; [cbn; auto|].
  cbn [consume_until]. destruct n as [|[|n]]; [cbn; auto|cbn; auto|]. destruct f.
  - specialize (IH n (ft ++ t ++ newline) (set_final_transcript (ft ++ t ++ newline) s)).
    destruct (consume_until n items _ _) as [[s' l] kept]. exact IH.
  - specialize (IH n ft s). destruct (consume_until n items ft s) as [[s' l] kept]. exact IH.
Qed.

Lemma consume_until_sessions (items : list (Str.str * bool)) :
  forall (n : nat) (ft : Str.str) (s : Session) (k : nat),
    fold_left sessions_after (consume_until n items ft s).1.2 k = k.
Proof.
  induction items as [|[t f] items IH]; intros n ft s k; [reflexivity|].
  cbn [consume_until]. destruct n as [|[|n]]; [reflexivity|reflexivity|]. destruct f.
  - specialize (IH n (ft ++ t ++ newline) (set_final_transcript (ft ++ t ++ newline) s) k).
    destruct (consume_until n items _ _) as [[s' l] kept]. exact IH.
  - specialize (IH n ft s k). destruct (consume_until n items ft s) as [[s' l] kept]. exact IH.
Qed.

Lemma interrupted_session (f : Fault) (items : list (Str.str * bool)) (ft : Str.str)
      (s : Session) :
  let s' := (interrupted f items ft s).1.1 in
  listening s' = listening s /\ stop_event s' = stop_event s
  /\ result_queue s' = result_queue s /\ thread s' = thread s.
Proof.
  unfold interrupted. destruct (returned f) as [|n]; [cbn; auto|].
  pose proof (consume_until_session items n ft s) as H.
  destruct (consume_until n items ft s) as [[s' l] kept]. exact H.
Qed.

Lemma interrupted_sessions (f : Fault) (items : list (Str.str * bool)) (ft : Str.str)
      (s : Session) (k : nat) :
  fold_left sessions_after (interrupted f items ft s).1.2 k = k.
Proof.
  unfold interrupted. destruct (returned f) as [|n]; [reflexivity|].
  pose proof (consume_until_sessions items n ft s k) as H.
  destruct (consume_until n items ft s) as [[s' l] kept]. exact H.
Qed.

Lemma consistent_in_progress (w : World) :
  consistent w ->
  in_progress (set_heap (state_management (heap w) (session_state w)).1 w) (session w).
Proof.
  intros [_ Ht Hc Ho]. repeat split.
  - intros H. apply Ht in H. tauto.
  - exact Hc.
  - cbn [workers set_heap] in H. destruct (Ho t wk H) as [He _].
    symmetry. apply session_stop_event. exact He.
  - cbn [workers set_heap] in H. destruct (Ho t wk H) as [_ Hq].
    symmetry. apply session_result_queue. exact Hq.
Qed.

Ltac from_objects Ho :=
  match goal with H : _ !! _ = Some _ |- _ => apply Ho in H; tauto end.

Ltac count_sessions Hc :=
  unfold open_sessions in *; rewrite ?fold_left_app, ?Hc; reflexivity.

Lemma handle_start_in_progress (inp : Inputs) (w : World) (s : Session) :
  in_progress w s ->
  in_progress (handle_start inp w s).1 (handle_start inp w s).2
  /\ script (handle_start inp w s).1 = script w.
Proof.
  intros (Ht & Hc & Ho). unfold handle_start.
  destruct (start_button inp), (listening s) eqn:Hl; cbn; (split; [|reflexivity]);
    repeat split; cbn; rewrite ?Hl; auto; try from_objects Ho; try count_sessions Hc.
  - cbn [workers emit] in H. destruct (decide (t = next_tid w)) as [->|Hne].
    + rewrite lookup_insert_eq in H. injection H as <-. reflexivity.
    + rewrite lookup_insert_ne in H by congruence. from_objects Ho.
  - cbn [workers emit] in H. destruct (decide (t = next_tid w)) as [->|Hne].
    + rewrite lookup_insert_eq in H. injection H as <-. reflexivity.
    + rewrite lookup_insert_ne in H by congruence. from_objects Ho.
Qed.

Lemma handle_stop_in_progress (inp : Inputs) (w : World) (s : Session) :
  in_progress w s ->
  let r := handle_stop inp w s in
  in_progress r.1.1 r.1.2 /\ script r.1.1 = script w
  /\ (forall t, r.2 = Some t -> listening r.1.2 = false /\ thread r.1.2 = Some t).
Proof.
  intros (Ht & Hc & Ho). unfold handle_stop.
  destruct (stop_button inp), (listening s) eqn:Hl; cbn;
    try (repeat split; cbn; rewrite ?Hl; auto; try from_objects Ho;
         try count_sessions Hc; discriminate).
  destruct (Ht eq_refl) as [t Hth]. rewrite Hth. cbn.
  repeat split; cbn; auto; try from_objects Ho; try count_sessions Hc; congruence.
Qed.

Lemma finish_in_progress (inp : Inputs) (w : World) (s : Session) :
  in_progress w s ->
  in_progress (finish inp w s).1 (finish inp w s).2
  /\ script (finish inp w s).1 = script w.
Proof.
  intros (Ht & Hc & Ho). unfold finish, process_results.
  destruct (listening s) eqn:Hl.
  - destruct (poll_fault inp) as [f|].
    + pose proof (interrupted_session
                    f (Heap.contents (result_queue s) (heap w)) (text_area inp) s)
        as (H1 & H2 & H3 & H4).
      pose proof (interrupted_sessions
                    f (Heap.contents (result_queue s) (heap w)) (text_area inp) s)
        as H5.
      destruct (interrupted _ _ _ _) as [[s' l] kept]. cbn in H1, H2, H3, H4, H5. cbn.
      repeat split; cbn; rewrite ?H2, ?H3, ?H4; auto; try from_objects Ho; try discriminate.
      unfold open_sessions in *. rewrite !fold_left_app, H5, Hc. reflexivity.
    + pose proof (consume_session (Heap.contents (result_queue s) (heap w)) (text_area inp) s)
        as (H1 & H2 & H3 & H4).
      pose proof (consume_sessions (Heap.contents (result_queue s) (heap w)) (text_area inp) s)
        as H5.
      destruct (consume _ _ _) as [s' l]. cbn in H1, H2, H3, H4, H5. cbn.
      repeat split; cbn; rewrite ?H1, ?H2, ?H3, ?H4, ?Hl; auto; try from_objects Ho.
      unfold open_sessions in *. rewrite fold_left_app. cbn [fold_left sessions_after].
      rewrite fold_left_app, H5. cbn. exact Hc.
  - cbn. rewrite Hl. cbn.
    repeat split; cbn; rewrite ?Hl; auto; try from_objects Ho; try count_sessions Hc;
      congruence.
Qed.

Lemma after_join_in_progress (w : World) (s : Session) :
  in_progress w s -> listening s = false ->
  in_progress (after_join w s).1 (after_join w s).2
  /\ script (after_join w s).1 = script w
  /\ listening (after_join w s).2 = false.
Proof.
  intros (Ht & Hc & Ho) Hl. unfold after_join. cbn. rewrite Hl in Hc.
  repeat split; cbn; rewrite ?Hl; auto; try from_objects Ho; try count_sessions Hc;
    discriminate.
Qed.

Lemma in_progress_stored (w : World) (s : Session) (p : script_pc) :
  in_progress w s -> (listening s = true -> p = Ready) ->
  consistent (set_script p (set_session_state (store s) w)).
Proof.
  intros (Ht & Hc & Ho) Hs. destruct w as [e h ss ws n p0 l].
  unfold set_session_state, set_script.
  cbn [env heap session_state workers next_tid script log] in *.
  constructor; rewrite ?session_stored; cbn [script log workers session_state store].
  - right. reflexivity.
  - auto.
  - exact Hc.
  - intros t wk H. destruct (Ho t wk H) as [-> ->]. auto.
Qed.

Lemma set_script_same (w : World) : set_script (script w) w = w.
Proof. destruct w; reflexivity. Qed.

Lemma main_consistent (inp : Inputs) (w : World) :
  consistent w -> script w = Ready -> consistent (main inp w).
Proof.
  intros Hc Hr. unfold main.
  pose proof (consistent_in_progress w Hc) as H0. unfold session in H0.
  destruct (state_management (heap w) (session_state w)) as [h s]. cbn [fst snd] in H0.
  pose proof (handle_start_in_progress inp _ _ H0) as [H1 Hs1].
  destruct (handle_start inp (set_heap h w) s) as [w1 s1]. cbn [fst snd] in *.
  pose proof (handle_stop_in_progress inp _ _ H1) as (H2 & Hs2 & Hw).
  destruct (handle_stop inp w1 s1) as [[w2 s2] waiting]. cbn [fst snd] in *.
  destruct waiting as [t|].
  - destruct (Hw t eq_refl) as [Hl _].
    apply in_progress_stored; [exact H2|]. rewrite Hl. discriminate.
  - pose proof (finish_in_progress inp _ _ H2) as [H3 Hs3].
    destruct (finish inp w2 s2) as [w3 s3]. cbn [fst snd] in *.
    rewrite <- (set_script_same (set_session_state (store s3) w3)).
    apply in_progress_stored; [exact H3|]. intros _.
    destruct w3; cbn in *. congruence.
Qed.

Lemma join_returns_consistent (w : World) :
  consistent w -> consistent (join_returns w).
Proof.
  intros Hc. unfold join_returns. destruct (script w) as [|t inp] eqn:Hs; [exact Hc|].
  assert (listening (session w) = false) as Hl.
  { destruct (listening (session w)) eqn:Hl; [|reflexivity].
    destruct (holds_thread w Hc Hl) as [_ Hr]. congruence. }
  pose proof (consistent_in_progress w Hc) as H0. unfold session in H0, Hl.
  destruct (state_management (heap w) (session_state w)) as [h s]. cbn [fst snd] in H0, Hl.
  pose proof (after_join_in_progress _ _ H0 Hl) as (H1 & Hs1 & Hl1).
  destruct (after_join (set_heap h w) s) as [w1 s1]. cbn [fst snd] in *.
  pose proof (finish_in_progress inp _ _ H1) as [H2 Hs2].
  destruct (finish inp w1 s1) as [w2 s2]. cbn [fst snd] in *.
  apply in_progress_stored; [exact H2|reflexivity].
Qed.

End Script.

(** ** Threads and the script together *)
Section Threads.
Import Controller.

Lemma step_same_args (env : Worker.Env) (h : Heap.Heap) :
  Worker.same_args (fun wk => (Worker.step env h wk).2).
Proof.
  intros wk. unfold Worker.step.
  destruct (Worker.pc wk); cbn;
    repeat match goal with
           | |- context [match ?x with _ => _ end] => destruct x; cbn
           end; auto.
Qed.

Lemma deliver_same_args (r : Asr.Response) : Worker.same_args (Worker.deliver r).
Proof. intros wk. unfold Worker.deliver. destruct (Worker.receiving wk); cbn; auto. Qed.

Lemma end_stream_same_args : Worker.same_args Worker.end_stream.
Proof. intros wk. unfold Worker.end_stream. destruct (Worker.receiving wk); cbn; auto. Qed.

Lemma fail_stream_same_args : Worker.same_args Worker.fail_stream.
Proof. intros wk. unfold Worker.fail_stream. destruct (Worker.receiving wk); cbn; auto. Qed.

Lemma device_frame_same_args (data : Mic.chunk) : Worker.same_args (Worker.device_frame data).
Proof.
  intros wk. unfold Worker.device_frame.
  destruct (Worker.stream wk) as [m|]; [destruct (Mic.audio_stream_open m)|]; cbn; auto.
Qed.

Lemma client_pull_same_args : Worker.same_args Worker.client_pull.
Proof.
  intros wk. unfold Worker.client_pull.
  destruct (Worker.stream wk) as [m|]; [|auto].
  destruct (Mic.generator_step m (Worker.requests wk)) as [[m' g] out]. cbn. auto.
Qed.

Lemma on_worker_frame (t : nat) (f : Worker.Worker -> Worker.Worker) (w : World) :
  Worker.same_args f ->
  let w' := on_worker t f w in
  session_state w' = session_state w /\ script w' = script w /\ log w' = log w
  /\ next_tid w' = next_tid w /\ heap w' = heap w
  /\ forall t' wk', workers w' !! t' = Some wk' ->
       exists wk, workers w !! t' = Some wk
                  /\ Worker.stop_event wk' = Worker.stop_event wk
                  /\ Worker.result_queue wk' = Worker.result_queue wk.
Proof.
  intros Hf. unfold on_worker. destruct (workers w !! t) as [wk|] eqn:Ht; cbn.
  - repeat split. intros t' wk' H. destruct (decide (t = t')) as [<-|Hne].
    + rewrite lookup_insert_eq in H. injection H as <-. exists wk.
      destruct (Hf wk). auto.
    + rewrite lookup_insert_ne in H by exact Hne. eauto.
  - repeat split. eauto.
Qed.

(** An event of the background changes neither the session state, nor
    where the script stands, nor its effects, nor any Event flag. *)
Lemma background_frame (ev : event) (w : World) :
  background ev = true ->
  let w' := step ev w in
  session_state w' = session_state w /\ script w' = script w /\ log w' = log w
  /\ next_tid w' = next_tid w
  /\ Heap.events (heap w') = Heap.events (heap w)
  /\ Heap.next_loc (heap w') = Heap.next_loc (heap w)
  /\ forall t' wk', workers w' !! t' = Some wk' ->
       exists wk, workers w !! t' = Some wk
                  /\ Worker.stop_event wk' = Worker.stop_event wk
                  /\ Worker.result_queue wk' = Worker.result_queue wk.
Proof.
  intros Hb. destruct ev as [inp| |t|t r|t|t|t data|t|e]; try discriminate; cbn [step].
  - destruct (workers w !! t) as [wk|] eqn:Ht; [|cbn; repeat split; eauto].
    pose proof (step_same_args (env w) (heap w)) as Hargs.
    assert (Heap.events (Worker.step (env w) (heap w) wk).1 = Heap.events (heap w)
            /\ Heap.next_loc (Worker.step (env w) (heap w) wk).1 = Heap.next_loc (heap w))
      as [He Hn].
    { unfold Worker.step. destruct (Worker.pc wk); cbn;
        repeat match goal with
               | |- context [match ?x with _ => _ end] => destruct x; cbn
               end; auto. }
    specialize (Hargs wk). cbn beta in Hargs. revert Hargs He Hn.
    destruct (Worker.step (env w) (heap w) wk) as [h wk']. cbn. intros Hargs He Hn.
    repeat split; auto. intros t' wk'' H. destruct (decide (t = t')) as [<-|Hne].
    + rewrite lookup_insert_eq in H. injection H as <-. exists wk. tauto.
    + rewrite lookup_insert_ne in H by exact Hne. eauto.
  - destruct (on_worker_frame t (Worker.deliver r) w (deliver_same_args r))
      as (?&?&?&?&Hh&?). rewrite Hh. auto 10.
  - destruct (on_worker_frame t Worker.end_stream w end_stream_same_args)
      as (?&?&?&?&Hh&?). rewrite Hh. auto 10.
  - destruct (on_worker_frame t Worker.fail_stream w fail_stream_same_args)
      as (?&?&?&?&Hh&?). rewrite Hh. auto 10.
  - destruct (on_worker_frame t (Worker.device_frame data) w (device_frame_same_args data))
      as (?&?&?&?&Hh&?). rewrite Hh. auto 10.
  - destruct (on_worker_frame t Worker.client_pull w client_pull_same_args)
      as (?&?&?&?&Hh&?). rewrite Hh. auto 10.
  - cbn. repeat split; eauto.
Qed.

Lemma background_consistent (ev : event) (w : World) :
  background ev = true -> consistent w -> consistent (step ev w).
Proof.
  intros Hb [Hst Ht Hc Ho].
  destruct (background_frame ev w Hb) as (Hss & Hsc & Hlog & _ & _ & _ & Hw).
  constructor.
  - rewrite Hss. destruct Hst as [Hst|Hst]; [left; exact Hst|right].
    rewrite (session_of_stored (step ev w) (session w)) by congruence. exact Hst.
  - rewrite session_listening, session_thread, Hss, Hsc.
    rewrite <- session_listening, <- session_thread. exact Ht.
  - rewrite session_listening, Hss, Hlog, <- session_listening. exact Hc.
  - intros t wk' H. destruct (Hw t wk' H) as (wk & Hwk & -> & ->).
    rewrite Hss. exact (Ho t wk Hwk).
Qed.

Lemma step_consistent (ev : event) (w : World) :
  consistent w -> consistent (step ev w).
Proof.
  intros Hc. destruct (background ev) eqn:Hb; [apply background_consistent; assumption|].
  destruct ev; try discriminate; cbn [step].
  - destruct (script w) eqn:Hs; [apply main_consistent; assumption|exact Hc].
  - apply join_returns_consistent. exact Hc.
Qed.

Lemma run_snoc (evs : list event) (ev : event) (w : World) :
  run (evs ++ [ev]) w = step ev (run evs w).
Proof. unfold run. rewrite fold_left_app. reflexivity. Qed.

Lemma run_consistent (evs : list event) (w : World) :
  consistent w -> consistent (run evs w).
Proof.
  revert w. induction evs as [|ev evs IH]; intros w Hc; [exact Hc|].
  apply IH, step_consistent, Hc.
Qed.

Lemma initial_consistent (e : Worker.Env) : consistent (initial e).
Proof.
  constructor.
  - left. reflexivity.
  - cbn. discriminate.
  - reflexivity.
  - intros t wk H. cbn in H. rewrite lookup_empty in H. discriminate.
Qed.

Lemma reachable_consistent (w : World) : reachable w -> consistent w.
Proof. intros (e & evs & ->). apply run_consistent, initial_consistent. Qed.

End Threads.

(** ** Start and stop *)
Section StartStop.
Import Controller.

Lemma set_heap_same (w : World) : set_heap (heap w) w = w.
Proof. destruct w; reflexivity. Qed.

(** A run of the script on a stored session state. *)
Lemma main_stored (inp : Inputs) (w : World) (s : Session) :
  session_state w = store s ->
  main inp w =
  let '(w1, s1) := handle_start inp w s in
  let '(w2, s2, waiting) := handle_stop inp w1 s1 in
  match waiting with
  | Some t => set_script (InJoin t inp) (set_session_state (store s2) w2)
  | None => let '(w3, s3) := finish inp w2 s2 in set_session_state (store s3) w3
  end.
Proof.
  intros H. unfold main. rewrite H, state_management_stored, set_heap_same. reflexivity.
Qed.

Lemma session_set_stored (w : World) (s : Session) :
  session (set_session_state (store s) w) = s.
Proof. apply session_of_stored. reflexivity. Qed.

(** A reachable world in which the session is listening. *)
Lemma listening_world (w : World) :
  reachable w -> phase_of w = Listening ->
  session_state w = store (session w) /\ listening (session w) = true
  /\ script w = Ready /\ is_Some (thread (session w)).
Proof.
  intros Hr Hp. apply reachable_consistent in Hr. destruct Hr as [Hst Ht _ _].
  assert (listening (session w) = true) as Hl.
  { unfold phase_of in Hp. destruct (listening (session w)); [reflexivity|].
    destruct (script w); discriminate. }
  destruct (Ht Hl) as [Hth Hs]. repeat split; try assumption.
  destruct Hst as [Hst|Hst]; [|exact Hst].
  rewrite session_listening, Hst in Hl. discriminate.
Qed.

Lemma reachable_open_sessions (w : World) :
  reachable w -> open_sessions (log w) <= 1.
Proof.
  intros Hr. apply reachable_consistent in Hr. rewrite (counted w Hr).
  destruct (listening (session w)); lia.
Qed.

(** C4.  start() while the session is Listening is a no-op: the handler
    changes neither the world (no thread is started, the cancellation
    flag is not cleared) nor the session state, which stays Listening;
    so a run of the script in which start is pressed again starts no
    second worker, and in every reachable world at most one session is
    open. *)
Theorem start_while_listening_is_noop :
  (forall inp w s, listening s = true -> handle_start inp w s = (w, s))
  /\ (forall inp w,
        reachable w -> phase_of w = Listening ->
        start_button inp = true -> stop_button inp = false -> poll_fault inp = None ->
        let w' := step (Rerun inp) w in
        workers w' = workers w /\ next_tid w' = next_tid w
        /\ Heap.events (heap w') = Heap.events (heap w)
        /\ thread (session w') = thread (session w)
        /\ phase_of w' = Listening)
  /\ (forall w, reachable w -> open_sessions (log w) <= 1).
Proof.
  split; [|split].
  - intros inp w s Hl. unfold handle_start. rewrite Hl, andb_false_r. reflexivity.
  - intros inp w Hr Hp Hstart Hstop Hfault.
    destruct (listening_world w Hr Hp) as (Hst & Hl & Hs & _).
    cbn [step]. rewrite Hs, (main_stored inp w (session w) Hst).
    unfold handle_start, handle_stop, finish, process_results.
    rewrite Hl, Hstart, Hstop. cbn [andb negb]. rewrite Hl, Hfault.
    pose proof (consume_session
                  (Heap.contents (result_queue (session w)) (heap w))
                  (text_area inp) (session w)) as (H1 & _ & _ & H4).
    destruct (consume _ _ _) as [s' l]. cbn [fst] in H1, H4.
    unfold phase_of. rewrite session_set_stored. cbn. rewrite H1, H4, Hl. auto.
  - exact reachable_open_sessions.
Qed.

(** C5.  stop() while the session is Idle is a no-op: the handler leaves
    the world (in particular the cancellation flag and the effects) and
    the session state as they are, and does not wait for any thread. *)
Theorem stop_while_idle_is_noop (inp : Inputs) (w : World) :
  phase_of w = Idle ->
  handle_stop inp w (session w) = (w, session w, None).
Proof.
  intros Hp. unfold phase_of in Hp. unfold handle_stop.
  destruct (listening (session w)); [discriminate|].
  rewrite andb_false_r. reflexivity.
Qed.

(** While the script waits in [join], nothing but the return of [join]
    changes the session state, the place of the script or an Event. *)
Lemma waiting_frame (ev : event) (w : World) (t : nat) (inp : Inputs) :
  script w = InJoin t inp -> ev <> JoinReturns ->
  session_state (step ev w) = session_state w
  /\ script (step ev w) = script w
  /\ Heap.events (heap (step ev w)) = Heap.events (heap w).
Proof.
  intros Hs Hev. destruct (background ev) eqn:Hb.
  - destruct (background_frame ev w Hb) as (H1 & H2 & _ & _ & H3 & _). auto.
  - destruct ev; try discriminate; [|congruence]. cbn [step]. rewrite Hs. auto.
Qed.

Lemma waiting_run (evs : list event) (w : World) (t : nat) (inp : Inputs) :
  script w = InJoin t inp -> Forall (fun ev => ev <> JoinReturns) evs ->
  session_state (run evs w) = session_state w
  /\ script (run evs w) = script w
  /\ Heap.events (heap (run evs w)) = Heap.events (heap w).
Proof.
  revert w. induction evs as [|ev evs IH]; intros w Hs Hall; [auto|].
  apply Forall_cons in Hall as [Hev Hall].
  destruct (waiting_frame ev w t inp Hs Hev) as (H1 & H2 & H3).
  change (run (ev :: evs) w) with (run evs (step ev w)).
  destruct (IH (step ev w)) as (H4 & H5 & H6); [congruence|exact Hall|].
  repeat split; congruence.
Qed.

Lemma is_set_events (e : nat) (h h' : Heap.Heap) :
  Heap.events h' = Heap.events h -> Heap.is_set e h' = Heap.is_set e h.
Proof. unfold Heap.is_set. intros ->. reflexivity. Qed.

(** C6.  stop() while the session is Listening sets the cancellation
    flag and leaves the session Stopping, the script waiting in
    [join(timeout=1)] for the worker; whatever the worker and its
    environment do in the meantime, and whether or not the worker has
    ended, when [join] returns the session becomes Idle and the thread
    object is dropped. *)
Theorem stop_while_listening
        (inp : Inputs) (w : World) (evs : list event) :
  reachable w -> phase_of w = Listening -> stop_button inp = true ->
  Forall (fun ev => ev <> JoinReturns) evs ->
  let w1 := step (Rerun inp) w in
  let w2 := run evs w1 in
  let w3 := step JoinReturns w2 in
  exists t,
    thread (session w) = Some t
    /\ Heap.is_set (stop_event (session w)) (heap w1) = true
    /\ phase_of w1 = Stopping /\ script w1 = InJoin t inp
    /\ log w1 = log w ++ [ThreadJoin t 1]
    /\ Heap.is_set (stop_event (session w)) (heap w2) = true
    /\ phase_of w2 = Stopping
    /\ phase_of w3 = Idle /\ thread (session w3) = None /\ script w3 = Ready.
Proof.
  intros Hr Hp Hstop Hall w1 w2 w3.
  destruct (listening_world w Hr Hp) as (Hst & Hl & Hs & [t Ht]).
  exists t. split; [exact Ht|].
  assert (w1 = set_script (InJoin t inp)
                 (set_session_state
                    (store (set_listening false (session w)))
                    (emit [ThreadJoin t JOIN_TIMEOUT]
                       (set_heap (Heap.set (stop_event (session w)) (heap w)) w))))
    as Hw1.
  { subst w1. cbn [step]. rewrite Hs, (main_stored inp w (session w) Hst).
    unfold handle_start, handle_stop. rewrite Hl, andb_false_r, Hstop. cbn [andb].
    rewrite Hl. cbn [thread set_listening]. rewrite Ht. reflexivity. }
  assert (session w1 = set_listening false (session w)) as Hsess1.
  { rewrite Hw1. apply session_of_stored. reflexivity. }
  assert (script w1 = InJoin t inp) as Hs1 by (rewrite Hw1; reflexivity).
  destruct (waiting_run evs w1 t inp Hs1 Hall) as (Hss2 & Hs2 & Hev2).
  fold w2 in Hss2, Hs2, Hev2.
  assert (session w2 = set_listening false (session w)) as Hsess2.
  { apply session_of_stored. rewrite Hss2, Hw1. reflexivity. }
  assert (Heap.is_set (stop_event (session w)) (heap w1) = true) as Hset1.
  { rewrite Hw1. cbn [heap set_script set_session_state emit set_heap].
    apply is_set_set. }
  repeat split.
  - exact Hset1.
  - unfold phase_of. rewrite Hsess1, Hs1. reflexivity.
  - exact Hs1.
  - rewrite Hw1. reflexivity.
  - rewrite (is_set_events _ _ _ Hev2). exact Hset1.
  - unfold phase_of. rewrite Hsess2, Hs2, Hs1. reflexivity.
  - subst w3. cbn [step]. unfold join_returns. rewrite Hs2, Hs1.
    fold (session w2). unfold phase_of.
    assert (state_management (heap w2) (session_state w2)
            = (heap w2, set_listening false (session w))) as ->.
    { rewrite Hss2, Hw1. apply state_management_stored. }
    unfold after_join, finish, process_results. cbn. reflexivity.
  - subst w3. cbn [step]. unfold join_returns. rewrite Hs2, Hs1.
    assert (state_management (heap w2) (session_state w2)
            = (heap w2, set_listening false (session w))) as ->.
    { rewrite Hss2, Hw1. apply state_management_stored. }
    unfold after_join, finish, process_results. cbn. reflexivity.
  - subst w3. cbn [step]. unfold join_returns. rewrite Hs2, Hs1.
    assert (state_management (heap w2) (session_state w2)
            = (heap w2, set_listening false (session w))) as ->.
    { rewrite Hss2, Hw1. apply state_management_stored. }
    unfold after_join, finish, process_results. cbn. reflexivity.
Qed.

End StartStop.

(** ** Routing of the results *)
Section Routing.
Import Asr Router Worker.

Lemma forwarded_first_alternative (r : Response) (result : Result) (rest : list Result)
      (alt : Alternative) (alts : list Alternative) :
  results r = result :: rest -> alternatives result = alt :: alts ->
  forwarded r = Some (transcript alt, is_final result).
Proof. intros Hr Ha. unfold forwarded, route. rewrite Hr, Ha. reflexivity. Qed.

Lemma dropped_without_alternative (r : Response) :
  has_alternative r = false -> forwarded r = None /\ breaks r = false.
Proof.
  unfold has_alternative, forwarded, breaks, route.
  destruct (results r) as [|result rest]; [auto|].
  destruct (alternatives result); [auto|discriminate].
Qed.

Lemma breaks_spec (r : Response) :
  breaks r = true <->
  exists result rest alt alts,
    results r = result :: rest /\ alternatives result = alt :: alts
    /\ is_final result = true /\ ExitCommand.says_exit_or_quit (transcript alt).
Proof.
  unfold breaks, route. split.
  - destruct (results r) as [|result rest]; [discriminate|].
    destruct (alternatives result) as [|alt alts] eqn:Ha; [discriminate|].
    cbn. rewrite andb_true_iff, exit_command_spec. intros [Hf Hx].
    exists result, rest, alt, alts. auto.
  - intros (result & rest & alt & alts & -> & -> & Hf & Hx). cbn.
    rewrite andb_true_iff, exit_command_spec. auto.
Qed.

(** C2 (as amended).  While the cancellation flag is clear, the worker
    puts on the result queue, in the order received, the pair
    (transcript of the first alternative, is_final) of the first result
    of every response it takes from the stream, up to and including the
    first final result that is an exit command; a response without
    results, or whose first result has no alternative, is dropped
    silently and raises nothing.  The scripted stream of interim (Str.lit "hel"),
    interim (Str.lit "hello") and final (Str.lit "hello world") leaves exactly these three
    pairs on the queue, in that order. *)
Theorem worker_forwards_results_in_order :
  (forall r result rest alt alts,
      results r = result :: rest -> alternatives result = alt :: alts ->
      forwarded r = Some (transcript alt, is_final result))
  /\ (forall r, has_alternative r = false -> forwarded r = None /\ breaks r = false)
  /\ (forall env h w,
        pc w = AwaitResponse -> Heap.is_set (stop_event w) h = false ->
        let end_ := steps (3 * length (inbound w) + 1) env h w in
        Heap.contents (result_queue w) end_.1
        = Heap.contents (result_queue w) h ++ omap forwarded (handled (inbound w))
        /\ (service w <> StreamFailed -> forall e, pc end_.2 <> Raised e))
  /\ (let w := Controller.run
                 (Controller.started_with [interim (Str.lit "hel"); interim (Str.lit "hello"); final (Str.lit "hello world")]
                  ++ repeat (Controller.WorkerStep 0) 9)
                 (Controller.initial Controller.ready_env) in
      Heap.contents (Controller.result_queue (Controller.session w)) (Controller.heap w)
      = [(Str.lit "hel", false); (Str.lit "hello", false); (Str.lit "hello world", true)]).
Proof.
  split; [exact forwarded_first_alternative|].
  split; [exact dropped_without_alternative|].
  split; [|vm_compute; reflexivity].
  intros env h w Hpc Hflag end_.
  destruct (receive_loop env (inbound w) h w Hpc eq_refl Hflag) as [Hq Hend].
  fold end_ in Hq, Hend. split; [exact Hq|].
  intros Hs e He. destruct Hend as [Hend|Hend]; [congruence|].
  rewrite He in Hend. destruct (service w); congruence.
Qed.

(** C2 (as stated) fails: a result with an alternative that the service
    sends after a final (Str.lit "quit") is never put on the result queue. *)
Lemma result_after_exit_command_is_not_forwarded :
  let responses := [final (Str.lit "quit"); interim (Str.lit "hello")] in
  let w := Controller.run
             (Controller.started_with responses
              ++ [Controller.StreamEnd 0] ++ repeat (Controller.WorkerStep 0) 7)
             (Controller.initial Controller.ready_env) in
  Forall (fun r => has_alternative r = true) responses
  /\ Heap.is_set (Controller.stop_event (Controller.session w)) (Controller.heap w) = false
  /\ pc <$> Controller.workers w !! 0 = Some (Finished ExitCommandHeard)
  /\ Heap.contents (Controller.result_queue (Controller.session w)) (Controller.heap w)
     = [(Str.lit "quit", true)]
  /\ ~ In (Str.lit "hello", false)
         (Heap.contents (Controller.result_queue (Controller.session w)) (Controller.heap w)).
Proof.
  cbn zeta. split; [repeat constructor|].
  split; [vm_compute; reflexivity|].
  split; [vm_compute; reflexivity|].
  split; [vm_compute; reflexivity|].
  vm_compute. intros [H|[]]. discriminate.
Qed.

End Routing.

(** ** Cancellation *)
Section Cancellation.
Import Controller.

Lemma steps_S (n : nat) (env : Worker.Env) (h : Heap.Heap) (wk : Worker.Worker) :
  Worker.steps (S n) env h wk
  = Worker.steps n env (Worker.step env h wk).1 (Worker.step env h wk).2.
Proof. cbn [Worker.steps]. destruct (Worker.step env h wk). reflexivity. Qed.

Lemma step_await (env : Worker.Env) (h : Heap.Heap) (wk : Worker.Worker)
      (r : Asr.Response) (rest : list Asr.Response) :
  Worker.pc wk = Worker.AwaitResponse -> Worker.inbound wk = r :: rest ->
  Worker.step env h wk = (h, Worker.set_pc (Worker.CheckStop r) (Worker.set_inbound rest wk)).
Proof. intros Hpc Hi. unfold Worker.step. rewrite Hpc, Hi. reflexivity. Qed.

Lemma step_check_set (env : Worker.Env) (h : Heap.Heap) (wk : Worker.Worker)
      (r : Asr.Response) :
  Worker.pc wk = Worker.CheckStop r ->
  Heap.is_set (Worker.stop_event wk) h = true ->
  Worker.step env h wk = (h, Worker.leave_with (Worker.Finished Worker.Cancelled) wk).
Proof. intros Hpc Hset. unfold Worker.step. rewrite Hpc, Hset. reflexivity. Qed.

Lemma step_route (env : Worker.Env) (h : Heap.Heap) (wk : Worker.Worker)
      (r : Asr.Response) :
  Worker.pc wk = Worker.Route r ->
  Worker.step env h wk
  = (match Router.forwarded r with
     | Some x => Heap.put (Worker.result_queue wk) x h
     | None => h
     end,
     if Router.breaks r
     then Worker.leave_with (Worker.Finished Worker.ExitCommandHeard) wk
     else Worker.set_pc Worker.AwaitResponse wk).
Proof. intros Hpc. unfold Worker.step. rewrite Hpc. reflexivity. Qed.

Lemma step_ended (env : Worker.Env) (h : Heap.Heap) (wk : Worker.Worker) :
  Worker.running wk = false -> Worker.step env h wk = (h, wk).
Proof.
  unfold Worker.running, Worker.step. destruct (Worker.pc wk); try discriminate; reflexivity.
Qed.

(** With the flag set, a step of the thread puts on the queue at most
    what was pending, and nothing is pending afterwards unless it was. *)
Lemma cancelled_step (env : Worker.Env) (h : Heap.Heap) (wk : Worker.Worker) :
  Heap.is_set (Worker.stop_event wk) h = true ->
  let h' := (Worker.step env h wk).1 in
  let wk' := (Worker.step env h wk).2 in
  exists l,
    Heap.contents (Worker.result_queue wk) h' = Heap.contents (Worker.result_queue wk) h ++ l
    /\ length l + Worker.pending wk' <= Worker.pending wk.
Proof.
  intros Hset. unfold Worker.step, Worker.pending.
  destruct (Worker.pc wk) as [| |r|r|why|e] eqn:Hpc.
  - exists [].
    destruct (Worker.service_available env); [destruct (Mic.__enter__ _ _)|]; cbn;
      rewrite app_nil_r; split; (reflexivity || (cbn; lia)).
  - exists [].
    destruct (Worker.inbound wk); [destruct (Worker.service wk)|]; cbn;
      rewrite ?Hpc, app_nil_r; split; (reflexivity || (cbn; lia)).
  - rewrite Hset. cbn. exists []. rewrite app_nil_r. split; [reflexivity|cbn; lia].
  - destruct (Router.forwarded r) as [x|].
    + exists [x]. cbn [fst snd]. rewrite contents_put. split; [reflexivity|].
      destruct (Router.breaks r); cbn; lia.
    + exists []. cbn [fst snd]. rewrite app_nil_r. split; [reflexivity|].
      destruct (Router.breaks r); cbn; lia.
  - exists []. cbn [fst snd]. rewrite app_nil_r, Hpc. split; [reflexivity|cbn; lia].
  - exists []. cbn [fst snd]. rewrite app_nil_r, Hpc. split; [reflexivity|cbn; lia].
Qed.

Lemma concerns_background (t : nat) (ev : event) :
  concerns t ev = true -> background ev = true.
Proof. destruct ev; cbn; congruence. Qed.

Lemma on_worker_lookup (t : nat) (f : Worker.Worker -> Worker.Worker)
      (w : World) (wk : Worker.Worker) :
  workers w !! t = Some wk ->
  workers (on_worker t f w) !! t = Some (f wk) /\ heap (on_worker t f w) = heap w.
Proof.
  intros H. unfold on_worker. rewrite H. cbn. rewrite lookup_insert_eq. auto.
Qed.

Lemma deliver_keeps_pc (r : Asr.Response) : Worker.keeps_pc (Worker.deliver r).
Proof. intros wk. unfold Worker.deliver. destruct (Worker.receiving wk); reflexivity. Qed.

Lemma end_stream_keeps_pc : Worker.keeps_pc Worker.end_stream.
Proof. intros wk. unfold Worker.end_stream. destruct (Worker.receiving wk); reflexivity. Qed.

Lemma fail_stream_keeps_pc : Worker.keeps_pc Worker.fail_stream.
Proof. intros wk. unfold Worker.fail_stream. destruct (Worker.receiving wk); reflexivity. Qed.

Lemma device_frame_keeps_pc (data : Mic.chunk) : Worker.keeps_pc (Worker.device_frame data).
Proof.
  intros wk. unfold Worker.device_frame.
  destruct (Worker.stream wk) as [m|]; [destruct (Mic.audio_stream_open m)|]; reflexivity.
Qed.

Lemma client_pull_keeps_pc : Worker.keeps_pc Worker.client_pull.
Proof.
  intros wk. unfold Worker.client_pull.
  destruct (Worker.stream wk) as [m|]; [|reflexivity].
  destruct (Mic.generator_step m (Worker.requests wk)) as [[m' g] out]. reflexivity.
Qed.

Lemma cancelled_on_worker (t : nat) (f : Worker.Worker -> Worker.Worker)
      (w : World) (wk : Worker.Worker) :
  Worker.same_args f -> Worker.keeps_pc f ->
  workers w !! t = Some wk ->
  Heap.is_set (Worker.stop_event wk) (heap w) = true ->
  cancelled_progress t wk w (on_worker t f w).
Proof.
  intros Hargs Hpc Hwk Hset. destruct (on_worker_lookup t f w wk Hwk) as [Hl Hh].
  destruct (Hargs wk) as [He Hq].
  exists (f wk), []. rewrite Hh, app_nil_r. repeat split; auto.
  unfold Worker.pending. rewrite Hpc. cbn. lia.
Qed.

Lemma cancelled_event (ev : event) (t : nat) (w : World) (wk : Worker.Worker) :
  workers w !! t = Some wk ->
  Heap.is_set (Worker.stop_event wk) (heap w) = true ->
  concerns t ev = true ->
  cancelled_progress t wk w (step ev w).
Proof.
  intros Hwk Hset Hc.
  destruct ev as [inp| |t'|t' r|t'|t'|t' data|t'|e]; cbn in Hc; try discriminate;
    try (apply Nat.eqb_eq in Hc; subst t'); cbn [step].
  - rewrite Hwk.
    destruct (cancelled_step (env w) (heap w) wk Hset) as (l & Hq & Hlen).
    destruct (step_same_args (env w) (heap w) wk) as [He Hr].
    pose proof (background_frame (WorkerStep t) w eq_refl) as (_&_&_&_&Hev&_).
    cbn [step] in Hev. rewrite Hwk in Hev.
    destruct (Worker.step (env w) (heap w) wk) as [h wk']. cbn [fst snd] in *.
    exists wk', l. cbn [workers heap set_worker set_heap] in *.
    rewrite lookup_insert_eq. repeat split; auto.
    rewrite (is_set_events _ _ _ Hev). exact Hset.
  - apply cancelled_on_worker; auto using deliver_same_args, deliver_keeps_pc.
  - apply cancelled_on_worker; auto using end_stream_same_args, end_stream_keeps_pc.
  - apply cancelled_on_worker; auto using fail_stream_same_args, fail_stream_keeps_pc.
  - apply cancelled_on_worker; auto using device_frame_same_args, device_frame_keeps_pc.
  - apply cancelled_on_worker; auto using client_pull_same_args, client_pull_keeps_pc.
  - exists wk, []. cbn. rewrite app_nil_r. repeat split; auto.
Qed.

End Cancellation.

(** ** Failures of the worker *)
Section Failures.
Import Controller.

Lemma reachable_step (ev : event) (w : World) : reachable w -> reachable (step ev w).
Proof.
  intros (e & evs & ->). exists e, (evs ++ [ev]). symmetry. apply run_snoc.
Qed.

Lemma reachable_run (evs : list event) (w : World) : reachable w -> reachable (run evs w).
Proof.
  revert w. induction evs as [|ev evs IH]; intros w Hr; [exact Hr|].
  apply IH, reachable_step, Hr.
Qed.

(** A session stays Listening for as long as the user presses nothing
    and the polling does not fail, whatever happens to its worker. *)
Lemma quiet_step_keeps_listening (ev : event) (w : World) :
  reachable w -> phase_of w = Listening -> quiet ev = true ->
  phase_of (step ev w) = Listening.
Proof.
  intros Hr Hp Hq. destruct (listening_world w Hr Hp) as (Hst & Hl & Hs & _).
  destruct (background ev) eqn:Hb.
  - destruct (background_frame ev w Hb) as (Hss & Hsc & _).
    unfold phase_of in *. rewrite session_listening, Hss, <- session_listening, Hl.
    reflexivity.
  - destruct ev as [inp| | | | | | | |]; try discriminate. cbn in Hq.
    apply andb_true_iff in Hq as [Hq Hfault]. apply andb_true_iff in Hq as [Hstart Hstop].
    apply negb_true_iff in Hstart, Hstop. unfold faultless in Hfault.
    destruct (poll_fault inp) as [f|] eqn:Hf; [discriminate|]. clear Hfault.
    cbn [step]. rewrite Hs, (main_stored inp w (session w) Hst).
    unfold handle_start, handle_stop, finish, process_results.
    rewrite Hstart, Hstop. cbn [andb]. rewrite Hl, Hf.
    pose proof (consume_session
                  (Heap.contents (result_queue (session w)) (heap w))
                  (text_area inp) (session w)) as (H1 & _).
    destruct (consume _ _ _) as [s' l]. cbn [fst] in H1.
    unfold phase_of. rewrite session_set_stored, H1, Hl. reflexivity.
Qed.

Lemma quiet_run_keeps_listening (evs : list event) (w : World) :
  reachable w -> phase_of w = Listening -> Forall (fun ev => quiet ev = true) evs ->
  phase_of (run evs w) = Listening.
Proof.
  revert w. induction evs as [|ev evs IH]; intros w Hr Hp Hall; [exact Hp|].
  apply Forall_cons in Hall as [Hq Hall].
  apply IH; [apply reachable_step, Hr|apply quiet_step_keeps_listening; assumption|exact Hall].
Qed.

(** C9 (divergence).  The service breaks the stream of a listening
    session: the worker dies of the error, and the session is still
    Listening after any number of further runs of the script. *)
Theorem worker_failure_leaves_session_listening (n : nat) :
  let w := run (repeat (Rerun press_nothing) n) (run broken_stream (initial ready_env)) in
  Worker.pc <$> workers w !! 0 = Some (Worker.Raised Worker.TranscriptionServiceError)
  /\ phase_of w = Listening.
Proof.
  cbn zeta.
  assert (reachable (run broken_stream (initial ready_env))) as Hr
      by (exists ready_env, broken_stream; reflexivity).
  assert (phase_of (run broken_stream (initial ready_env)) = Listening) as Hp
      by (vm_compute; reflexivity).
  assert (Worker.pc <$> workers (run broken_stream (initial ready_env)) !! 0
          = Some (Worker.Raised Worker.TranscriptionServiceError)) as Hw
      by (vm_compute; reflexivity).
  revert Hr Hp Hw. generalize (run broken_stream (initial ready_env)). intros w0 Hr Hp Hw.
  split.
  - clear Hp. revert w0 Hw Hr.
    induction n as [|n IH]; intros w0 Hw Hr; [exact Hw|].
    cbn [repeat]. change (run (?ev :: ?evs) ?w) with (run evs (step ev w)).
    apply IH; [|apply reachable_step, Hr].
    cbn [step]. destruct (script w0); [|exact Hw].
    unfold main. destruct (state_management _ _) as [h s].
    unfold handle_start, handle_stop, finish, process_results. cbn.
    repeat match goal with
           | |- context [consume ?a ?b ?c] => destruct (consume a b c)
           | |- context [if ?b then _ else _] => destruct b
           end; exact Hw.
  - apply quiet_run_keeps_listening; [exact Hr|exact Hp|].
    apply Forall_forall. intros ev Hin. apply list_elem_of_In, repeat_spec in Hin.
    subst ev. reflexivity.
Qed.

End Failures.

(** ** The result queue across sessions *)
Section ResultQueue.
Import Controller.

Lemma run_app_events (evs1 evs2 : list event) (w : World) :
  run (evs1 ++ evs2) w = run evs2 (run evs1 w).
Proof. apply fold_left_app. Qed.

Lemma handle_start_result_queue (inp : Inputs) (w : World) (s : Session) :
  result_queue (handle_start inp w s).2 = result_queue s.
Proof. unfold handle_start. destruct (_ && _); reflexivity. Qed.

Lemma handle_stop_result_queue (inp : Inputs) (w : World) (s : Session) :
  result_queue (handle_stop inp w s).1.2 = result_queue s.
Proof. unfold handle_stop. destruct (_ && _); [destruct (thread _)|]; reflexivity. Qed.

Lemma finish_result_queue (inp : Inputs) (w : World) (s : Session) :
  result_queue (finish inp w s).2 = result_queue s.
Proof.
  unfold finish, process_results. destruct (listening s) eqn:Hl.
  - destruct (poll_fault inp) as [f|].
    + pose proof (interrupted_session
                    f (Heap.contents (result_queue s) (heap w)) (text_area inp) s)
        as (_ & _ & H & _).
      destruct (interrupted _ _ _ _) as [[s' l] kept]. exact H.
    + pose proof (consume_session (Heap.contents (result_queue s) (heap w)) (text_area inp) s)
        as (_ & _ & H & _).
      destruct (consume _ _ _) as [s' l]. exact H.
  - cbn. rewrite Hl. reflexivity.
Qed.

(** The result queue of the session state is never replaced. *)
Lemma result_queue_kept (ev : event) (w : World) (q : nat) :
  ss_result_queue (session_state w) = Some q ->
  ss_result_queue (session_state (step ev w)) = Some q.
Proof.
  intros Hq. destruct (background ev) eqn:Hb.
  - destruct (background_frame ev w Hb) as (Hss & _). rewrite Hss. exact Hq.
  - pose proof (session_result_queue w q Hq) as Hs. unfold session in Hs.
    destruct ev; try discriminate; cbn [step].
    + destruct (script w); [|exact Hq]. unfold main.
      destruct (state_management (heap w) (session_state w)) as [h s]. cbn [snd] in Hs.
      pose proof (handle_start_result_queue inp (set_heap h w) s) as H1.
      destruct (handle_start inp (set_heap h w) s) as [w1 s1]. cbn [snd] in H1.
      pose proof (handle_stop_result_queue inp w1 s1) as H2.
      destruct (handle_stop inp w1 s1) as [[w2 s2] waiting]. cbn [fst snd] in H2.
      destruct waiting.
      * cbn. congruence.
      * pose proof (finish_result_queue inp w2 s2) as H3.
        destruct (finish inp w2 s2) as [w3 s3]. cbn [snd] in H3. cbn. congruence.
    + unfold join_returns. destruct (script w); [exact Hq|].
      destruct (state_management (heap w) (session_state w)) as [h s]. cbn [snd] in Hs.
      unfold after_join.
      pose proof (finish_result_queue inp
                    (emit [UiInfo "Listening stopped."] (set_heap h w))
                    (set_thread None s)) as H3.
      destruct (finish _ _ _) as [w3 s3]. cbn [snd] in H3. cbn in *. congruence.
Qed.

(** The only step of a thread that changes the heap is the routing of
    a response with an alternative. *)
Lemma step_heap (env : Worker.Env) (h : Heap.Heap) (wk : Worker.Worker) :
  (Worker.step env h wk).1
  = match Worker.pc wk with
    | Worker.Route r =>
        match Router.forwarded r with
        | Some x => Heap.put (Worker.result_queue wk) x h
        | None => h
        end
    | _ => h
    end.
Proof.
  unfold Worker.step. destruct (Worker.pc wk) as [| |r|r|why|e]; try reflexivity.
  - destruct (Worker.service_available env); [destruct (Mic.__enter__ _ _)|]; reflexivity.
  - destruct (Worker.inbound wk); [destruct (Worker.service wk)|]; reflexivity.
  - destruct (Heap.is_set _ _); reflexivity.
Qed.

(** Events of the background only add to a result queue. *)
Lemma background_contents (ev : event) (w : World) (q : nat) :
  background ev = true ->
  exists l, Heap.contents q (heap (step ev w)) = Heap.contents q (heap w) ++ l.
Proof.
  intros Hb. destruct ev as [inp| |t|t r|t|t|t data|t|e]; try discriminate; cbn [step];
    try (unfold on_worker; destruct (workers w !! t); exists []; rewrite app_nil_r;
         reflexivity).
  - destruct (workers w !! t) as [wk|]; [|exists []; rewrite app_nil_r; reflexivity].
    pose proof (step_heap (env w) (heap w) wk) as Hh.
    destruct (Worker.step (env w) (heap w) wk) as [h' wk']. cbn [fst] in Hh. subst h'.
    cbn [heap set_worker set_heap].
    destruct (Worker.pc wk) as [| |r|r|why|e];
      try (exists []; rewrite app_nil_r; reflexivity).
    destruct (Router.forwarded r) as [x|].
    + destruct (decide (Worker.result_queue wk = q)) as [<-|Hne].
      * exists [x]. apply contents_put.
      * exists []. rewrite app_nil_r. apply contents_put_ne. exact Hne.
    + exists []. rewrite app_nil_r. reflexivity.
  - exists []. rewrite app_nil_r. reflexivity.
Qed.

Lemma background_run (evs : list event) (w : World) (q : nat) :
  Forall (fun ev => background ev = true) evs ->
  session_state (run evs w) = session_state w /\ script (run evs w) = script w
  /\ log (run evs w) = log w /\ next_tid (run evs w) = next_tid w
  /\ exists l, Heap.contents q (heap (run evs w)) = Heap.contents q (heap w) ++ l.
Proof.
  revert w. induction evs as [|ev evs IH]; intros w Hall.
  - repeat split. exists []. rewrite app_nil_r. reflexivity.
  - apply Forall_cons in Hall as [Hb Hall].
    change (run (ev :: evs) w) with (run evs (step ev w)).
    destruct (background_frame ev w Hb) as (H1 & H2 & H3 & H4 & _).
    destruct (background_contents ev w q Hb) as [l1 Hl1].
    destruct (IH (step ev w) Hall) as (H5 & H6 & H7 & H8 & l2 & Hl2).
    repeat split; try congruence.
    exists (l1 ++ l2). rewrite Hl2, Hl1, app_assoc. reflexivity.
Qed.

Lemma gets_app (l1 l2 : list effect) : gets (l1 ++ l2) = gets l1 ++ gets l2.
Proof. apply flat_map_app. Qed.

(** The run of the script in which stop is pressed on a listening
    session, up to its call of [join]. *)
Lemma stop_rerun (inp : Inputs) (w : World) :
  reachable w -> phase_of w = Listening -> stop_button inp = true ->
  exists t,
    thread (session w) = Some t
    /\ step (Rerun inp) w
       = set_script (InJoin t inp)
           (set_session_state
              (store (set_listening false (session w)))
              (emit [ThreadJoin t JOIN_TIMEOUT]
                 (set_heap (Heap.set (stop_event (session w)) (heap w)) w))).
Proof.
  intros Hr Hp Hstop. destruct (listening_world w Hr Hp) as (Hst & Hl & Hs & [t Ht]).
  exists t. split; [exact Ht|].
  cbn [step]. rewrite Hs, (main_stored inp w (session w) Hst).
  unfold handle_start, handle_stop. rewrite Hl, andb_false_r, Hstop. cbn [andb].
  rewrite Hl. cbn [thread set_listening]. rewrite Ht. reflexivity.
Qed.

(** The rest of that run, when [join] has returned. *)
Lemma join_rerun (w : World) (t : nat) (inp : Inputs) (s : Session) :
  script w = InJoin t inp -> session_state w = store s -> listening s = false ->
  step JoinReturns w
  = set_script Ready
      (set_session_state (store (set_thread None s))
         (emit [UiClearInterim] (emit [UiInfo "Listening stopped."] w))).
Proof.
  intros Hs Hst Hl. cbn [step]. unfold join_returns.
  rewrite Hs, Hst, state_management_stored, set_heap_same.
  unfold after_join, finish, process_results. cbn [listening set_thread].
  rewrite Hl. cbn [listening set_thread]. rewrite Hl. reflexivity.
Qed.

(** The run of the script that starts a session polls the result queue
    and takes whatever it holds. *)
Lemma start_rerun (inp : Inputs) (w : World) (s : Session) :
  script w = Ready -> session_state w = store s -> listening s = false ->
  start_button inp = true -> stop_button inp = false -> poll_fault inp = None ->
  let w' := step (Rerun inp) w in
  gets (log w') = gets (log w) ++ Heap.contents (result_queue s) (heap w)
  /\ phase_of w' = Listening /\ thread (session w') = Some (next_tid w).
Proof.
  intros Hs Hst Hl Hstart Hstop Hfault. cbn zeta. cbn [step].
  rewrite Hs, (main_stored inp w s Hst).
  unfold handle_start, handle_stop, finish, process_results.
  rewrite Hstart, Hl, Hstop.
  cbn [andb negb thread_start set_listening set_thread listening
       stop_event result_queue thread set_heap emit
       env heap session_state workers next_tid script log].
  rewrite Hfault.
  match goal with
  | |- context [consume ?items ?ft ?s0] =>
      pose proof (consume_session items ft s0) as (H1 & _ & _ & H4);
      pose proof (consume_gets items ft s0) as Hg;
      destruct (consume items ft s0) as [s' l]
  end.
  cbn [fst snd listening thread] in H1, H4, Hg.
  unfold phase_of. rewrite session_set_stored. cbn [log set_session_state script].
  rewrite H1, H4. repeat split.
  unfold Heap.clear in Hg. rewrite contents_write_event in Hg.
  cbn [log emit set_heap]. rewrite !gets_app. cbn [gets flat_map app].
  rewrite gets_app, Hg. cbn [gets flat_map app]. rewrite !app_nil_r. reflexivity.
Qed.

(** Results left on the queue when a session is stopped are taken by the
    polling of the run that starts the next session. *)
Lemma leftovers_delivered (w : World) (inp_stop inp_start : Inputs)
      (evs1 evs2 : list event) :
  reachable w -> phase_of w = Listening -> stop_button inp_stop = true ->
  Forall (fun ev => background ev = true) evs1 ->
  Forall (fun ev => background ev = true) evs2 ->
  start_button inp_start = true -> stop_button inp_start = false ->
  poll_fault inp_start = None ->
  let w' := run (Rerun inp_stop :: evs1 ++ JoinReturns :: evs2 ++ [Rerun inp_start]) w in
  exists more,
    gets (log w')
    = gets (log w) ++ Heap.contents (result_queue (session w)) (heap w) ++ more
    /\ phase_of w' = Listening
    /\ thread (session w') = Some (next_tid w).
Proof.
  intros Hr Hp Hstop Hb1 Hb2 Hstart Hnostop Hfault. cbn zeta.
  set (q := result_queue (session w)).
  change (run (Rerun inp_stop :: ?evs) w) with (run evs (step (Rerun inp_stop) w)).
  destruct (stop_rerun inp_stop w Hr Hp Hstop) as (t & Ht & Hw1).
  set (w1 := step (Rerun inp_stop) w) in *.
  rewrite run_app_events.
  destruct (background_run evs1 w1 q Hb1) as (Hss2 & Hs2 & Hlog2 & Hn2 & l1 & Hq2).
  set (w2 := run evs1 w1) in *.
  change (run (JoinReturns :: ?evs) w2) with (run evs (step JoinReturns w2)).
  assert (step JoinReturns w2
          = set_script Ready
              (set_session_state
                 (store (set_thread None (set_listening false (session w))))
                 (emit [UiClearInterim] (emit [UiInfo "Listening stopped."] w2))))
    as Hw3.
  { apply (join_rerun w2 t inp_stop); [rewrite Hs2, Hw1|rewrite Hss2, Hw1|]; reflexivity. }
  set (w3 := step JoinReturns w2) in *.
  rewrite run_app_events.
  destruct (background_run evs2 w3 q Hb2) as (Hss4 & Hs4 & Hlog4 & Hn4 & l2 & Hq4).
  set (w4 := run evs2 w3) in *.
  change (run [Rerun inp_start] w4) with (step (Rerun inp_start) w4).
  destruct (start_rerun inp_start w4
              (set_thread None (set_listening false (session w))))
    as (Hg & Hph & Hth); try assumption.
  - rewrite Hs4, Hw3. reflexivity.
  - rewrite Hss4, Hw3. reflexivity.
  - reflexivity.
  - exists (l1 ++ l2). split; [|split; [exact Hph|]].
    + rewrite Hg. cbn [result_queue set_thread set_listening]. fold q.
      rewrite Hq4, Hlog4, Hw3. cbn [heap log set_script set_session_state emit].
      rewrite Hq2, Hlog2, Hw1. cbn [heap log set_script set_session_state emit set_heap].
      unfold Heap.set. rewrite contents_write_event.
      rewrite !gets_app. cbn [gets flat_map app]. rewrite !app_nil_r, <- !app_assoc.
      reflexivity.
    + rewrite Hth, Hn4, Hw3. cbn [next_tid set_script set_session_state emit].
      rewrite Hn2, Hw1. reflexivity.
Qed.

Lemma first_run_creates_queue (e : Worker.Env) (inp : Inputs) :
  is_Some (ss_result_queue (session_state (step (Rerun inp) (initial e)))).
Proof.
  cbn [step initial script]. unfold main.
  destruct (state_management _ _) as [h s].
  destruct (handle_start inp _ s) as [w1 s1].
  destruct (handle_stop inp w1 s1) as [[w2 s2] [t|]].
  - cbn. eauto.
  - destruct (finish inp w2 s2) as [w3 s3]. cbn. eauto.
Qed.

(** An event of one thread leaves the other threads as they are. *)
Lemma other_threads_untouched (ev : event) (t t' : nat) (w : World) :
  concerns t' ev = true -> t <> t' -> workers (step ev w) !! t = workers w !! t.
Proof.
  intros Hc Hne.
  destruct ev as [inp| |t0|t0 r|t0|t0|t0 data|t0|e]; cbn in Hc; try discriminate;
    try (apply Nat.eqb_eq in Hc; subst t0); cbn [step]; try reflexivity;
    try (unfold on_worker; destruct (workers w !! t'); [|reflexivity];
         cbn; apply lookup_insert_ne; congruence).
  destruct (workers w !! t'); [|reflexivity].
  destruct (Worker.step _ _ _) as [h wk']. cbn. apply lookup_insert_ne. congruence.
Qed.

(** C10.  The result queue is created by the first run of the script
    and never replaced: every later world holds the same queue, and
    every worker ever started puts its results on it.  So the results
    still on the queue when a session is stopped stay there, and the
    polling of the run that starts the next session takes them, in
    order, before anything newer.  The chunk buffer, on the contrary,
    belongs to the stream object that each worker creates for itself:
    it is empty when the worker starts, and the events of another
    thread do not touch it. *)
Theorem result_queue_outlives_sessions :
  (forall e inp,
      is_Some (ss_result_queue (session_state (step (Rerun inp) (initial e)))))
  /\ (forall evs w q,
        ss_result_queue (session_state w) = Some q ->
        ss_result_queue (session_state (run evs w)) = Some q)
  /\ (forall w t wk,
        reachable w -> workers w !! t = Some wk ->
        ss_result_queue (session_state w) = Some (Worker.result_queue wk))
  /\ (forall w inp_stop inp_start evs1 evs2,
        reachable w -> phase_of w = Listening -> stop_button inp_stop = true ->
        Forall (fun ev => background ev = true) evs1 ->
        Forall (fun ev => background ev = true) evs2 ->
        start_button inp_start = true -> stop_button inp_start = false ->
        poll_fault inp_start = None ->
        let w' := run (Rerun inp_stop :: evs1 ++ JoinReturns :: evs2 ++ [Rerun inp_start]) w in
        exists more,
          gets (log w')
          = gets (log w) ++ Heap.contents (result_queue (session w)) (heap w) ++ more
          /\ phase_of w' = Listening
          /\ thread (session w') = Some (next_tid w))
  /\ (forall env h e q lang m,
        Worker.stream (Worker.step env h (Worker.spawn e q lang)).2 = Some m ->
        Mic.buff m = [])
  /\ (forall ev t t' w,
        concerns t' ev = true -> t <> t' -> workers (step ev w) !! t = workers w !! t).
Proof.
  split; [exact first_run_creates_queue|]. split; [|split; [|split; [|split]]].
  - intros evs. induction evs as [|ev evs IH]; intros w q Hq; [exact Hq|].
    apply IH, result_queue_kept, Hq.
  - intros w t wk Hr Hwk. apply reachable_consistent in Hr.
    destruct (same_objects w Hr t wk Hwk) as [_ H]. exact H.
  - intros w inp_stop inp_start evs1 evs2. apply leftovers_delivered.
  - intros env h e q lang m. unfold Worker.step, Mic.__enter__. cbn.
    destruct (Worker.service_available env); [|discriminate].
    destruct (Worker.device_available env); [|discriminate].
    cbn. intros [= <-]. reflexivity.
  - exact other_threads_untouched.
Qed.

End ResultQueue.

(** ** The properties at work on the scenarios *)
Section Scenarios.
Import Controller.

(** The scan on a few transcripts. *)
Example scan_exit : ExitCommand.exit_command (Str.lit "please exit now") = true.
Proof. reflexivity. Qed.

Example scan_exitway : ExitCommand.exit_command (Str.lit "the exitway is blocked") = false.
Proof. reflexivity. Qed.

Example scan_capitals : ExitCommand.exit_command (Str.lit "Quit.") = true.
Proof. reflexivity. Qed.

Example scan_underscore : ExitCommand.exit_command (Str.lit "exit_now") = false.
Proof. reflexivity. Qed.

Example scan_hyphen : ExitCommand.exit_command (Str.lit "exit-now") = true.
Proof. reflexivity. Qed.

Example scan_digit : ExitCommand.exit_command (Str.lit "re-exit1") = false.
Proof. reflexivity. Qed.

Example scan_glued : ExitCommand.exit_command (Str.lit "exitquit") = false.
Proof. reflexivity. Qed.

Example scan_empty : ExitCommand.exit_command (Str.lit "") = false.
Proof. reflexivity. Qed.

(** Beyond ASCII: under [re.I] the letter i also matches the dotted
    capital (U+0130) and the dotless small letter (U+0131); an
    ideograph is a word character, so that no word begins after it. *)
Example scan_dotted_capital : ExitCommand.exit_command [101; 120; 304; 116]%N = true.
Proof. vm_compute. reflexivity. Qed.

Example scan_dotless : ExitCommand.exit_command [113; 117; 305; 116]%N = true.
Proof. vm_compute. reflexivity. Qed.

Example scan_after_ideograph :
  ExitCommand.exit_command ([20986; 21475] ++ Str.lit "exit")%N = false.
Proof. vm_compute. reflexivity. Qed.

(** Two chunks and the marker are in the buffer before the generator
    is first advanced: it yields nothing.  The same chunks with the
    marker pushed after the batch has been yielded: one batch. *)
Example two_chunks_then_marker :
  let g := Mic.run (repeat Mic.Next 4)
             (Mic.start_of (Mic.capturing [Some [Byte.x61]; Some [Byte.x62]; None])) in
  Mic.pc g = Mic.Returned /\ Mic.yielded g = [] /\ Mic.buff (Mic.mic g) = [].
Proof. repeat split; reflexivity. Qed.

Example two_chunks_marker_later :
  let g := Mic.run (repeat Mic.Next 4 ++ [Mic.Push None; Mic.Next; Mic.Next])
             (Mic.start_of (Mic.capturing [Some [Byte.x61]; Some [Byte.x62]])) in
  Mic.pc g = Mic.Returned /\ Mic.yielded g = [[Byte.x61; Byte.x62]].
Proof. repeat split; reflexivity. Qed.

Lemma worker_forwards_results_in_order_witness :
  let wk := awaiting [Asr.interim (Str.lit "hel"); Asr.mkResponse []; Asr.final (Str.lit "quit");
                      Asr.interim (Str.lit "late")] in
  let end_ := Worker.steps (3 * length (Worker.inbound wk) + 1) ready_env Heap.empty wk in
  Router.forwarded (Asr.interim (Str.lit "hel")) = Some (Str.lit "hel", false)
  /\ (Router.forwarded (Asr.mkResponse []) = None
      /\ Router.breaks (Asr.mkResponse []) = false)
  /\ Heap.contents (Worker.result_queue wk) end_.1
     = Heap.contents (Worker.result_queue wk) Heap.empty
       ++ omap Router.forwarded (Router.handled (Worker.inbound wk))
  /\ (Worker.service wk <> Asr.StreamFailed -> forall e, Worker.pc end_.2 <> Worker.Raised e).
Proof.
  cbn zeta. destruct worker_forwards_results_in_order as (H1 & H2 & H3 & _).
  split; [|split].
  - apply (H1 (Asr.interim (Str.lit "hel")) (Asr.mkResult [Asr.mkAlt (Str.lit "hel")] false) []
              (Asr.mkAlt (Str.lit "hel")) []); reflexivity.
  - apply (H2 (Asr.mkResponse [])). reflexivity.
  - apply (H3 ready_env Heap.empty
              (awaiting [Asr.interim (Str.lit "hel"); Asr.mkResponse []; Asr.final (Str.lit "quit");
                         Asr.interim (Str.lit "late")])); reflexivity.
Defined.

Lemma start_while_listening_is_noop_witness :
  let w := listening_session in
  let w' := step (Rerun press_start) w in
  handle_start press_start w (session w) = (w, session w)
  /\ (workers w' = workers w /\ next_tid w' = next_tid w
      /\ Heap.events (heap w') = Heap.events (heap w)
      /\ thread (session w') = thread (session w)
      /\ phase_of w' = Listening)
  /\ open_sessions (log w) <= 1.
Proof.
  cbn zeta. destruct start_while_listening_is_noop as (H1 & H2 & H3).
  assert (reachable listening_session) as Hr
      by (exists ready_env, (started_with []); reflexivity).
  split; [|split].
  - apply (H1 press_start listening_session (session listening_session)).
    vm_compute. reflexivity.
  - apply (H2 press_start listening_session Hr); vm_compute; reflexivity.
  - apply (H3 listening_session Hr).
Defined.

Lemma stop_while_idle_is_noop_witness :
  phase_of (initial ready_env) = Idle
  /\ handle_stop press_stop (initial ready_env) (session (initial ready_env))
     = (initial ready_env, session (initial ready_env), None).
Proof.
  split; [reflexivity|].
  apply (stop_while_idle_is_noop press_stop (initial ready_env)). reflexivity.
Defined.

Lemma stop_while_listening_witness :
  let w := listening_session in
  let evs := [Deliver 0 (Asr.interim (Str.lit "hel")); WorkerStep 0] in
  let w1 := step (Rerun press_stop) w in
  let w2 := run evs w1 in
  let w3 := step JoinReturns w2 in
  exists t,
    thread (session w) = Some t
    /\ Heap.is_set (stop_event (session w)) (heap w1) = true
    /\ phase_of w1 = Stopping /\ script w1 = InJoin t press_stop
    /\ log w1 = log w ++ [ThreadJoin t 1]
    /\ Heap.is_set (stop_event (session w)) (heap w2) = true
    /\ phase_of w2 = Stopping
    /\ phase_of w3 = Idle /\ thread (session w3) = None /\ script w3 = Ready.
Proof.
  cbn zeta.
  apply (stop_while_listening press_stop listening_session
           [Deliver 0 (Asr.interim (Str.lit "hel")); WorkerStep 0]).
  - exists ready_env, (started_with []). reflexivity.
  - vm_compute. reflexivity.
  - reflexivity.
  - repeat constructor; discriminate.
Defined.

Lemma result_queue_outlives_sessions_witness :
  let w := undrained_session in
  let w' := run (Rerun press_stop :: [WorkerStep 0] ++ JoinReturns :: []
                 ++ [Rerun press_start]) w in
  ss_result_queue (session_state (run [Rerun press_stop; JoinReturns] w)) = Some 1
  /\ ss_result_queue (session_state w) = Some (Worker.result_queue (worker_of 0 w))
  /\ (exists more,
        gets (log w')
        = gets (log w) ++ Heap.contents (result_queue (session w)) (heap w) ++ more
        /\ phase_of w' = Listening
        /\ thread (session w') = Some (next_tid w))
  /\ Mic.buff (Mic.capturing []) = []
  /\ workers (step (WorkerStep 1) w') !! 0 = workers w' !! 0.
Proof.
  cbn zeta. destruct result_queue_outlives_sessions as (_ & H2 & H3 & H4 & H5 & H6).
  assert (reachable undrained_session) as Hr.
  { exists ready_env,
      (started_with [Asr.interim (Str.lit "hel")] ++ repeat (WorkerStep 0) 3). reflexivity. }
  split; [|split; [|split; [|split]]].
  - apply (H2 [Rerun press_stop; JoinReturns] undrained_session 1). reflexivity.
  - apply (H3 undrained_session 0 (worker_of 0 undrained_session) Hr).
    vm_compute. reflexivity.
  - apply (H4 undrained_session press_stop press_start [WorkerStep 0] [] Hr);
      try reflexivity; repeat constructor.
  - apply (H5 ready_env Heap.empty 0 1 "en-US" (Mic.capturing [])). reflexivity.
  - apply (H6 (WorkerStep 1) 0 1); [reflexivity|discriminate].
Defined.

End Scenarios.

(** ** More on the chunk generator *)
Section GeneratorMore.
Import Mic.

(** X2.  Up to its return the generator loses nothing: the audio pushed so
    far is what it has yielded, then the batch it has in hand, then what
    is still in the buffer. *)
Theorem nothing_lost_before_return (evs : list event) (m : MicrophoneStream) :
  let g := run evs (start_of m) in
  pc g <> Returned ->
  audio (buff m ++ pushed evs)
  = concat (yielded g) ++ concat (in_hand g) ++ audio (buff (mic g)).
Proof.
  cbn zeta. intros Hpc.
  destruct (run_accounts evs (start_of m) (buff m)) as (taken & Heq & Hacc).
  - exists []. split; reflexivity.
  - rewrite Heq, audio_app. unfold accounts in Hacc. unfold in_hand.
    destruct (pc (run evs (start_of m))); try congruence.
    + rewrite <- Hacc. reflexivity.
    + rewrite <- Hacc. reflexivity.
    + rewrite <- Hacc, <- app_assoc. reflexivity.
Qed.

Lemma nothing_lost_before_return_witness :
  let m := capturing [Some [Byte.x61]] in
  let evs := [Next; Next; Push (Some [Byte.x62]); Next] in
  pc (run evs (start_of m)) <> Returned
  /\ audio (buff m ++ pushed evs)
     = concat (yielded (run evs (start_of m)))
       ++ concat (in_hand (run evs (start_of m)))
       ++ audio (buff (mic (run evs (start_of m)))).
Proof.
  cbn zeta. split; [vm_compute; discriminate|].
  apply (nothing_lost_before_return
           [Next; Next; Push (Some [Byte.x62]); Next] (capturing [Some [Byte.x61]])).
  vm_compute. discriminate.
Defined.

Lemma step_tally (ev : event) (g : gen_state) (all : list (option chunk)) :
  (exists taken, all = taken ++ buff (mic g) /\ tally taken g) ->
  exists taken,
    all ++ pushed [ev] = taken ++ buff (mic (step ev g)) /\ tally taken (step ev g).
Proof.
  intros (taken & Hall & Ht). destruct g as [m p out].
  destruct ev as [item| |]; cbn [pushed flat_map app step mic pc yielded] in *.
  - exists taken. split; [|exact Ht].
    cbn [put buff]. rewrite Hall, app_assoc. reflexivity.
  - exists taken. rewrite app_nil_r. split; [exact Hall|exact Ht].
  - rewrite app_nil_r. unfold tally in *. cbn [pc yielded] in *.
    destruct p as [| |data|]; cbn [generator_step].
    + destruct (closed m); cbn [mic pc yielded]; exists taken;
        rewrite app_nil_r; (split; [exact Hall|exact Ht]).
    + destruct (buff m) as [|[c|] q] eqn:Hq; cbn [mic pc yielded set_buff buff];
        rewrite app_nil_r.
      * exists taken. split; [rewrite Hq; exact Hall|exact Ht].
      * exists (taken ++ [Some c]). split; [rewrite Hall, <- app_assoc; reflexivity|].
        unfold chunks in *. rewrite flat_map_app, length_app. cbn. lia.
      * exists (taken ++ [None]). split; [rewrite Hall, <- app_assoc; reflexivity|].
        unfold chunks in *. rewrite flat_map_app, length_app. cbn. lia.
    + destruct (buff m) as [|[c|] q] eqn:Hq; cbn [mic pc yielded set_buff buff].
      * exists taken. split; [rewrite Hq; exact Hall|].
        rewrite length_app. cbn. lia.
      * rewrite app_nil_r. exists (taken ++ [Some c]).
        split; [rewrite Hall, <- app_assoc; reflexivity|].
        unfold chunks in *. rewrite flat_map_app, length_app. cbn. lia.
      * rewrite app_nil_r. exists (taken ++ [None]).
        split; [rewrite Hall, <- app_assoc; reflexivity|].
        unfold chunks in *. rewrite flat_map_app, length_app. cbn. lia.
    + cbn [mic pc yielded]. rewrite app_nil_r. exists taken. split; [exact Hall|exact Ht].
Qed.

Lemma run_tally (evs : list event) (g : gen_state) (all : list (option chunk)) :
  (exists taken, all = taken ++ buff (mic g) /\ tally taken g) ->
  exists taken,
    all ++ pushed evs = taken ++ buff (mic (run evs g)) /\ tally taken (run evs g).
Proof.
  revert g all. induction evs as [|ev evs IH]; intros g all H.
  - cbn. rewrite app_nil_r. exact H.
  - change (run (ev :: evs) g) with (run evs (step ev g)).
    apply (step_tally ev) in H.
    apply IH in H. destruct H as (taken & Heq & Ht).
    exists taken. split; [|exact Ht].
    rewrite <- Heq, <- app_assoc. f_equal.
    unfold pushed. cbn [flat_map]. rewrite app_nil_r. reflexivity.
Qed.

(** X3.  Every batch yielded was opened by a chunk of its own: the generator
    never yields more batches than chunks were pushed, and none while
    nothing has been pushed. *)
Theorem batches_at_most_chunks (evs : list event) (m : MicrophoneStream) :
  length (yielded (run evs (start_of m))) <= length (chunks (buff m ++ pushed evs)).
Proof.
  destruct (run_tally evs (start_of m) (buff m)) as (taken & Heq & Ht).
  - exists []. split; [reflexivity|]. cbn. lia.
  - rewrite Heq. unfold chunks at 1. rewrite flat_map_app, length_app.
    fold (chunks taken). unfold tally in Ht.
    destruct (pc (run evs (start_of m))); lia.
Qed.

Lemma marker_reached (n : nat) (g : gen_state) :
  In None (buff (mic g)) -> length (buff (mic g)) <= n -> pc g <> LoopHead ->
  pc (run (repeat Next n) g) = Returned.
Proof.
  revert g. induction n as [|n IH]; intros g Hin Hlen Hpc.
  - destruct (buff (mic g)); [destruct Hin|cbn in Hlen; lia].
  - cbn [repeat]. change (run (Next :: ?evs) g) with (run evs (step Next g)).
    destruct g as [m p out]. cbn [mic pc] in *.
    destruct p as [| |data|]; [congruence| | |].
    + cbn [step mic pc yielded generator_step].
      destruct (buff m) as [|[c|] q] eqn:Hq; [destruct Hin| |].
      * apply IH; cbn [mic pc set_buff buff].
        -- destruct Hin as [Hin|Hin]; [discriminate|exact Hin].
        -- cbn in Hlen. lia.
        -- discriminate.
      * apply returned_is_final. reflexivity.
    + cbn [step mic pc yielded generator_step].
      destruct (buff m) as [|[c|] q] eqn:Hq; [destruct Hin| |].
      * apply IH; cbn [mic pc set_buff buff].
        -- destruct Hin as [Hin|Hin]; [discriminate|exact Hin].
        -- cbn in Hlen. lia.
        -- discriminate.
      * apply returned_is_final. reflexivity.
    + apply returned_is_final. reflexivity.
Qed.

Lemma ends_once_marker_buffered (g : gen_state) :
  In None (buff (mic g)) ->
  pc (run (repeat Next (S (length (buff (mic g))))) g) = Returned.
Proof.
  intros Hin. destruct (pc g) eqn:Hpc.
  - cbn [repeat]. change (run (Next :: ?evs) g) with (run evs (step Next g)).
    destruct g as [m p out]. cbn [mic pc] in *. subst p.
    cbn [step mic pc yielded generator_step]. destruct (closed m).
    + apply returned_is_final. reflexivity.
    + apply marker_reached; cbn [mic pc]; [exact Hin|lia|discriminate].
  - apply marker_reached; [exact Hin|lia|congruence].
  - apply marker_reached; [exact Hin|lia|congruence].
  - apply returned_is_final. exact Hpc.
Qed.

(** X4.  Once the marker is in the buffer the generator ends, wherever
    it stands: it has returned after as many steps as the buffer has
    items, plus one, without any further push. *)
Theorem generator_ends_once_marker_buffered (g : gen_state) :
  In None (buff (mic g)) ->
  pc (run (repeat Next (S (length (buff (mic g))))) g) = Returned.
Proof. exact (ends_once_marker_buffered g). Qed.

Lemma generator_ends_once_marker_buffered_witness :
  let g := mkGen (capturing [Some [Byte.x61]; None; Some [Byte.x62]]) BlockingGet [] in
  In None (buff (mic g))
  /\ pc (run (repeat Next (S (length (buff (mic g))))) g) = Returned.
Proof.
  cbn zeta. split; [right; left; reflexivity|].
  apply (generator_ends_once_marker_buffered
           (mkGen (capturing [Some [Byte.x61]; None; Some [Byte.x62]]) BlockingGet [])).
  right. left. reflexivity.
Defined.

(** X6.  A generator first advanced after [__exit__] finds the stream closed:
    it returns at once, yields nothing, and leaves in the buffer what
    was there, the marker behind it. *)
Theorem generator_after_exit (m : MicrophoneStream) (n : nat) :
  let g := run (repeat Next (S n)) (start_of (__exit__ m)) in
  pc g = Returned /\ yielded g = [] /\ buff (mic g) = buff m ++ [None].
Proof.
  cbn zeta. cbn [repeat]. change (run (Next :: ?evs) ?g) with (run evs (step Next g)).
  unfold start_of, __exit__. cbn [step mic pc yielded generator_step put set_closed closed].
  rewrite run_returned. repeat split; reflexivity.
Qed.

(** X7.  [__exit__] always ends the generator: wherever the generator stands
    and whatever the buffer holds, it has returned after as many steps
    as the buffer then has items, plus one, with no further push. *)
Theorem exit_ends_generator (m : MicrophoneStream) (p : gen_pc) (out : list chunk) :
  pc (run (repeat Next (length (buff m) + 2)) (mkGen (__exit__ m) p out)) = Returned.
Proof.
  pose proof (ends_once_marker_buffered (mkGen (__exit__ m) p out)) as H.
  cbn [mic buff __exit__ put set_closed set_audio_stream] in H.
  rewrite length_app in H. cbn [length] in H.
  replace (length (buff m) + 2) with (S (length (buff m) + 1)) by lia.
  apply H. apply in_or_app. right. left. reflexivity.
Qed.

(** X8.  With [c :: cs] in the buffer and no marker, one pass of the loop
    yields them as a single batch, in order, and empties the buffer. *)
Theorem one_batch_per_drain (c : chunk) (cs : list chunk) :
  let g := run (repeat Next (length cs + 3)) (start_of (capturing (Some c :: map Some cs))) in
  pc g = LoopHead /\ yielded g = [concat (c :: cs)] /\ buff (mic g) = [].
Proof.
  cbn zeta. replace (length cs + 3) with (2 + S (length cs)) by lia.
  rewrite repeat_app, run_app.
  change (repeat Next 2) with [Next; Next]. rewrite first_two_steps.
  unfold capturing. rewrite drain_to_empty. repeat split; reflexivity.
Qed.

End GeneratorMore.

(** ** More on the worker *)
Section WorkerMore.
Import Controller.

Lemma step_stream_ok (env : Worker.Env) (h : Heap.Heap) (wk : Worker.Worker) :
  Worker.stream_ok wk -> Worker.stream_ok (Worker.step env h wk).2.
Proof.
  unfold Worker.stream_ok, Worker.step, Worker.released, Worker.capturing.
  destruct (Worker.pc wk) as [| |r|r|why|e] eqn:Hpc.
  - intros Hs. destruct (Worker.service_available env); cbn; [|left; exact Hs].
    unfold Mic.__enter__. destruct (Worker.device_available env); cbn; eauto.
  - intros (m & Hm & Hc & Ho).
    destruct (Worker.inbound wk); [destruct (Worker.service wk)|]; cbn;
      rewrite ?Hpc, ?Hm; cbn; eauto 6.
  - intros (m & Hm & Hc & Ho).
    destruct (Heap.is_set _ _); cbn; rewrite ?Hm; cbn; eauto 6.
  - intros (m & Hm & Hc & Ho).
    destruct (Router.breaks r); cbn; rewrite ?Hm; cbn; eauto 6.
  - cbn. rewrite Hpc. auto.
  - cbn. rewrite Hpc. auto.
Qed.

Lemma keeps_stream_ok (f : Worker.Worker -> Worker.Worker) (wk : Worker.Worker) :
  Worker.pc (f wk) = Worker.pc wk -> Worker.stream (f wk) = Worker.stream wk ->
  Worker.stream_ok wk -> Worker.stream_ok (f wk).
Proof. unfold Worker.stream_ok. intros -> ->. auto. Qed.

Lemma generator_step_flags (m : Mic.MicrophoneStream) (g : Mic.gen_pc) :
  Mic.closed (Mic.generator_step m g).1.1 = Mic.closed m
  /\ Mic.audio_stream_open (Mic.generator_step m g).1.1 = Mic.audio_stream_open m.
Proof.
  unfold Mic.generator_step.
  destruct g; [destruct (Mic.closed m) eqn:Hc| | |]; cbn; auto;
    destruct (Mic.buff m) as [|[c|] q]; cbn; auto.
Qed.

Lemma flags_stream_ok (wk wk' : Worker.Worker) :
  Worker.pc wk' = Worker.pc wk ->
  (forall m, Worker.stream wk = Some m ->
     exists m', Worker.stream wk' = Some m'
                /\ Mic.closed m' = Mic.closed m
                /\ Mic.audio_stream_open m' = Mic.audio_stream_open m) ->
  (Worker.stream wk = None -> Worker.stream wk' = None) ->
  Worker.stream_ok wk -> Worker.stream_ok wk'.
Proof.
  unfold Worker.stream_ok, Worker.capturing, Worker.released. intros -> Hs Hn.
  assert (forall b1 b2,
             (exists m, Worker.stream wk = Some m
                        /\ Mic.closed m = b1 /\ Mic.audio_stream_open m = b2) ->
             exists m, Worker.stream wk' = Some m
                       /\ Mic.closed m = b1 /\ Mic.audio_stream_open m = b2) as Hmove.
  { intros b1 b2 (m & Hm & Hc & Ho). destruct (Hs m Hm) as (m' & Hm' & Hc' & Ho').
    exists m'. repeat split; congruence. }
  destruct (Worker.pc wk) as [| | | | |[]]; auto.
  intros [H|H]; [left; auto|right; auto].
Qed.

Lemma device_frame_stream_ok (data : Mic.chunk) (wk : Worker.Worker) :
  Worker.stream_ok wk -> Worker.stream_ok (Worker.device_frame data wk).
Proof.
  apply flags_stream_ok.
  - apply device_frame_keeps_pc.
  - intros m Hm. unfold Worker.device_frame. rewrite Hm.
    destruct (Mic.audio_stream_open m) eqn:Ho; cbn; eauto.
  - intros Hn. unfold Worker.device_frame. rewrite Hn. exact Hn.
Qed.

Lemma client_pull_stream_ok (wk : Worker.Worker) :
  Worker.stream_ok wk -> Worker.stream_ok (Worker.client_pull wk).
Proof.
  apply flags_stream_ok.
  - apply client_pull_keeps_pc.
  - intros m Hm. unfold Worker.client_pull. rewrite Hm.
    destruct (generator_step_flags m (Worker.requests wk)) as [Hc Ho].
    destruct (Mic.generator_step m (Worker.requests wk)) as [[m' g] out]. cbn in *. eauto.
  - intros Hn. unfold Worker.client_pull. rewrite Hn. exact Hn.
Qed.

Lemma handle_start_workers (inp : Inputs) (w : World) (s : Session) (t : nat)
      (wk : Worker.Worker) :
  workers (handle_start inp w s).1 !! t = Some wk ->
  workers w !! t = Some wk \/ exists e q l, wk = Worker.spawn e q l.
Proof.
  unfold handle_start. destruct (_ && _); [|auto]. cbn.
  destruct (decide (t = next_tid w)) as [->|Hne].
  - rewrite lookup_insert_eq. intros [= <-]. eauto.
  - rewrite lookup_insert_ne by congruence. auto.
Qed.

Lemma handle_stop_workers (inp : Inputs) (w : World) (s : Session) :
  workers (handle_stop inp w s).1.1 = workers w.
Proof. unfold handle_stop. destruct (_ && _); [destruct (thread _)|]; reflexivity. Qed.

Lemma finish_workers (inp : Inputs) (w : World) (s : Session) :
  workers (finish inp w s).1 = workers w.
Proof.
  unfold finish, process_results. destruct (listening s) eqn:Hl.
  - destruct (poll_fault inp) as [f|].
    + destruct (interrupted _ _ _ _) as [[s' l] kept]. reflexivity.
    + destruct (consume _ _ _) as [s' l]. reflexivity.
  - cbn. rewrite Hl. reflexivity.
Qed.

(** The script touches the threads only by starting one. *)
Lemma script_workers (ev : event) (w : World) (t : nat) (wk : Worker.Worker) :
  background ev = false ->
  workers (step ev w) !! t = Some wk ->
  workers w !! t = Some wk \/ exists e q l, wk = Worker.spawn e q l.
Proof.
  intros Hb. destruct ev; try discriminate; cbn [step].
  - destruct (script w); [|auto]. unfold main.
    destruct (state_management _ _) as [h s].
    pose proof (handle_start_workers inp (set_heap h w) s t wk) as H1.
    destruct (handle_start inp (set_heap h w) s) as [w1 s1]. cbn [fst] in H1.
    pose proof (handle_stop_workers inp w1 s1) as H2.
    destruct (handle_stop inp w1 s1) as [[w2 s2] waiting]. cbn [fst] in H2.
    destruct waiting.
    + cbn. rewrite H2. exact H1.
    + pose proof (finish_workers inp w2 s2) as H3.
      destruct (finish inp w2 s2) as [w3 s3]. cbn [fst] in H3. cbn.
      rewrite H3, H2. exact H1.
  - unfold join_returns. destruct (script w); [auto|].
    destruct (state_management _ _) as [h s]. unfold after_join.
    pose proof (finish_workers inp
                  (emit [UiInfo "Listening stopped."] (set_heap h w))
                  (set_thread None s)) as H3.
    destruct (finish _ _ _) as [w3 s3]. cbn [fst] in H3. cbn. rewrite H3. auto.
Qed.

Lemma on_worker_stream_ok (t : nat) (f : Worker.Worker -> Worker.Worker) (w : World) :
  (forall wk, Worker.stream_ok wk -> Worker.stream_ok (f wk)) ->
  (forall t' wk, workers w !! t' = Some wk -> Worker.stream_ok wk) ->
  forall t' wk, workers (on_worker t f w) !! t' = Some wk -> Worker.stream_ok wk.
Proof.
  intros Hf Hw t' wk. unfold on_worker. destruct (workers w !! t) as [wk0|] eqn:Ht; [|apply Hw].
  cbn. destruct (decide (t = t')) as [<-|Hne].
  - rewrite lookup_insert_eq. intros [= <-]. apply Hf, (Hw t), Ht.
  - rewrite lookup_insert_ne by exact Hne. apply Hw.
Qed.

Lemma step_streams_ok (ev : event) (w : World) :
  (forall t wk, workers w !! t = Some wk -> Worker.stream_ok wk) ->
  forall t wk, workers (step ev w) !! t = Some wk -> Worker.stream_ok wk.
Proof.
  intros Hw t wk H. destruct (background ev) eqn:Hb.
  - destruct ev as [inp| |t0|t0 r|t0|t0|t0 data|t0|e]; try discriminate; cbn [step] in H.
    + destruct (workers w !! t0) as [wk0|] eqn:Ht0; [|eauto].
      pose proof (step_stream_ok (env w) (heap w) wk0 (Hw t0 wk0 Ht0)) as Hok.
      destruct (Worker.step (env w) (heap w) wk0) as [h wk']. cbn in H, Hok.
      destruct (decide (t0 = t)) as [<-|Hne].
      * rewrite lookup_insert_eq in H. injection H as <-. exact Hok.
      * rewrite lookup_insert_ne in H by exact Hne. eauto.
    + revert t wk H. apply on_worker_stream_ok; [|exact Hw].
      intros wk0. apply keeps_stream_ok; [apply deliver_keeps_pc|].
      unfold Worker.deliver. destruct (Worker.receiving wk0); reflexivity.
    + revert t wk H. apply on_worker_stream_ok; [|exact Hw].
      intros wk0. apply keeps_stream_ok; [apply end_stream_keeps_pc|].
      unfold Worker.end_stream. destruct (Worker.receiving wk0); reflexivity.
    + revert t wk H. apply on_worker_stream_ok; [|exact Hw].
      intros wk0. apply keeps_stream_ok; [apply fail_stream_keeps_pc|].
      unfold Worker.fail_stream. destruct (Worker.receiving wk0); reflexivity.
    + revert t wk H. apply on_worker_stream_ok; [|exact Hw].
      apply device_frame_stream_ok.
    + revert t wk H. apply on_worker_stream_ok; [|exact Hw].
      apply client_pull_stream_ok.
    + eauto.
  - destruct (script_workers ev w t wk Hb H) as [H0|(e & q & l & ->)]; [eauto|].
    reflexivity.
Qed.

(** X9.  The capture stream is held exactly while the worker is inside its
    [with] block: in every reachable world a thread that has not yet
    entered it, or failed to, has no stream; a thread in its receive
    loop has an open one; and a thread that has ended, by return or by
    an exception, has left its stream closed and the device stopped. *)
Theorem stream_released_on_every_exit (w : World) (t : nat) (wk : Worker.Worker) :
  reachable w -> workers w !! t = Some wk -> Worker.stream_ok wk.
Proof.
  intros (e & evs & ->). revert t wk.
  induction evs as [|ev evs IH] using rev_ind.
  - intros t wk H. cbn in H. rewrite lookup_empty in H. discriminate.
  - rewrite run_snoc. apply step_streams_ok. exact IH.
Qed.

Lemma stream_released_on_every_exit_witness :
  let w := run broken_stream (initial ready_env) in
  workers w !! 0 = Some (worker_of 0 w) /\ Worker.stream_ok (worker_of 0 w).
Proof.
  cbn zeta. split; [vm_compute; reflexivity|].
  apply (stream_released_on_every_exit (run broken_stream (initial ready_env)) 0).
  - exists ready_env, broken_stream. reflexivity.
  - vm_compute. reflexivity.
Defined.

(** X10.  Threads and their environment only ever add to a result queue: what
    is on it stays, in place, until the script polls. *)
Theorem background_only_appends (evs : list event) (w : World) (q : nat) :
  Forall (fun ev => background ev = true) evs ->
  exists l, Heap.contents q (heap (run evs w)) = Heap.contents q (heap w) ++ l.
Proof.
  intros Hall. destruct (background_run evs w q Hall) as (_ & _ & _ & _ & H). exact H.
Qed.

Lemma background_only_appends_witness :
  let evs := [Deliver 0 (Asr.interim (Str.lit "hello")); WorkerStep 0; WorkerStep 0; WorkerStep 0] in
  exists l,
    Heap.contents 1 (heap (run evs undrained_session))
    = Heap.contents 1 (heap undrained_session) ++ l.
Proof.
  cbn zeta.
  apply (background_only_appends
           [Deliver 0 (Asr.interim (Str.lit "hello")); WorkerStep 0; WorkerStep 0; WorkerStep 0]
           undrained_session 1).
  repeat constructor.
Defined.

End WorkerMore.

(** ** The end of a worker and the session state *)
Section WorkerEnds.
Import Controller.

Lemma rerun_workers (inp : Inputs) (w : World) :
  start_button inp = false -> workers (step (Rerun inp) w) = workers w.
Proof.
  intros Hstart. cbn [step]. destruct (script w); [|reflexivity]. unfold main.
  destruct (state_management _ _) as [h s].
  unfold handle_start. rewrite Hstart. cbn [andb].
  pose proof (handle_stop_workers inp (set_heap h w) s) as H2.
  destruct (handle_stop inp (set_heap h w) s) as [[w2 s2] waiting]. cbn [fst] in H2.
  cbn [workers set_heap] in H2. destruct waiting.
  - cbn. exact H2.
  - pose proof (finish_workers inp w2 s2) as H3.
    destruct (finish inp w2 s2) as [w3 s3]. cbn [fst] in H3. cbn. congruence.
Qed.

(** An operation on thread [t'], seen from thread [t]. *)
Lemma on_worker_pc (t t' : nat) (f : Worker.Worker -> Worker.Worker)
      (w : World) (wk : Worker.Worker) :
  Worker.keeps_pc f -> workers w !! t = Some wk ->
  exists wk', workers (on_worker t' f w) !! t = Some wk' /\ Worker.pc wk' = Worker.pc wk.
Proof.
  intros Hf Hwk. destruct (decide (t' = t)) as [->|Hne].
  - destruct (on_worker_lookup t f w wk Hwk) as [H _]. exists (f wk). auto.
  - exists wk. split; [|reflexivity]. unfold on_worker.
    destruct (workers w !! t'); [|exact Hwk].
    cbn. rewrite lookup_insert_ne by exact Hne. exact Hwk.
Qed.

(** A thread that has ended stays as it ended, whatever happens next
    short of a new start. *)
Lemma ended_step (ev : event) (w : World) (t : nat) (wk : Worker.Worker) :
  workers w !! t = Some wk -> Worker.running wk = false -> quiet ev = true ->
  exists wk', workers (step ev w) !! t = Some wk' /\ Worker.pc wk' = Worker.pc wk.
Proof.
  intros Hwk Hend Hq.
  destruct ev as [inp| |t'|t' r|t'|t'|t' data|t'|e]; cbn in Hq; try discriminate.
  - apply andb_true_iff in Hq as [Hq _]. apply andb_true_iff in Hq as [Hstart _].
    apply negb_true_iff in Hstart. rewrite (rerun_workers inp w Hstart). eauto.
  - destruct (decide (t' = t)) as [->|Hne].
    + cbn [step]. rewrite Hwk, (step_ended (env w) (heap w) wk Hend).
      cbn. rewrite lookup_insert_eq. eauto.
    + rewrite (other_threads_untouched (WorkerStep t') t t' w);
        [eauto|cbn; apply Nat.eqb_refl|congruence].
  - apply on_worker_pc; [apply deliver_keeps_pc|exact Hwk].
  - apply on_worker_pc; [apply end_stream_keeps_pc|exact Hwk].
  - apply on_worker_pc; [apply fail_stream_keeps_pc|exact Hwk].
  - apply on_worker_pc; [apply device_frame_keeps_pc|exact Hwk].
  - apply on_worker_pc; [apply client_pull_keeps_pc|exact Hwk].
  - exists wk. auto.
Qed.

Lemma ended_run (evs : list event) (w : World) (t : nat) (wk : Worker.Worker) :
  workers w !! t = Some wk -> Worker.running wk = false ->
  Forall (fun ev => quiet ev = true) evs ->
  exists wk', workers (run evs w) !! t = Some wk' /\ Worker.pc wk' = Worker.pc wk.
Proof.
  revert w wk. induction evs as [|ev evs IH]; intros w wk Hwk Hend Hall; [eauto|].
  apply Forall_cons in Hall as [Hq Hall].
  destruct (ended_step ev w t wk Hwk Hend Hq) as (wk1 & Hwk1 & Hpc1).
  change (run (ev :: evs) w) with (run evs (step ev w)).
  destruct (IH (step ev w) wk1 Hwk1) as (wk2 & Hwk2 & Hpc2); [|exact Hall|].
  - unfold Worker.running in *. rewrite Hpc1. exact Hend.
  - exists wk2. split; [exact Hwk2|congruence].
Qed.

Lemma errors_app (l1 l2 : list effect) : errors (l1 ++ l2) = errors l1 ++ errors l2.
Proof. apply flat_map_app. Qed.

Lemma consume_errors (items : list (Str.str * bool)) (ft : Str.str) (s : Session) :
  errors (consume items ft s).2 = [].
Proof.
  revert ft s. induction items as [|[t f] items IH]; intros ft s; [reflexivity|].
  cbn [consume]. destruct f.
  - specialize (IH (ft ++ t ++ newline) (set_final_transcript (ft ++ t ++ newline) s)).
    destruct (consume items _ _) as [s' l]. exact IH.
  - specialize (IH ft s). destruct (consume items ft s) as [s' l]. exact IH.
Qed.

(** While a session is Listening and the user presses nothing, the page
    shows no error, whatever happens to the worker. *)
Lemma quiet_step_no_error (ev : event) (w : World) :
  reachable w -> phase_of w = Listening -> quiet ev = true ->
  errors (log (step ev w)) = errors (log w).
Proof.
  intros Hr Hp Hq. destruct (listening_world w Hr Hp) as (Hst & Hl & Hs & _).
  destruct (background ev) eqn:Hb.
  - destruct (background_frame ev w Hb) as (_ & _ & Hlog & _). rewrite Hlog. reflexivity.
  - destruct ev as [inp| | | | | | | |]; try discriminate. cbn in Hq.
    apply andb_true_iff in Hq as [Hq Hfault]. apply andb_true_iff in Hq as [Hstart Hstop].
    apply negb_true_iff in Hstart, Hstop. unfold faultless in Hfault.
    destruct (poll_fault inp) as [f|] eqn:Hf; [discriminate|]. clear Hfault.
    cbn [step]. rewrite Hs, (main_stored inp w (session w) Hst).
    unfold handle_start, handle_stop, finish, process_results.
    rewrite Hstart, Hstop. cbn [andb]. rewrite Hl, Hf.
    pose proof (consume_errors
                  (Heap.contents (result_queue (session w)) (heap w))
                  (text_area inp) (session w)) as He.
    destruct (consume _ _ _) as [s' l]. cbn [snd] in He.
    cbn [log set_session_state emit set_heap].
    rewrite errors_app. cbn [errors flat_map]. fold (errors (l ++ [UiRerun])).
    rewrite errors_app, He. cbn. rewrite app_nil_r. reflexivity.
Qed.

Lemma quiet_step_keeps_thread (ev : event) (w : World) :
  reachable w -> phase_of w = Listening -> quiet ev = true ->
  thread (session (step ev w)) = thread (session w).
Proof.
  intros Hr Hp Hq. destruct (listening_world w Hr Hp) as (Hst & Hl & Hs & _).
  destruct (background ev) eqn:Hb.
  - destruct (background_frame ev w Hb) as (Hss & _).
    rewrite !session_thread, Hss. reflexivity.
  - destruct ev as [inp| | | | | | | |]; try discriminate. cbn in Hq.
    apply andb_true_iff in Hq as [Hq Hfault]. apply andb_true_iff in Hq as [Hstart Hstop].
    apply negb_true_iff in Hstart, Hstop. unfold faultless in Hfault.
    destruct (poll_fault inp) as [f|] eqn:Hf; [discriminate|]. clear Hfault.
    cbn [step]. rewrite Hs, (main_stored inp w (session w) Hst).
    unfold handle_start, handle_stop, finish, process_results.
    rewrite Hstart, Hstop. cbn [andb]. rewrite Hl, Hf.
    pose proof (consume_session
                  (Heap.contents (result_queue (session w)) (heap w))
                  (text_area inp) (session w)) as (_ & _ & _ & H4).
    destruct (consume _ _ _) as [s' l]. cbn [fst] in H4.
    rewrite session_set_stored. exact H4.
Qed.

Lemma quiet_run_keeps_thread (evs : list event) (w : World) :
  reachable w -> phase_of w = Listening -> Forall (fun ev => quiet ev = true) evs ->
  thread (session (run evs w)) = thread (session w).
Proof.
  revert w. induction evs as [|ev evs IH]; intros w Hr Hp Hall; [reflexivity|].
  apply Forall_cons in Hall as [Hq Hall].
  change (run (ev :: evs) w) with (run evs (step ev w)).
  rewrite IH; [apply quiet_step_keeps_thread; assumption|apply reachable_step, Hr| |exact Hall].
  apply quiet_step_keeps_listening; assumption.
Qed.

Lemma quiet_run_no_error (evs : list event) (w : World) :
  reachable w -> phase_of w = Listening -> Forall (fun ev => quiet ev = true) evs ->
  errors (log (run evs w)) = errors (log w).
Proof.
  revert w. induction evs as [|ev evs IH]; intros w Hr Hp Hall; [reflexivity|].
  apply Forall_cons in Hall as [Hq Hall].
  change (run (ev :: evs) w) with (run evs (step ev w)).
  rewrite IH; [apply quiet_step_no_error; assumption|apply reachable_step, Hr| |exact Hall].
  apply quiet_step_keeps_listening; assumption.
Qed.

Lemma reachable_streams_ok (w : World) (t : nat) (wk : Worker.Worker) :
  reachable w -> workers w !! t = Some wk -> Worker.stream_ok wk.
Proof.
  intros (e & evs & ->). revert t wk.
  induction evs as [|ev evs IH] using rev_ind.
  - intros t wk H. cbn in H. rewrite lookup_empty in H. discriminate.
  - rewrite run_snoc. apply step_streams_ok. exact IH.
Qed.

(** The step of a thread that routes an exit command. *)
Lemma exit_command_step (w : World) (t : nat) (wk : Worker.Worker) (r : Asr.Response) :
  reachable w -> workers w !! t = Some wk ->
  Worker.pc wk = Worker.Route r -> Router.breaks r = true ->
  let q := result_queue (session w) in
  let w1 := step (WorkerStep t) w in
  exists tr wk1,
    Router.forwarded r = Some (tr, true)
    /\ Heap.contents q (heap w1) = Heap.contents q (heap w) ++ [(tr, true)]
    /\ workers w1 !! t = Some wk1
    /\ Worker.pc wk1 = Worker.Finished Worker.ExitCommandHeard
    /\ exists m, Worker.stream wk1 = Some m /\ Worker.released m.
Proof.
  intros Hr Hwk Hpc Hb. cbn zeta.
  destruct (route_breaks_forwards r Hb) as [tr Htr].
  pose proof (reachable_consistent w Hr) as Hc.
  destruct (same_objects w Hc t wk Hwk) as [_ Hq]. apply session_result_queue in Hq.
  pose proof (reachable_streams_ok w t wk Hr Hwk) as Hok.
  unfold Worker.stream_ok in Hok. rewrite Hpc in Hok. destruct Hok as (m & Hm & _).
  exists tr, (Worker.leave_with (Worker.Finished Worker.ExitCommandHeard) wk).
  split; [exact Htr|].
  cbn [step]. rewrite Hwk, (step_route (env w) (heap w) wk r Hpc), Htr, Hb.
  cbn [heap workers set_worker set_heap]. rewrite Hq, contents_put, lookup_insert_eq.
  repeat split. exists (Mic.__exit__ m). unfold Worker.leave_with.
  cbn [Worker.stream Worker.set_pc Worker.set_stream]. rewrite Hm. repeat split.
Qed.

(** C3 (divergence).  The scan is made on final results only and finds
    exactly the whole-word occurrences of "exit" and "quit", whatever
    the case of the letters; a worker ends for an exit command only by
    the step that puts that final result on the result queue, and it
    ends with its capture stream closed.  But the session does not end:
    the session state of a listening session whose worker has heard an
    exit command stays Listening for as long as the user presses
    nothing, the worker being dead. *)
Theorem exit_command_leaves_session_listening :
  (forall r,
      Router.breaks r = true <->
      exists result rest alt alts,
        Asr.results r = result :: rest /\ Asr.alternatives result = alt :: alts
        /\ Asr.is_final result = true
        /\ ExitCommand.says_exit_or_quit (Asr.transcript alt))
  /\ Router.breaks (Asr.final (Str.lit "please exit now")) = true
  /\ Router.breaks (Asr.final (Str.lit "the exitway is blocked")) = false
  /\ Router.breaks (Asr.interim (Str.lit "please exit now")) = false
  /\ (forall env h wk,
        Worker.pc wk <> Worker.Finished Worker.ExitCommandHeard ->
        Worker.pc (Worker.step env h wk).2 = Worker.Finished Worker.ExitCommandHeard ->
        exists r tr,
          Worker.pc wk = Worker.Route r /\ Router.forwarded r = Some (tr, true)
          /\ Heap.contents (Worker.result_queue wk) (Worker.step env h wk).1
             = Heap.contents (Worker.result_queue wk) h ++ [(tr, true)])
  /\ (forall w t wk r evs,
        reachable w -> phase_of w = Listening -> thread (session w) = Some t ->
        workers w !! t = Some wk ->
        Worker.pc wk = Worker.Route r -> Router.breaks r = true ->
        Forall (fun ev => quiet ev = true) evs ->
        let q := result_queue (session w) in
        let w1 := step (WorkerStep t) w in
        let w2 := run evs w1 in
        exists tr,
          Router.forwarded r = Some (tr, true)
          /\ Heap.contents q (heap w1) = Heap.contents q (heap w) ++ [(tr, true)]
          /\ Worker.pc <$> workers w1 !! t = Some (Worker.Finished Worker.ExitCommandHeard)
          /\ (exists m, Worker.stream <$> workers w1 !! t = Some (Some m)
                        /\ Mic.closed m = true /\ Mic.audio_stream_open m = false)
          /\ Worker.pc <$> workers w2 !! t = Some (Worker.Finished Worker.ExitCommandHeard)
          /\ phase_of w2 = Listening /\ thread (session w2) = Some t).
Proof.
  split; [exact breaks_spec|].
  split; [vm_compute; reflexivity|]. split; [vm_compute; reflexivity|].
  split; [vm_compute; reflexivity|]. split.
  { intros env h wk Hne. unfold Worker.step.
    destruct (Worker.pc wk) as [| |r|r|why|e] eqn:Hpc; cbn.
    - destruct (Worker.service_available env); [|cbn; discriminate].
      destruct (Mic.__enter__ _ _); cbn; discriminate.
    - destruct (Worker.inbound wk); [destruct (Worker.service wk)|]; cbn; try discriminate.
      intros H. congruence.
    - destruct (Heap.is_set _ _); cbn; discriminate.
    - destruct (Router.breaks r) eqn:Hb; cbn; [|discriminate]. intros _.
      destruct (route_breaks_forwards r Hb) as [tr Htr]. rewrite Htr.
      exists r, tr. rewrite contents_put. auto.
    - intros H. rewrite Hpc in H. congruence.
    - intros H. rewrite Hpc in H. discriminate. }
  intros w t wk r evs Hr Hp Ht Hwk Hpc Hb Hall. cbn zeta.
  destruct (exit_command_step w t wk r Hr Hwk Hpc Hb)
    as (tr & wk1 & Htr & Hq & Hwk1 & Hpc1 & m & Hm & Hclosed & Hopen).
  exists tr. split; [exact Htr|]. split; [exact Hq|].
  split; [rewrite Hwk1; cbn; rewrite Hpc1; reflexivity|].
  split; [exists m; rewrite Hwk1; cbn; rewrite Hm; auto|].
  destruct (ended_run evs (step (WorkerStep t) w) t wk1 Hwk1) as (wk2 & Hwk2 & Hpc2);
    [unfold Worker.running; rewrite Hpc1; reflexivity|exact Hall|].
  split; [rewrite Hwk2; cbn; rewrite Hpc2, Hpc1; reflexivity|].
  assert (phase_of (step (WorkerStep t) w) = Listening) as Hp1
      by (apply quiet_step_keeps_listening; [exact Hr|exact Hp|reflexivity]).
  split; [apply quiet_run_keeps_listening; [apply reachable_step, Hr|exact Hp1|exact Hall]|].
  rewrite (quiet_run_keeps_thread evs _ (reachable_step _ _ Hr) Hp1 Hall).
  rewrite (quiet_step_keeps_thread (WorkerStep t) w Hr Hp eq_refl). exact Ht.
Qed.

Lemma exit_command_leaves_session_listening_witness :
  let w := exit_heard in
  let q := result_queue (session w) in
  let w1 := step (WorkerStep 0) w in
  let w2 := run [Rerun press_nothing; Rerun press_nothing] w1 in
  let wk := worker_of 0 w in
  phase_of w = Listening
  /\ (exists r tr,
        Worker.pc wk = Worker.Route r /\ Router.forwarded r = Some (tr, true)
        /\ Heap.contents (Worker.result_queue wk) (Worker.step ready_env (heap w) wk).1
           = Heap.contents (Worker.result_queue wk) (heap w) ++ [(tr, true)])
  /\ exists tr,
       Router.forwarded (Asr.final (Str.lit "please exit now")) = Some (tr, true)
       /\ Heap.contents q (heap w1) = Heap.contents q (heap w) ++ [(tr, true)]
       /\ Worker.pc <$> workers w1 !! 0 = Some (Worker.Finished Worker.ExitCommandHeard)
       /\ (exists m, Worker.stream <$> workers w1 !! 0 = Some (Some m)
                     /\ Mic.closed m = true /\ Mic.audio_stream_open m = false)
       /\ Worker.pc <$> workers w2 !! 0 = Some (Worker.Finished Worker.ExitCommandHeard)
       /\ phase_of w2 = Listening /\ thread (session w2) = Some 0.
Proof.
  cbn zeta. split; [vm_compute; reflexivity|].
  destruct exit_command_leaves_session_listening as (_ & _ & _ & _ & H0 & H). split.
  { apply (H0 ready_env (heap exit_heard) (worker_of 0 exit_heard)).
    - vm_compute. discriminate.
    - vm_compute. reflexivity. }
  apply (H exit_heard 0 (worker_of 0 exit_heard) (Asr.final (Str.lit "please exit now"))
           [Rerun press_nothing; Rerun press_nothing]).
  - exists ready_env,
      (started_with [Asr.final (Str.lit "please exit now")] ++ [WorkerStep 0; WorkerStep 0]).
    reflexivity.
  - vm_compute. reflexivity.
  - vm_compute. reflexivity.
  - vm_compute. reflexivity.
  - vm_compute. reflexivity.
  - vm_compute. reflexivity.
  - repeat constructor.
Defined.

(** A run of the script that starts a session: the thread is created
    with the two shared objects of the session state, the run reports
    success and no error, and the session is Listening, whatever the
    state of the device. *)
Lemma start_run (inp : Inputs) (w : World) :
  phase_of w = Idle -> start_button inp = true -> stop_button inp = false ->
  poll_fault inp = None ->
  let w1 := step (Rerun inp) w in
  workers w1 !! next_tid w
  = Some (Worker.spawn (stop_event (session w1)) (result_queue (session w1)) (language_of inp))
  /\ (exists l, log w1
                = log w ++ ThreadStart (next_tid w)
                    :: UiSuccess "Listening started! Speak into your microphone." :: l
                /\ errors l = [])
  /\ phase_of w1 = Listening /\ thread (session w1) = Some (next_tid w)
  /\ env w1 = env w.
Proof.
  intros Hp Hstart Hstop Hfault. unfold phase_of in Hp.
  destruct (listening (session w)) eqn:Hl; [discriminate|].
  destruct (script w) eqn:Hs; [|discriminate].
  cbn zeta. cbn [step]. rewrite Hs. unfold main. unfold session in Hl.
  destruct (state_management (heap w) (session_state w)) as [h s]. cbn [snd] in Hl.
  unfold handle_start, handle_stop, finish, process_results.
  rewrite Hstart, Hl, Hstop. cbn [andb negb thread_start set_listening set_thread listening
                                  stop_event result_queue thread set_heap emit
                                  env heap session_state workers next_tid script log].
  rewrite Hfault.
  match goal with
  | |- context [consume ?items ?ft ?s0] =>
      pose proof (consume_session items ft s0) as (H1 & H2 & H3 & H4);
      pose proof (consume_errors items ft s0) as He;
      destruct (consume items ft s0) as [s' l]
  end.
  cbn in H1, H2, H3, H4. cbn [snd] in He. unfold phase_of. rewrite session_set_stored.
  cbn. rewrite lookup_insert_eq, H1, H2, H3, H4.
  repeat split. exists (UiListening :: l ++ [UiRerun]). split.
  - rewrite <- !app_assoc. reflexivity.
  - cbn [errors flat_map]. fold (errors (l ++ [UiRerun])).
    rewrite errors_app, He. reflexivity.
Qed.

(** C7 (divergence).  start() does not open the device: it starts the
    worker thread and reports success whatever the state of the device,
    and the session is Listening.  When the worker then fails to open
    the device it dies of DeviceUnavailable at once, having opened no
    capture stream and forwarded nothing, and nothing brings the
    failure back to the session: it stays Listening, with the dead
    thread as its thread, for as long as the user presses nothing. *)
Theorem device_failure_leaves_session_listening
        (inp : Inputs) (w : World) (evs : list event) :
  reachable w -> phase_of w = Idle ->
  start_button inp = true -> stop_button inp = false -> poll_fault inp = None ->
  Worker.service_available (env w) = true -> Worker.device_available (env w) = false ->
  Forall (fun ev => quiet ev = true) evs ->
  let t := next_tid w in
  let w1 := step (Rerun inp) w in
  let w2 := step (WorkerStep t) w1 in
  let w3 := run evs w2 in
  (exists l, log w1
             = log w ++ ThreadStart t
                 :: UiSuccess "Listening started! Speak into your microphone." :: l)
  /\ phase_of w1 = Listening /\ thread (session w1) = Some t
  /\ Worker.pc <$> workers w2 !! t = Some (Worker.Raised Worker.DeviceUnavailable)
  /\ Worker.stream <$> workers w2 !! t = Some None
  /\ heap w2 = heap w1
  /\ Worker.pc <$> workers w3 !! t = Some (Worker.Raised Worker.DeviceUnavailable)
  /\ phase_of w3 = Listening /\ thread (session w3) = Some t
  /\ errors (log w3) = errors (log w).
Proof.
  intros Hr Hp Hstart Hstop Hfault Hsvc Hdev Hall. cbn zeta.
  destruct (start_run inp w Hp Hstart Hstop Hfault)
    as (Hwk1 & (l1 & Hlog1 & Herr1) & Hp1 & Ht1 & Henv).
  set (w1 := step (Rerun inp) w) in *.
  assert (reachable w1) as Hr1 by (apply reachable_step, Hr).
  set (wk0 := Worker.spawn (stop_event (session w1)) (result_queue (session w1))
                           (language_of inp)) in *.
  assert (step (WorkerStep (next_tid w)) w1
          = set_worker (next_tid w)
              (Worker.set_pc (Worker.Raised Worker.DeviceUnavailable) wk0)
              (set_heap (heap w1) w1)) as Hw2.
  { cbn [step]. rewrite Hwk1. unfold Worker.step. cbn [Worker.pc wk0 Worker.spawn].
    rewrite Henv, Hsvc. unfold Mic.__enter__. rewrite Hdev. reflexivity. }
  assert (workers (step (WorkerStep (next_tid w)) w1) !! next_tid w
          = Some (Worker.set_pc (Worker.Raised Worker.DeviceUnavailable) wk0)) as Hwk2.
  { rewrite Hw2. cbn. apply lookup_insert_eq. }
  assert (phase_of (step (WorkerStep (next_tid w)) w1) = Listening) as Hp2
      by (apply quiet_step_keeps_listening; [exact Hr1|exact Hp1|reflexivity]).
  split; [exists l1; exact Hlog1|]. split; [exact Hp1|]. split; [exact Ht1|].
  split; [rewrite Hwk2; reflexivity|]. split; [rewrite Hwk2; reflexivity|].
  split; [rewrite Hw2; reflexivity|].
  destruct (ended_run evs (step (WorkerStep (next_tid w)) w1) (next_tid w) _ Hwk2)
    as (wk3 & Hwk3 & Hpc3); [reflexivity|exact Hall|].
  split; [rewrite Hwk3; cbn; rewrite Hpc3; reflexivity|].
  split; [apply quiet_run_keeps_listening; [apply reachable_step, Hr1|exact Hp2|exact Hall]|].
  split.
  { rewrite (quiet_run_keeps_thread evs _ (reachable_step _ _ Hr1) Hp2 Hall).
    rewrite (quiet_step_keeps_thread (WorkerStep (next_tid w)) w1 Hr1 Hp1 eq_refl).
    exact Ht1. }
  rewrite (quiet_run_no_error evs _ (reachable_step _ _ Hr1) Hp2 Hall).
  rewrite Hw2. cbn [log set_worker set_heap]. rewrite Hlog1, errors_app.
  cbn [errors flat_map app]. fold (errors l1). rewrite Herr1, app_nil_r. reflexivity.
Qed.

Lemma device_failure_leaves_session_listening_witness :
  let w := initial no_device_env in
  let w1 := step (Rerun press_start) w in
  let w2 := step (WorkerStep 0) w1 in
  let w3 := run [Rerun press_nothing; Rerun press_nothing] w2 in
  phase_of w = Idle
  /\ (exists l, log w1
                = log w ++ ThreadStart 0
                    :: UiSuccess "Listening started! Speak into your microphone." :: l)
  /\ phase_of w1 = Listening /\ thread (session w1) = Some 0
  /\ Worker.pc <$> workers w2 !! 0 = Some (Worker.Raised Worker.DeviceUnavailable)
  /\ Worker.stream <$> workers w2 !! 0 = Some None
  /\ heap w2 = heap w1
  /\ Worker.pc <$> workers w3 !! 0 = Some (Worker.Raised Worker.DeviceUnavailable)
  /\ phase_of w3 = Listening /\ thread (session w3) = Some 0
  /\ errors (log w3) = errors (log w).
Proof.
  cbn zeta. split; [reflexivity|].
  apply (device_failure_leaves_session_listening
           press_start (initial no_device_env) [Rerun press_nothing; Rerun press_nothing]).
  - exists no_device_env, []. reflexivity.
  - reflexivity.
  - reflexivity.
  - reflexivity.
  - reflexivity.
  - reflexivity.
  - reflexivity.
  - repeat constructor.
Defined.

End WorkerEnds.

(** ** More on the exit-command scan *)
Section ScanMore.
Import Str ExitCommand.

(** A property of every code point below 256, checked one by one. *)
Lemma below_256 (P : N -> bool) :
  forallb P (map N.of_nat (seq 0 256)) = true ->
  forall c, (c < 256)%N -> P c = true.
Proof.
  intros H c Hc. rewrite forallb_forall in H. apply H.
  apply in_map_iff. exists (N.to_nat c). split; [apply N2Nat.id|].
  apply in_seq. lia.
Qed.

Lemma tolower_idempotent (c : N) :
  (c < 256)%N -> unicode_tolower (unicode_tolower c) = unicode_tolower c.
Proof.
  intros Hc. apply N.eqb_eq. revert c Hc.
  apply (below_256 (fun c => (unicode_tolower (unicode_tolower c) =? unicode_tolower c)%N)).
  vm_compute. reflexivity.
Qed.

Lemma tolower_word (c : N) : (c < 256)%N -> is_word (unicode_tolower c) = is_word c.
Proof.
  intros Hc. apply eqb_prop. revert c Hc.
  apply (below_256 (fun c => Bool.eqb (is_word (unicode_tolower c)) (is_word c))).
  vm_compute. reflexivity.
Qed.

Lemma match_letter_lower (p c : N) :
  (c < 256)%N -> match_letter p (unicode_tolower c) = match_letter p c.
Proof. intros Hc. unfold match_letter. rewrite tolower_idempotent by exact Hc. reflexivity. Qed.

Lemma first_char_lower (s : str) :
  latin1 s -> is_word_opt (first_char (lower s)) = is_word_opt (first_char s).
Proof.
  intros Hs. destruct s as [|c s]; [reflexivity|]. apply Forall_cons in Hs as [Hc _].
  cbn [lower map first_char is_word_opt]. apply tolower_word, Hc.
Qed.

Lemma match_literal_lower (word : str) :
  forall (s : str) (prev prev' : option N),
    latin1 s -> is_word_opt prev = is_word_opt prev' ->
    match match_literal word s prev, match_literal word (lower s) prev' with
    | Some (l, r), Some (l', r') =>
        is_word_opt l = is_word_opt l' /\ r' = lower r /\ latin1 r
    | None, None => True
    | _, _ => False
    end.
Proof.
  induction word as [|p word IH]; intros s prev prev' Hs Hp; cbn [match_literal].
  - auto.
  - destruct s as [|c s]; cbn [lower map]; [exact I|].
    apply Forall_cons in Hs as [Hc Hs].
    rewrite match_letter_lower by exact Hc.
    destruct (match_letter p c); [|exact I].
    apply (IH s (Some c) (Some (unicode_tolower c)) Hs).
    cbn [is_word_opt]. symmetry. apply tolower_word, Hc.
Qed.

Lemma match_alternative_lower (word : str) (prev prev' : option N) (s : str) :
  latin1 s -> is_word_opt prev = is_word_opt prev' ->
  match_alternative word prev' (lower s) = match_alternative word prev s.
Proof.
  intros Hs Hp. unfold match_alternative.
  pose proof (match_literal_lower word s prev prev' Hs Hp) as H.
  destruct (match_literal word s prev) as [[l r]|],
           (match_literal word (lower s) prev') as [[l' r']|]; try tauto.
  destruct H as (Hl & -> & Hr). unfold at_boundary.
  rewrite first_char_lower by exact Hr. rewrite Hl. reflexivity.
Qed.

Lemma search_from_lower (s : str) :
  forall prev prev' : option N,
    latin1 s -> is_word_opt prev = is_word_opt prev' ->
    search_from prev' (lower s) = search_from prev s.
Proof.
  induction s as [|c s IH]; intros prev prev' Hs Hp.
  - cbn [lower map search_from]. unfold match_here, at_boundary.
    cbn [first_char is_word_opt]. rewrite Hp. reflexivity.
  - change (search_from prev' (lower (c :: s)))
      with (match_here prev' (lower (c :: s))
            || search_from (Some (unicode_tolower c)) (lower s)).
    cbn [search_from]. f_equal.
    + unfold match_here.
      rewrite (match_alternative_lower (lit "exit") prev prev' (c :: s) Hs Hp).
      rewrite (match_alternative_lower (lit "quit") prev prev' (c :: s) Hs Hp).
      unfold at_boundary. rewrite Hp, first_char_lower by exact Hs. reflexivity.
    + apply Forall_cons in Hs as [Hc Hs]. apply IH; [exact Hs|].
      cbn [is_word_opt]. symmetry. apply tolower_word, Hc.
Qed.

(** X12.  The scan does not see the case of any letter of the transcript: a
    transcript over the code points 0 to 255 is an exit command exactly
    when its lower-case form is. *)
Theorem exit_command_ignores_case (t : str) :
  latin1 t -> exit_command (lower t) = exit_command t.
Proof. intros Ht. apply search_from_lower; [exact Ht|reflexivity]. Qed.

Lemma exit_command_ignores_case_witness :
  latin1 (lit "Please EXIT now")
  /\ exit_command (lower (lit "Please EXIT now")) = exit_command (lit "Please EXIT now").
Proof.
  assert (latin1 (lit "Please EXIT now")) as H by (vm_compute; repeat constructor).
  split; [exact H|]. apply (exit_command_ignores_case (lit "Please EXIT now")). exact H.
Defined.

End ScanMore.

(** ** More on the script *)
Section ScriptMore.
Import Controller.

Lemma consume_history (items : list (Str.str * bool)) (ft : Str.str) (s : Session) :
  final_transcript (consume items ft s).1
  = match finals items with
    | [] => final_transcript s
    | _ :: _ => Some (ft ++ lines (finals items))
    end.
Proof.
  revert ft s. induction items as [|[t f] items IH]; intros ft s; [reflexivity|].
  cbn [consume]. destruct f.
  - specialize (IH (ft ++ t ++ newline)
                   (set_final_transcript (ft ++ t ++ newline) s)).
    destruct (consume items _ _) as [s' l]. cbn [fst] in *.
    cbn [finals flat_map fst snd app]. fold (finals items). rewrite IH.
    cbn [lines]. destruct (finals items) as [|t' fs].
    + cbn [final_transcript set_final_transcript lines].
      rewrite app_nil_r. reflexivity.
    + rewrite <- !app_assoc. reflexivity.
  - specialize (IH ft s). destruct (consume items ft s) as [s' l]. cbn [fst] in *.
    cbn [finals flat_map fst snd app]. fold (finals items). exact IH.
Qed.

Lemma consume_shown (items : list (Str.str * bool)) (ft : Str.str) (s : Session) :
  shown (consume items ft s).2 = interims items.
Proof.
  revert ft s. induction items as [|[t f] items IH]; intros ft s; [reflexivity|].
  cbn [consume]. destruct f.
  - specialize (IH (ft ++ t ++ newline)
                   (set_final_transcript (ft ++ t ++ newline) s)).
    destruct (consume items _ _) as [s' l]. cbn in *. exact IH.
  - specialize (IH ft s). destruct (consume items ft s) as [s' l]. cbn in *.
    rewrite IH. reflexivity.
Qed.

(** X13.  The polling loop saves as transcript the content of the text area
    followed by every final transcript it takes, in order, each ended
    by a newline; what was saved before is replaced, not extended, and
    is kept only when no final result is taken.  The interim transcripts
    are shown in the order taken and do not enter the saved transcript. *)
Theorem polling_rebuilds_history (items : list (Str.str * bool)) (ft : Str.str) (s : Session) :
  final_transcript (consume items ft s).1
  = match finals items with
    | [] => final_transcript s
    | _ :: _ => Some (ft ++ lines (finals items))
    end
  /\ shown (consume items ft s).2 = interims items
  /\ gets (consume items ft s).2 = items.
Proof.
  split; [apply consume_history|]. split; [apply consume_shown|apply consume_gets].
Qed.

Lemma polling_run (inp : Inputs) (w : World) :
  reachable w -> phase_of w = Listening ->
  stop_button inp = false -> poll_fault inp = None ->
  let q := result_queue (session w) in
  let w' := step (Rerun inp) w in
  gets (log w') = gets (log w) ++ Heap.contents q (heap w)
  /\ Heap.contents q (heap w') = []
  /\ shown (log w') = shown (log w) ++ interims (Heap.contents q (heap w))
  /\ phase_of w' = Listening.
Proof.
  intros Hr Hp Hstop Hfault. cbn zeta.
  destruct (listening_world w Hr Hp) as (Hst & Hl & Hs & _).
  cbn [step]. rewrite Hs, (main_stored inp w (session w) Hst).
  unfold handle_start, handle_stop, finish, process_results.
  rewrite Hl, andb_false_r, Hstop. cbn [andb]. rewrite Hl, Hfault.
  pose proof (consume_session
                (Heap.contents (result_queue (session w)) (heap w))
                (text_area inp) (session w)) as (H1 & _).
  pose proof (consume_gets
                (Heap.contents (result_queue (session w)) (heap w))
                (text_area inp) (session w)) as Hg.
  pose proof (consume_shown
                (Heap.contents (result_queue (session w)) (heap w))
                (text_area inp) (session w)) as Hsh.
  destruct (consume _ _ _) as [s' l]. cbn [fst snd] in H1, Hg, Hsh.
  unfold phase_of. rewrite session_set_stored.
  cbn [log heap set_session_state emit set_heap]. rewrite H1, Hl.
  repeat split.
  - rewrite gets_app. cbn [gets flat_map app]. rewrite gets_app, Hg. cbn.
    rewrite app_nil_r. reflexivity.
  - unfold Heap.contents, Heap.write_queue. cbn. rewrite lookup_insert_eq. reflexivity.
  - unfold shown in *. rewrite flat_map_app. cbn [flat_map app].
    rewrite flat_map_app, Hsh. cbn. rewrite app_nil_r. reflexivity.
Qed.

(** X14.  A run of the script on a listening session, stop not being pressed
    and the polling not failing, takes from the result queue exactly what
    it holds, in order, and leaves it empty. *)
Theorem polling_takes_whole_queue (inp : Inputs) (w : World) :
  reachable w -> phase_of w = Listening ->
  stop_button inp = false -> poll_fault inp = None ->
  let q := result_queue (session w) in
  let w' := step (Rerun inp) w in
  gets (log w') = gets (log w) ++ Heap.contents q (heap w)
  /\ Heap.contents q (heap w') = []
  /\ shown (log w') = shown (log w) ++ interims (Heap.contents q (heap w))
  /\ phase_of w' = Listening.
Proof. exact (polling_run inp w). Qed.

Lemma polling_takes_whole_queue_witness :
  let w := undrained_session in
  let w' := step (Rerun press_nothing) w in
  gets (log w') = gets (log w) ++ Heap.contents (result_queue (session w)) (heap w)
  /\ Heap.contents (result_queue (session w)) (heap w') = []
  /\ shown (log w')
     = shown (log w) ++ interims (Heap.contents (result_queue (session w)) (heap w))
  /\ phase_of w' = Listening.
Proof.
  cbn zeta. apply (polling_takes_whole_queue press_nothing undrained_session).
  - exists ready_env,
      (started_with [Asr.interim (Str.lit "hel")] ++ repeat (WorkerStep 0) 3). reflexivity.
  - vm_compute. reflexivity.
  - reflexivity.
  - reflexivity.
Defined.

Lemma set_session_state_same (ss : SessionState) (l : list effect) (w : World) :
  ss = session_state w -> set_session_state ss (emit l w) = emit l w.
Proof. intros ->. destruct w; reflexivity. Qed.

(** X15.  A run of the script on an idle session in which start is not
    pressed changes nothing but the page: the session state, the heap
    and the threads are as before, whether or not stop is pressed. *)
Theorem idle_run_changes_nothing (inp : Inputs) (w : World) :
  phase_of w = Idle -> session_state w = store (session w) ->
  start_button inp = false ->
  step (Rerun inp) w = emit [UiClearInterim] w.
Proof.
  intros Hp Hst Hstart. unfold phase_of in Hp.
  destruct (listening (session w)) eqn:Hl; [discriminate|].
  destruct (script w) eqn:Hs; [|discriminate].
  cbn [step]. rewrite Hs, (main_stored inp w (session w) Hst).
  unfold handle_start, handle_stop, finish, process_results.
  rewrite Hstart. cbn [andb]. rewrite Hl, andb_false_r. cbn [listening].
  repeat rewrite Hl. apply set_session_state_same. symmetry. exact Hst.
Qed.

Lemma idle_run_changes_nothing_witness :
  phase_of stopped_session = Idle
  /\ step (Rerun press_stop) stopped_session = emit [UiClearInterim] stopped_session.
Proof.
  split; [vm_compute; reflexivity|].
  apply (idle_run_changes_nothing press_stop stopped_session).
  - vm_compute. reflexivity.
  - vm_compute. reflexivity.
  - reflexivity.
Defined.

(** X16.  Starting a session clears the one Event that every thread ever
    started holds: after a run that starts a session the flag is clear
    for each thread of the world, the threads of earlier sessions
    included. *)
Theorem start_clears_flag_of_every_worker (inp : Inputs) (w : World) :
  reachable w -> phase_of w = Idle ->
  start_button inp = true -> stop_button inp = false ->
  let w' := step (Rerun inp) w in
  forall t wk, workers w' !! t = Some wk ->
    Heap.is_set (Worker.stop_event wk) (heap w') = false.
Proof.
  intros Hr Hp Hstart Hstop w' t wk Hwk.
  assert (reachable w') as Hr' by (apply reachable_step, Hr).
  apply reachable_consistent in Hr'.
  destruct (same_objects w' Hr' t wk Hwk) as [He _].
  apply session_stop_event in He. rewrite <- He. clear He Hwk Hr' t wk.
  subst w'. unfold phase_of in Hp.
  destruct (listening (session w)) eqn:Hl; [discriminate|].
  destruct (script w) eqn:Hs; [|discriminate].
  cbn [step]. rewrite Hs. unfold main. unfold session in Hl.
  destruct (state_management (heap w) (session_state w)) as [h s]. cbn [snd] in Hl.
  unfold handle_start, handle_stop, finish, process_results.
  rewrite Hstart, Hl, Hstop.
  cbn [andb negb thread_start set_listening set_thread listening
       stop_event result_queue thread set_heap emit
       env heap session_state workers next_tid script log].
  destruct (poll_fault inp) as [f|].
  - match goal with
    | |- context [interrupted f ?items ?ft ?s0] =>
        pose proof (interrupted_session f items ft s0) as (_ & H2 & _);
        destruct (interrupted f items ft s0) as [[s' l] kept]
    end.
    cbn in H2. cbn [listening set_listening]. rewrite session_set_stored.
    cbn [heap set_session_state emit set_heap stop_event set_listening].
    rewrite H2. unfold Heap.is_set, Heap.write_queue, Heap.clear, Heap.write_event. cbn.
    rewrite lookup_insert_eq. reflexivity.
  - match goal with
    | |- context [consume ?items ?ft ?s0] =>
        pose proof (consume_session items ft s0) as (_ & H2 & _);
        destruct (consume items ft s0) as [s' l]
    end.
    cbn in H2. rewrite session_set_stored. cbn [heap set_session_state emit set_heap].
    rewrite H2. unfold Heap.is_set, Heap.write_queue, Heap.clear, Heap.write_event. cbn.
    rewrite lookup_insert_eq. reflexivity.
Qed.

Lemma start_clears_flag_of_every_worker_witness :
  let w := stopped_session in
  let w' := step (Rerun press_start) w in
  Heap.is_set (Worker.stop_event (worker_of 0 w)) (heap w) = true
  /\ workers w' !! 0 = Some (worker_of 0 w')
  /\ Heap.is_set (Worker.stop_event (worker_of 0 w')) (heap w') = false.
Proof.
  cbn zeta. split; [vm_compute; reflexivity|]. split; [vm_compute; reflexivity|].
  apply (start_clears_flag_of_every_worker press_start stopped_session) with (t := 0).
  - exists ready_env, (started_with [] ++ [Rerun press_stop; JoinReturns]). reflexivity.
  - vm_compute. reflexivity.
  - reflexivity.
  - reflexivity.
  - vm_compute. reflexivity.
Defined.

Lemma consume_until_split (items : list (Str.str * bool)) :
  forall (n : nat) (ft : Str.str) (s : Session),
    items = gets (consume_until n items ft s).1.2 ++ (consume_until n items ft s).2.
Proof.
  induction items as [|[t f] items IH]; intros n ft s; [reflexivity|].
  cbn [consume_until]. destruct n as [|[|n]]; [reflexivity|reflexivity|]. destruct f.
  - specialize (IH n (ft ++ t ++ newline) (set_final_transcript (ft ++ t ++ newline) s)).
    destruct (consume_until n items _ _) as [[s' l] kept]. cbn in *. congruence.
  - specialize (IH n ft s). destruct (consume_until n items ft s) as [[s' l] kept].
    cbn in *. congruence.
Qed.

Lemma interrupted_split (f : Fault) (items : list (Str.str * bool)) (ft : Str.str)
      (s : Session) :
  items = gets (interrupted f items ft s).1.2 ++ (interrupted f items ft s).2.
Proof.
  unfold interrupted. destruct (returned f) as [|n]; [reflexivity|].
  pose proof (consume_until_split items n ft s) as H.
  destruct (consume_until n items ft s) as [[s' l] kept]. exact H.
Qed.

(** X17.  An exception in the polling ends the session without a word to
    its worker: the session becomes Idle, but no flag is set, the threads
    are as they were and the thread object is still held.  The items the
    loop took before the exception are gone from the queue, the others
    stay on it, and the page shows "Error processing audio: " followed
    by the text of the exception. *)
Theorem polling_failure_abandons_worker (inp : Inputs) (w : World) (f : Fault) :
  reachable w -> phase_of w = Listening ->
  stop_button inp = false -> poll_fault inp = Some f ->
  let q := result_queue (session w) in
  let w' := step (Rerun inp) w in
  phase_of w' = Idle
  /\ Heap.events (heap w') = Heap.events (heap w)
  /\ workers w' = workers w
  /\ thread (session w') = thread (session w)
  /\ exists l,
       log w' = log w ++ l ++ [UiError (Str.lit "Error processing audio: " ++ message f);
                               UiClearInterim]
       /\ Heap.contents q (heap w) = gets l ++ Heap.contents q (heap w').
Proof.
  intros Hr Hp Hstop Hfault. cbn zeta.
  destruct (listening_world w Hr Hp) as (Hst & Hl & Hs & _).
  cbn [step]. rewrite Hs, (main_stored inp w (session w) Hst).
  unfold handle_start, handle_stop, finish, process_results.
  rewrite Hl, andb_false_r, Hstop. cbn [andb]. rewrite Hl, Hfault.
  pose proof (interrupted_session
                f (Heap.contents (result_queue (session w)) (heap w))
                (text_area inp) (session w)) as (_ & _ & H3 & H4).
  pose proof (interrupted_split
                f (Heap.contents (result_queue (session w)) (heap w))
                (text_area inp) (session w)) as Hsplit.
  destruct (interrupted _ _ _ _) as [[s' l] kept]. cbn [fst snd] in H3, H4, Hsplit.
  cbn [listening set_listening].
  unfold phase_of. rewrite session_set_stored.
  cbn [log heap workers script set_session_state emit set_heap listening set_listening thread].
  rewrite Hs, H3, H4. repeat split. exists l. split.
  - rewrite <- !app_assoc. reflexivity.
  - unfold Heap.contents at 2. unfold Heap.write_queue. cbn [Heap.queues].
    rewrite lookup_insert_eq. exact Hsplit.
Qed.

Lemma polling_failure_abandons_worker_witness :
  let w := undrained_session in
  let f := mkFault 2 (Str.lit "display error") in
  let inp := mkInputs 0 [] false false (Some f) in
  let q := result_queue (session w) in
  let w' := step (Rerun inp) w in
  phase_of w' = Idle
  /\ Heap.events (heap w') = Heap.events (heap w)
  /\ workers w' = workers w
  /\ thread (session w') = thread (session w)
  /\ exists l,
       log w' = log w ++ l ++ [UiError (Str.lit "Error processing audio: " ++ message f);
                               UiClearInterim]
       /\ Heap.contents q (heap w) = gets l ++ Heap.contents q (heap w').
Proof.
  cbn zeta.
  apply (polling_failure_abandons_worker
           (mkInputs 0 [] false false (Some (mkFault 2 (Str.lit "display error"))))
           undrained_session (mkFault 2 (Str.lit "display error"))).
  - exists ready_env,
      (started_with [Asr.interim (Str.lit "hel")] ++ repeat (WorkerStep 0) 3). reflexivity.
  - vm_compute. reflexivity.
  - reflexivity.
  - reflexivity.
Defined.

Lemma blank_append (a b : Str.str) : blank (a ++ b) = blank a && blank b.
Proof.
  induction a as [|x a IH]; [reflexivity|].
  cbn [app blank]. rewrite IH, andb_assoc. reflexivity.
Qed.

Lemma blank_lines (t : Str.str) (l : list Str.str) :
  In t l -> blank t = false -> blank (lines l) = false.
Proof.
  induction l as [|t' l IH]; intros Hin Hb; [destruct Hin|].
  cbn [lines]. rewrite !blank_append. destruct Hin as [->|Hin].
  - rewrite Hb. reflexivity.
  - rewrite (IH Hin Hb), !andb_false_r. reflexivity.
Qed.

Lemma finals_in (t : Str.str) (items : list (Str.str * bool)) :
  In (t, true) items -> In t (finals items).
Proof.
  intros Hin. unfold finals. apply in_flat_map. exists (t, true). split; [exact Hin|].
  left. reflexivity.
Qed.

(** X18.  Once the polling has taken a final result whose transcript is not
    blank, the saved transcript is offered for download by the runs that
    reach the download button, whatever the text area holds. *)
Theorem final_result_makes_transcript_downloadable
        (items : list (Str.str * bool)) (ft t : Str.str) (s : Session) (inp : Inputs) :
  In (t, true) items -> blank t = false ->
  download_data inp (consume items ft s).1 = Some (ft ++ lines (finals items)).
Proof.
  intros Hin Hb. unfold download_data. rewrite consume_history.
  pose proof (finals_in t items Hin) as Hf.
  destruct (finals items) as [|t' fs] eqn:Hfs; [destruct Hf|].
  rewrite blank_append, (blank_lines t (t' :: fs) Hf Hb), andb_false_r. reflexivity.
Qed.

Lemma final_result_makes_transcript_downloadable_witness :
  let items := [(Str.lit "hel", false); (Str.lit "hello world", true)] in
  download_data press_nothing (consume items [] (session listening_session)).1
  = Some ([] ++ lines (finals items)).
Proof.
  cbn zeta.
  apply (final_result_makes_transcript_downloadable
           [(Str.lit "hel", false); (Str.lit "hello world", true)] [] (Str.lit "hello world")
           (session listening_session) press_nothing).
  - right. left. reflexivity.
  - vm_compute. reflexivity.
Defined.

End ScriptMore.

(** ** From the service to the page *)
Section EndToEnd.
Import Controller.

(** Steps of one thread in a row are its steps taken alone. *)
Lemma worker_steps_run (n : nat) (t : nat) :
  forall (w : World) (wk : Worker.Worker),
    workers w !! t = Some wk ->
    let r := Worker.steps n (env w) (heap w) wk in
    let w' := run (repeat (WorkerStep t) n) w in
    heap w' = r.1 /\ workers w' !! t = Some r.2
    /\ session_state w' = session_state w /\ script w' = script w /\ log w' = log w.
Proof.
  induction n as [|n IH]; intros w wk Hwk; [cbn; auto|].
  cbn zeta. cbn [repeat]. change (run (?ev :: ?evs) w) with (run evs (step ev w)).
  rewrite steps_S.
  assert (step (WorkerStep t) w
          = set_worker t (Worker.step (env w) (heap w) wk).2
              (set_heap (Worker.step (env w) (heap w) wk).1 w)) as Hstep.
  { cbn [step]. rewrite Hwk. destruct (Worker.step _ _ _). reflexivity. }
  set (w1 := step (WorkerStep t) w) in *.
  assert (workers w1 !! t = Some (Worker.step (env w) (heap w) wk).2) as Hw1.
  { rewrite Hstep. cbn. apply lookup_insert_eq. }
  assert (heap w1 = (Worker.step (env w) (heap w) wk).1) as Hh1 by (rewrite Hstep; reflexivity).
  assert (env w1 = env w) as He1 by (rewrite Hstep; reflexivity).
  assert (session_state w1 = session_state w) as Hss1 by (rewrite Hstep; reflexivity).
  assert (script w1 = script w) as Hs1 by (rewrite Hstep; reflexivity).
  assert (log w1 = log w) as Hl1 by (rewrite Hstep; reflexivity).
  destruct (IH w1 _ Hw1) as (H1 & H2 & H3 & H4 & H5).
  rewrite He1, Hh1 in H1, H2. repeat split; congruence.
Qed.

(** Responses delivered to a thread that is receiving queue up behind
    those it has not yet taken. *)
Lemma deliveries_run (rs : list Asr.Response) (t : nat) :
  forall (w : World) (wk : Worker.Worker),
    workers w !! t = Some wk -> Worker.receiving wk = true ->
    let w' := run (map (Deliver t) rs) w in
    workers w' !! t = Some (Worker.set_inbound (Worker.inbound wk ++ rs) wk)
    /\ heap w' = heap w /\ env w' = env w
    /\ session_state w' = session_state w /\ script w' = script w /\ log w' = log w.
Proof.
  induction rs as [|r rs IH]; intros w wk Hwk Hrec.
  - cbn zeta. cbn [map run fold_left]. rewrite app_nil_r, Hwk.
    destruct wk; repeat split; reflexivity.
  - cbn zeta. cbn [map]. change (run (?ev :: ?evs) w) with (run evs (step ev w)).
    assert (step (Deliver t r) w
            = set_worker t (Worker.set_inbound (Worker.inbound wk ++ [r]) wk) w) as Hstep.
    { cbn [step]. unfold on_worker, Worker.deliver. rewrite Hwk, Hrec. reflexivity. }
    set (w1 := step (Deliver t r) w) in *.
    assert (workers w1 !! t
            = Some (Worker.set_inbound (Worker.inbound wk ++ [r]) wk)) as Hw1.
    { rewrite Hstep. cbn. apply lookup_insert_eq. }
    destruct (IH w1 _ Hw1) as (H1 & H2 & H3 & H4 & H5 & H6); [exact Hrec|].
    rewrite H1, H2, H3, H4, H5, H6, Hstep.
    cbn [Worker.inbound Worker.set_inbound]. rewrite <- app_assoc. repeat split.
Qed.

(** X19.  In a session that is started and left alone, what the polling takes
    from the result queue, once the worker has gone through the
    responses delivered, is what the router forwards of them, in the
    order delivered, up to and including the first exit command. *)
Theorem delivered_results_reach_the_page (rs : list Asr.Response) :
  let w := run (started_with rs
                ++ repeat (WorkerStep 0) (3 * length rs + 1)
                ++ [Rerun press_nothing])
               (initial ready_env) in
  gets (log w) = omap Router.forwarded (Router.handled rs)
  /\ shown (log w) = interims (omap Router.forwarded (Router.handled rs)).
Proof.
  cbn zeta. unfold started_with.
  rewrite <- app_assoc, !run_app_events.
  set (w0 := run [Rerun press_start; WorkerStep 0] (initial ready_env)).
  destruct (deliveries_run rs 0 w0 (worker_of 0 w0)) as (Hw1 & Hh1 & He1 & Hss1 & Hs1 & Hl1);
    [vm_compute; reflexivity|vm_compute; reflexivity|].
  set (w1 := run (map (Deliver 0) rs) w0) in *.
  destruct (worker_steps_run (3 * length rs + 1) 0 w1 _ Hw1) as (Hh2 & Hw2 & Hss2 & Hs2 & Hl2).
  set (w2 := run (repeat (WorkerStep 0) (3 * length rs + 1)) w1) in *.
  change (run [Rerun press_nothing] w2) with (step (Rerun press_nothing) w2).
  assert (reachable w2) as Hr.
  { exists ready_env,
      (([Rerun press_start; WorkerStep 0] ++ map (Deliver 0) rs)
       ++ repeat (WorkerStep 0) (3 * length rs + 1)).
    subst w2 w1 w0. rewrite !run_app_events. reflexivity. }
  assert (session_state w2 = session_state w0) as Hss by congruence.
  assert (phase_of w2 = Listening) as Hp.
  { unfold phase_of. rewrite session_listening, Hss. reflexivity. }
  assert (result_queue (session w2) = 1) as Hq.
  { apply session_result_queue. rewrite Hss. reflexivity. }
  destruct (polling_run press_nothing w2 Hr Hp eq_refl eq_refl) as (Hg & _ & Hsh & _).
  rewrite Hq in Hg, Hsh.
  assert (Heap.contents 1 (heap w2) = omap Router.forwarded (Router.handled rs)) as Hc.
  { rewrite Hh2, He1, Hh1.
    destruct (receive_loop (env w0) rs (heap w0)
                (Worker.set_inbound (Worker.inbound (worker_of 0 w0) ++ rs) (worker_of 0 w0)))
      as [Hrl _]; [reflexivity|reflexivity|vm_compute; reflexivity|].
    exact Hrl. }
  rewrite Hg, Hsh, Hc, Hl2, Hl1. split; reflexivity.
Qed.

End EndToEnd.

(** ** Cancellation and restart *)
Section Restart.
Import Controller.

Lemma handle_start_flag (inp : Inputs) (w : World) (s : Session) :
  flag_clear w s -> flag_clear (handle_start inp w s).1 (handle_start inp w s).2.
Proof.
  unfold flag_clear, handle_start. intros H.
  destruct (start_button inp && negb (listening s)); [|exact H].
  intros _. cbn. apply is_set_clear.
Qed.

Lemma handle_stop_flag (inp : Inputs) (w : World) (s : Session) :
  flag_clear w s -> flag_clear (handle_stop inp w s).1.1 (handle_stop inp w s).1.2.
Proof.
  unfold flag_clear, handle_stop. intros H.
  destruct (stop_button inp && listening s); [|exact H].
  destruct (thread (set_listening false s)); cbn; discriminate.
Qed.

Lemma finish_flag (inp : Inputs) (w : World) (s : Session) :
  flag_clear w s -> flag_clear (finish inp w s).1 (finish inp w s).2.
Proof.
  unfold flag_clear, finish, process_results. intros H.
  destruct (listening s) eqn:Hl.
  - destruct (poll_fault inp) as [f|].
    + destruct (interrupted _ _ _ _) as [[s' l] kept]. cbn. discriminate.
    + pose proof (consume_session (Heap.contents (result_queue s) (heap w)) (text_area inp) s)
        as (_ & H2 & _).
      destruct (consume _ _ _) as [s' l]. cbn in H2. cbn. rewrite H2. intros _. exact (H eq_refl).
  - cbn. rewrite Hl. cbn. congruence.
Qed.

Lemma state_management_flag (w : World) :
  consistent w -> flag_clear w (session w) ->
  flag_clear (set_heap (state_management (heap w) (session_state w)).1 w) (session w).
Proof.
  intros Hc H Hl. destruct (stored w Hc) as [Hst|Hst].
  - rewrite session_listening, Hst in Hl. discriminate.
  - rewrite Hst, state_management_stored. cbn. exact (H Hl).
Qed.

Lemma main_flag (inp : Inputs) (w : World) :
  consistent w -> flag_clear w (session w) ->
  flag_clear (main inp w) (session (main inp w)).
Proof.
  intros Hc H. pose proof (state_management_flag w Hc H) as H0.
  unfold main. unfold session in H0 at 1.
  destruct (state_management (heap w) (session_state w)) as [h s]. cbn [fst snd] in H0.
  pose proof (handle_start_flag inp _ _ H0) as H1.
  destruct (handle_start inp (set_heap h w) s) as [w1 s1]. cbn [fst snd] in H1.
  pose proof (handle_stop_flag inp _ _ H1) as H2.
  destruct (handle_stop inp w1 s1) as [[w2 s2] waiting]. cbn [fst snd] in H2.
  destruct waiting as [t|].
  - rewrite (session_of_stored _ s2) by reflexivity. exact H2.
  - pose proof (finish_flag inp _ _ H2) as H3.
    destruct (finish inp w2 s2) as [w3 s3]. cbn [fst snd] in H3.
    rewrite session_set_stored. exact H3.
Qed.

Lemma join_returns_flag (w : World) :
  consistent w -> flag_clear w (session w) ->
  flag_clear (join_returns w) (session (join_returns w)).
Proof.
  intros Hc H. unfold join_returns. destruct (script w) as [|t inp]; [exact H|].
  pose proof (state_management_flag w Hc H) as H0. unfold session in H0 at 1.
  destruct (state_management (heap w) (session_state w)) as [h s]. cbn [fst snd] in H0.
  unfold after_join.
  pose proof (finish_flag inp (emit [UiInfo "Listening stopped."] (set_heap h w))
                (set_thread None s) H0) as H1.
  destruct (finish _ _ _) as [w2 s2]. cbn [fst snd] in H1.
  rewrite (session_of_stored _ s2) by reflexivity. exact H1.
Qed.

Lemma step_flag (ev : event) (w : World) :
  consistent w -> flag_clear w (session w) ->
  flag_clear (step ev w) (session (step ev w)).
Proof.
  intros Hc H. destruct (background ev) eqn:Hb.
  - destruct (background_frame ev w Hb) as (Hss & _ & _ & _ & Hev & _).
    intros Hl. rewrite session_listening, Hss, <- session_listening in Hl.
    destruct (stored w Hc) as [Hst|Hst];
      [rewrite session_listening, Hst in Hl; discriminate|].
    rewrite (session_of_stored (step ev w) (session w)) by congruence.
    rewrite (is_set_events _ _ _ Hev). exact (H Hl).
  - destruct ev; try discriminate; cbn [step].
    + destruct (script w); [apply main_flag; assumption|exact H].
    + apply join_returns_flag; assumption.
Qed.

(** In every reachable world the flag of a listening session is clear:
    where the flag is set, the session is not listening. *)
Lemma reachable_flag (w : World) : reachable w -> flag_clear w (session w).
Proof.
  intros (e & evs & ->). induction evs as [|ev evs IH] using rev_ind.
  - intros Hl. discriminate.
  - rewrite run_snoc. apply step_flag; [|exact IH].
    apply run_consistent, initial_consistent.
Qed.

(** With the flag of a thread set, the steps of the script that start
    nothing leave the heap and the threads alone. *)
Lemma cancelled_script (ev : event) (w : World) (t : nat) (wk : Worker.Worker) :
  reachable w -> workers w !! t = Some wk ->
  Heap.is_set (Worker.stop_event wk) (heap w) = true ->
  background ev = false -> keeps_cancelled t ev = true ->
  workers (step ev w) = workers w /\ heap (step ev w) = heap w.
Proof.
  intros Hr Hwk Hset Hb Hk. pose proof (reachable_consistent w Hr) as Hc.
  destruct (same_objects w Hc t wk Hwk) as [He _].
  assert (session_state w = store (session w)) as Hst.
  { destruct (stored w Hc) as [Hst|Hst]; [|exact Hst]. rewrite Hst in He. discriminate. }
  apply session_stop_event in He.
  assert (listening (session w) = false) as Hl.
  { destruct (listening (session w)) eqn:Hl; [|reflexivity].
    pose proof (reachable_flag w Hr Hl) as Hclear. congruence. }
  destruct ev as [inp| | | | | | | |]; try discriminate; cbn in Hk.
  - apply negb_true_iff in Hk. cbn [step]. destruct (script w) eqn:Hs; [|auto].
    rewrite (main_stored inp w (session w) Hst).
    unfold handle_start, handle_stop, finish, process_results.
    rewrite Hk. cbn [andb]. rewrite Hl, andb_false_r. cbn [listening].
    repeat rewrite Hl. cbn. auto.
  - destruct (script w) as [|t' inp] eqn:Hs.
    + cbn [step]. unfold join_returns. rewrite Hs. auto.
    + rewrite (join_rerun w t' inp (session w) Hs Hst Hl). cbn. auto.
Qed.

Lemma cancelled_event_or_script (ev : event) (t : nat) (w : World) (wk : Worker.Worker) :
  reachable w -> workers w !! t = Some wk ->
  Heap.is_set (Worker.stop_event wk) (heap w) = true ->
  keeps_cancelled t ev = true ->
  cancelled_progress t wk w (step ev w).
Proof.
  intros Hr Hwk Hset Hk. destruct (background ev) eqn:Hb.
  - apply cancelled_event; [exact Hwk|exact Hset|].
    destruct ev; try discriminate; exact Hk.
  - destruct (cancelled_script ev w t wk Hr Hwk Hset Hb Hk) as [Hw Hh].
    exists wk, []. rewrite Hw, Hh, app_nil_r. repeat split; auto.
Qed.

Lemma cancelled_run_or_script (evs : list event) (t : nat) (w : World) (wk : Worker.Worker) :
  reachable w -> workers w !! t = Some wk ->
  Heap.is_set (Worker.stop_event wk) (heap w) = true ->
  Forall (fun ev => keeps_cancelled t ev = true) evs ->
  cancelled_progress t wk w (run evs w).
Proof.
  revert w wk. induction evs as [|ev evs IH]; intros w wk Hr Hwk Hset Hall.
  - exists wk, []. cbn. rewrite app_nil_r. repeat split; auto.
  - apply Forall_cons in Hall as [Hev Hall].
    destruct (cancelled_event_or_script ev t w wk Hr Hwk Hset Hev)
      as (wk1 & l1 & Hwk1 & He1 & Hq1 & Hset1 & Hc1 & Hlen1).
    change (run (ev :: evs) w) with (run evs (step ev w)).
    rewrite <- He1 in Hset1.
    destruct (IH (step ev w) wk1 (reachable_step ev w Hr) Hwk1 Hset1 Hall)
      as (wk2 & l2 & Hwk2 & He2 & Hq2 & Hset2 & Hc2 & Hlen2).
    exists wk2, (l1 ++ l2). rewrite He1, Hq1 in *.
    repeat split; try congruence.
    + rewrite Hc2, Hc1, app_assoc. reflexivity.
    + rewrite length_app. lia.
Qed.

(** X11.  While the flag stays set, that is until a run of the script
    starts a session again, a worker puts on the result queue at most
    the one result that it had already passed the test for, and nothing
    at all if it was not about to route a response, whatever responses
    it receives and whatever else the script does. *)
Theorem cancelled_worker_forwards_at_most_one
        (evs : list event) (t : nat) (w : World) (wk : Worker.Worker) :
  reachable w -> workers w !! t = Some wk ->
  Heap.is_set (Worker.stop_event wk) (heap w) = true ->
  Forall (fun ev => keeps_cancelled t ev = true) evs ->
  let q := Worker.result_queue wk in
  exists late,
    Heap.contents q (heap (run evs w)) = Heap.contents q (heap w) ++ late
    /\ length late <= 1
    /\ ((forall r, Worker.pc wk <> Worker.Route r) -> late = [])
    /\ Heap.is_set (Worker.stop_event wk) (heap (run evs w)) = true.
Proof.
  intros Hr Hwk Hset Hall. cbn zeta.
  destruct (cancelled_run_or_script evs t w wk Hr Hwk Hset Hall)
    as (wk' & late & _ & _ & _ & Hset' & Hq & Hlen).
  exists late. split; [exact Hq|].
  assert (Worker.pending wk <= 1) as Hp.
  { unfold Worker.pending. destruct (Worker.pc wk); try lia.
    destruct (Router.forwarded r); lia. }
  split; [lia|]. split; [|exact Hset'].
  intros Hpc. unfold Worker.pending in Hlen at 2.
  destruct (Worker.pc wk) as [| |r|r|why|e]; try (destruct late; [reflexivity|cbn in Hlen; lia]).
  destruct (Hpc r eq_refl).
Qed.

Lemma cancelled_worker_forwards_at_most_one_witness :
  let w := run [Rerun press_stop] listening_session in
  let wk := worker_of 0 w in
  let evs := [Deliver 0 (Asr.final (Str.lit "late")); WorkerStep 0; JoinReturns;
              Rerun press_stop; WorkerStep 0; WorkerStep 0] in
  let q := Worker.result_queue wk in
  exists late,
    Heap.contents q (heap (run evs w)) = Heap.contents q (heap w) ++ late
    /\ length late <= 1
    /\ ((forall r, Worker.pc wk <> Worker.Route r) -> late = [])
    /\ Heap.is_set (Worker.stop_event wk) (heap (run evs w)) = true.
Proof.
  cbn zeta.
  apply (cancelled_worker_forwards_at_most_one
           [Deliver 0 (Asr.final (Str.lit "late")); WorkerStep 0; JoinReturns;
            Rerun press_stop; WorkerStep 0; WorkerStep 0]
           0 (run [Rerun press_stop] listening_session)
           (worker_of 0 (run [Rerun press_stop] listening_session))).
  - exists ready_env, (started_with [] ++ [Rerun press_stop]).
    symmetry. apply run_app_events.
  - vm_compute. reflexivity.
  - vm_compute. reflexivity.
  - repeat constructor.
Defined.

(** A thread that waits for a response goes on waiting while the
    service sends it nothing. *)
Lemma waiting_step (ev : event) (t : nat) (w : World) (wk : Worker.Worker) :
  workers w !! t = Some wk -> Worker.waiting wk -> silent t ev = true ->
  exists wk', workers (step ev w) !! t = Some wk' /\ Worker.waiting wk'.
Proof.
  intros Hwk (Hpc & Hin & Hsv) Hs.
  destruct ev as [inp| |t'|t' r|t'|t'|t' data|t'|e]; cbn in Hs; try discriminate;
    try (apply Nat.eqb_eq in Hs; subst t'); cbn [step].
  - exists wk. split; [|repeat split; assumption].
    rewrite Hwk. unfold Worker.step. rewrite Hpc, Hin, Hsv. cbn. apply lookup_insert_eq.
  - destruct (on_worker_lookup t (Worker.device_frame data) w wk Hwk) as [H _].
    eexists. split; [exact H|]. unfold Worker.waiting, Worker.device_frame.
    destruct (Worker.stream wk) as [m|]; [destruct (Mic.audio_stream_open m)|];
      cbn; auto.
  - destruct (on_worker_lookup t Worker.client_pull w wk Hwk) as [H _].
    eexists. split; [exact H|]. unfold Worker.waiting, Worker.client_pull.
    destruct (Worker.stream wk) as [m|]; [|auto].
    destruct (Mic.generator_step m (Worker.requests wk)) as [[m' g] out]. cbn. auto.
  - exists wk. cbn. repeat split; assumption.
Qed.

Lemma silent_background (t : nat) (ev : event) : silent t ev = true -> background ev = true.
Proof. destruct ev; cbn; congruence. Qed.

Lemma waiting_silent_run (evs : list event) (t : nat) (w : World) (wk : Worker.Worker) :
  workers w !! t = Some wk -> Worker.waiting wk ->
  Forall (fun ev => silent t ev = true) evs ->
  (exists wk', workers (run evs w) !! t = Some wk' /\ Worker.waiting wk')
  /\ Heap.events (heap (run evs w)) = Heap.events (heap w).
Proof.
  revert w wk. induction evs as [|ev evs IH]; intros w wk Hwk Hwait Hall; [eauto|].
  apply Forall_cons in Hall as [Hs Hall].
  destruct (waiting_step ev t w wk Hwk Hwait Hs) as (wk1 & Hwk1 & Hwait1).
  destruct (background_frame ev w (silent_background t ev Hs)) as (_ & _ & _ & _ & Hev & _).
  change (run (ev :: evs) w) with (run evs (step ev w)).
  destruct (IH (step ev w) wk1 Hwk1 Hwait1 Hall) as [H1 H2].
  split; [exact H1|congruence].
Qed.

(** C8 (divergence).  The worker tests the flag once for every response
    it takes from the stream, before routing it, and leaves the loop
    when it finds the flag set.  But it tests it at no other moment:
    while the service sends nothing the worker waits, flag set or not.
    And the flag it tests is the one Event of all sessions, which the
    next start() clears: a worker that was waiting when its session was
    stopped finds the flag clear when its next response arrives, and
    goes on forwarding whatever it receives, beside the worker of the
    new session. *)
Theorem restart_revives_cancelled_worker :
  (forall env h wk r,
      Worker.pc wk = Worker.CheckStop r ->
      Heap.is_set (Worker.stop_event wk) h = true ->
      (Worker.step env h wk).1 = h
      /\ Worker.pc (Worker.step env h wk).2 = Worker.Finished Worker.Cancelled)
  /\ (forall evs t w wk,
        workers w !! t = Some wk -> Worker.waiting wk ->
        Heap.is_set (Worker.stop_event wk) (heap w) = true ->
        Forall (fun ev => silent t ev = true) evs ->
        Heap.is_set (Worker.stop_event wk) (heap (run evs w)) = true
        /\ exists wk', workers (run evs w) !! t = Some wk' /\ Worker.waiting wk')
  /\ (forall rs,
        let w0 := stopped_session in
        let w := run (restarted_with rs) w0 in
        let q := result_queue (session w0) in
        (phase_of w0 = Idle
         /\ Heap.is_set (stop_event (session w0)) (heap w0) = true
         /\ Heap.contents q (heap w0) = []
         /\ exists wk0, workers w0 !! 0 = Some wk0 /\ Worker.waiting wk0
                        /\ Worker.stop_event wk0 = stop_event (session w0)
                        /\ Worker.result_queue wk0 = q)
        /\ Heap.contents q (heap w) = omap Router.forwarded (Router.handled rs)
        /\ (Worker.pc <$> workers w !! 0 = Some Worker.AwaitResponse
            \/ Worker.pc <$> workers w !! 0
               = Some (Worker.Finished Worker.ExitCommandHeard))
        /\ phase_of w = Listening /\ thread (session w) = Some 1).
Proof.
  split; [|split].
  - intros env h wk r Hpc Hset. rewrite (step_check_set env h wk r Hpc Hset). auto.
  - intros evs t w wk Hwk Hwait Hset Hall.
    destruct (waiting_silent_run evs t w wk Hwk Hwait Hall) as [H1 H2].
    split; [|exact H1]. rewrite (is_set_events _ _ _ H2). exact Hset.
  - intros rs. cbn zeta. split.
    { split; [vm_compute; reflexivity|]. split; [vm_compute; reflexivity|].
      split; [vm_compute; reflexivity|].
      exists (worker_of 0 stopped_session). vm_compute. auto 10. }
    unfold restarted_with. rewrite !run_app_events.
    set (w1 := run [Rerun press_start] stopped_session).
    destruct (deliveries_run rs 0 w1 (worker_of 0 w1)) as (Hw2 & Hh2 & He2 & Hss2 & Hs2 & Hl2);
      [vm_compute; reflexivity|vm_compute; reflexivity|].
    set (w2 := run (map (Deliver 0) rs) w1) in *.
    destruct (worker_steps_run (3 * length rs + 1) 0 w2 _ Hw2) as (Hh3 & Hw3 & Hss3 & Hs3 & Hl3).
    set (w3 := run (repeat (WorkerStep 0) (3 * length rs + 1)) w2) in *.
    destruct (receive_loop (env w2) rs (heap w2)
                (Worker.set_inbound (Worker.inbound (worker_of 0 w1) ++ rs) (worker_of 0 w1)))
      as [Hq Hpc]; [reflexivity|reflexivity|rewrite Hh2; vm_compute; reflexivity|].
    rewrite <- Hh3 in Hq. rewrite Hw3. cbn [fmap option_fmap option_map].
    split; [|split; [|split]].
    + change (result_queue (session stopped_session)) with 1.
      change (Worker.result_queue
                (Worker.set_inbound (Worker.inbound (worker_of 0 w1) ++ rs) (worker_of 0 w1)))
        with 1 in Hq.
      rewrite Hq, Hh2. reflexivity.
    + destruct Hpc as [Hpc|Hpc]; [right|left]; rewrite Hpc; reflexivity.
    + unfold phase_of. rewrite session_listening, Hss3, Hss2. reflexivity.
    + rewrite session_thread, Hss3, Hss2. reflexivity.
Qed.

Lemma restart_revives_cancelled_worker_witness :
  let w := run [Rerun press_stop] listening_session in
  let wk := worker_of 0 w in
  let r := Asr.interim (Str.lit "late") in
  let checking := Worker.set_pc (Worker.CheckStop r) wk in
  let evs := [WorkerStep 0; ClientPull 0; DeviceFrame 0 [Byte.x61]; WorkerStep 0] in
  ((Worker.step ready_env (heap w) checking).1 = heap w
   /\ Worker.pc (Worker.step ready_env (heap w) checking).2
      = Worker.Finished Worker.Cancelled)
  /\ Heap.is_set (Worker.stop_event wk) (heap (run evs w)) = true
  /\ exists wk', workers (run evs w) !! 0 = Some wk' /\ Worker.waiting wk'.
Proof.
  cbn zeta. destruct restart_revives_cancelled_worker as (H1 & H2 & _). split.
  - apply (H1 ready_env (heap (run [Rerun press_stop] listening_session))
              (Worker.set_pc (Worker.CheckStop (Asr.interim (Str.lit "late")))
                 (worker_of 0 (run [Rerun press_stop] listening_session)))
              (Asr.interim (Str.lit "late"))).
    + reflexivity.
    + vm_compute. reflexivity.
  - apply (H2 [WorkerStep 0; ClientPull 0; DeviceFrame 0 [Byte.x61]; WorkerStep 0] 0
              (run [Rerun press_stop] listening_session)
              (worker_of 0 (run [Rerun press_stop] listening_session))).
    + vm_compute. reflexivity.
    + vm_compute. auto.
    + vm_compute. reflexivity.
    + repeat constructor.
Defined.

(** The first worker of a session stopped and started again forwards
    both results it then receives, and waits for more. *)
Example restart_forwards_both :
  let w := run (restarted_with [Asr.interim (Str.lit "one"); Asr.interim (Str.lit "two")])
               stopped_session in
  Heap.contents (result_queue (session w)) (heap w)
  = [(Str.lit "one", false); (Str.lit "two", false)]
  /\ Worker.pc <$> workers w !! 0 = Some Worker.AwaitResponse
  /\ Worker.pc <$> workers w !! 1 = Some Worker.Init.
Proof. vm_compute. repeat split. Qed.

End Restart.
